(** * The LevelDB table writer: bloom filters, filter blocks, block builder
      and table builder, embedded from the C++ sources.

    Conventions of the embedding.
    - A [std::string] / [Slice] is a [list Z] of byte values (0..255); its
      [size()] is the list length, read as a [Z].
    - [uint32_t], [int] and [size_t]/[uint64_t] arithmetic that can leave its
      range is written with its wrap-around ([wrap32], [to_int32], [wrap64]).
    - [assert(...)] lines are checks, not behaviour: the functions are
      embedded without them, and the ones a property rests on are proved as
      lemmas about reachable states.
    - Functions the sources call but do not define (hash, CRC, compressor,
      comparator, integer codecs) are section variables, or are modelled
      from the format description and marked as such. *)

From Stdlib Require Import ZArith Lia List String Ascii.
From stdpp Require Import base list.
Local Open Scope Z_scope.

Abbreviation bytes := (list Z) (only parsing).

(** ** Machine integers *)

Definition wrap32 (x : Z) : Z := x mod 2 ^ 32.
Definition wrap64 (x : Z) : Z := x mod 2 ^ 64.

(** [static_cast<int>(x)] on a two's complement machine. *)
Definition to_int32 (x : Z) : Z := (x + 2 ^ 31) mod 2 ^ 32 - 2 ^ 31.

(** [s.size()] *)
Definition size {A} (s : list A) : Z := Z.of_nat (length s).

(** [Slice(base + pos, len)] over the bytes of [s]. *)
Definition slice {A} (s : list A) (pos len : Z) : list A :=
  take (Z.to_nat len) (drop (Z.to_nat pos) s).

Definition bytes_of_string (s : string) : bytes :=
  map (fun c => Z.of_nat (nat_of_ascii c)) (list_ascii_of_string s).

(** ** The filter policy interface (leveldb/filter_policy.h)

    [CreateFilter keys n dst] returns the new contents of [*dst];
    [KeyMayMatch key filter] is the probe. *)
Module FilterPolicy.
Record t := {
  Name : bytes;
  CreateFilter : list bytes -> Z -> bytes -> bytes;
  KeyMayMatch : bytes -> bytes -> bool
}.
End FilterPolicy.

(** ** util/bloom.cc *)
Module Bloom.
Section WithHash.

(** [Hash(data, n, seed)] of util/hash.h; its result is a [uint32_t]. *)
Variable Hash : bytes -> Z -> Z.

Definition BloomHash (key : bytes) : Z := wrap32 (Hash key 0xbc9f1d34).

Record BloomFilterPolicy := {
  bits_per_key_ : Z;   (* size_t *)
  k_ : Z               (* size_t *)
}.

(** The constructor.  [bits_per_key * 0.69] is a [double]; for an [int]
    [bits_per_key >= 0] its truncation is [bits_per_key * 69 / 100] clamped
    below: the exact product is a multiple of 1/100, so it is an integer
    only at multiples of 100, where k is already clamped to 30 (or is 0),
    and the rounding error of the product is far below 1/100. *)
Definition new_BloomFilterPolicy (bits_per_key : Z) : BloomFilterPolicy :=
  let k := Z.quot (bits_per_key * 69) 100 in
  let k := if k <? 1 then 1 else k in
  let k := if k >? 30 then 30 else k in
  {| bits_per_key_ := wrap64 bits_per_key; k_ := k |}.

(** [(h >> 17) | (h << 15)] on [uint32_t]. *)
Definition rotate_right_17 (h : Z) : Z :=
  Z.lor (Z.shiftr h 17) (wrap32 (Z.shiftl h 15)).

(** [array[bitpos/8] |= (1 << (bitpos % 8))] where [array] points at
    byte [init_size] of the destination.  The bytes written are the zero bytes [resize] added, so the value
    stays a byte. *)
Definition set_bit (init_size bitpos : Z) (dst : bytes) : bytes :=
  alter (fun c => Z.lor c (Z.shiftl 1 (bitpos mod 8)))
        (Z.to_nat (init_size + bitpos / 8)) dst.

(** The inner loop [for (size_t j = 0; j < k_; j++)] of CreateFilter, by
    the iterations that remain. *)
Fixpoint set_probes (j : nat) (h delta bits init_size : Z) (dst : bytes) : bytes :=
  match j with
  | O => dst
  | S j' =>
      let bitpos := wrap32 (h mod bits) in
      set_probes j' (wrap32 (h + delta)) delta bits init_size
                 (set_bit init_size bitpos dst)
  end.

(** One iteration of the outer loop [for (int i = 0; i < n; i++)]. *)
Definition add_key (p : BloomFilterPolicy) (bits init_size : Z)
           (dst : bytes) (key : bytes) : bytes :=
  let h := BloomHash key in
  let delta := rotate_right_17 h in
  set_probes (Z.to_nat (k_ p)) h delta bits init_size dst.

Definition filter_bytes (p : BloomFilterPolicy) (n : Z) : Z :=
  let bits := wrap64 (wrap64 n * bits_per_key_ p) in
  let bits := if bits <? 64 then 64 else bits in
  wrap64 (bits + 7) / 8.

Definition CreateFilter (p : BloomFilterPolicy)
           (keys : list bytes) (n : Z) (dst : bytes) : bytes :=
  let nbytes := filter_bytes p n in
  let bits := wrap64 (nbytes * 8) in
  let init_size := size dst in
  let dst := dst ++ replicate (Z.to_nat nbytes) 0 in
  let dst := dst ++ [k_ p mod 256] in
  fold_left (add_key p bits init_size) (take (Z.to_nat n) keys) dst.

(** The loop of KeyMayMatch, by the iterations that remain. *)
Fixpoint probe (j : nat) (h delta bits : Z) (array : bytes) : bool :=
  match j with
  | O => true
  | S j' =>
      let bitpos := wrap32 (h mod bits) in
      if Z.land (array !!! Z.to_nat (bitpos / 8)) (Z.shiftl 1 (bitpos mod 8)) =? 0
      then false
      else probe j' (wrap32 (h + delta)) delta bits array
  end.

(** [k = array[len-1]] converts a [char] to [size_t]: a byte above 127
    becomes either itself or a huge value, above 30 both ways. *)
Definition KeyMayMatch (key bloom_filter : bytes) : bool :=
  let len := size bloom_filter in
  if len <? 2 then false
  else
    let bits := wrap64 ((len - 1) * 8) in
    let k := bloom_filter !!! Z.to_nat (len - 1) in
    if k >? 30 then true
    else
      let h := BloomHash key in
      let delta := rotate_right_17 h in
      probe (Z.to_nat k) h delta bits bloom_filter.

Definition NewBloomFilterPolicy (bits_per_key : Z) : FilterPolicy.t :=
  let p := new_BloomFilterPolicy bits_per_key in
  {| FilterPolicy.Name := bytes_of_string "leveldb.BuiltinBloomFilter2";
     FilterPolicy.CreateFilter := CreateFilter p;
     FilterPolicy.KeyMayMatch := KeyMayMatch |}.

End WithHash.
End Bloom.

(** ** Integer codecs (util/coding.h)

    Modelled from the spec: util/coding.cc is not among the sources.  Fixed
    width integers are little-endian; a varint carries 7 bits per byte, low
    group first, with the top bit set on every byte but the last (at most 5
    bytes for 32 bits, 10 for 64). *)
Module Coding.

Definition EncodeFixed32 (value : Z) : bytes :=
  [ value mod 256; (value / 2 ^ 8) mod 256;
    (value / 2 ^ 16) mod 256; (value / 2 ^ 24) mod 256 ].

Definition PutFixed32 (dst : bytes) (value : Z) : bytes :=
  dst ++ EncodeFixed32 value.

(** [DecodeFixed32(s.data() + pos)]; each [char] is read as unsigned. *)
Definition DecodeFixed32 (s : bytes) (pos : Z) : Z :=
  let b i := (s !!! Z.to_nat (pos + i)) mod 256 in
  b 0 + b 1 * 2 ^ 8 + b 2 * 2 ^ 16 + b 3 * 2 ^ 24.

Fixpoint EncodeVarint (max_bytes : nat) (v : Z) : bytes :=
  match max_bytes with
  | O => []
  | S m => if v <? 128 then [v]
           else (v mod 128 + 128) :: EncodeVarint m (v / 128)
  end.

Definition PutVarint32 (dst : bytes) (v : Z) : bytes :=
  dst ++ EncodeVarint 5 (wrap32 v).

Definition PutVarint64 (dst : bytes) (v : Z) : bytes :=
  dst ++ EncodeVarint 10 (wrap64 v).

End Coding.

(** ** Block handles and the footer (table/format.h)

    Modelled from the spec: table/format.cc is not among the sources.  A
    handle is two varint64s; the footer is the two handles, zero padding up
    to 40 bytes and the 8 magic bytes, low word first. *)
Module BlockHandle.
Record t := { offset_ : Z; size_ : Z }.

(** A handle that was never set holds all-ones in both fields. *)
Definition new : t := {| offset_ := 2 ^ 64 - 1; size_ := 2 ^ 64 - 1 |}.

Definition EncodeTo (h : t) (dst : bytes) : bytes :=
  Coding.PutVarint64 (Coding.PutVarint64 dst (offset_ h)) (size_ h).
End BlockHandle.

Module Footer.
Definition kTableMagicNumber : Z := 0xdb4775248b80fb57.

Record t := { metaindex_handle_ : BlockHandle.t; index_handle_ : BlockHandle.t }.

Definition EncodeTo (f : t) (dst : bytes) : bytes :=
  let dst := BlockHandle.EncodeTo (metaindex_handle_ f) dst in
  let dst := BlockHandle.EncodeTo (index_handle_ f) dst in
  let dst := take 40 (dst ++ replicate 40 0) in
  let dst := Coding.PutFixed32 dst (kTableMagicNumber mod 2 ^ 32) in
  Coding.PutFixed32 dst (kTableMagicNumber / 2 ^ 32).
End Footer.

(** ** table/block_builder.h and BlockBuilder::Add *)
Module BlockBuilder.

(** The builder reads [options_->block_restart_interval] through a
    pointer into its owner's options; the owner passes the current value
    to [Add]. *)
Record t := {
  buffer_ : bytes;
  restarts_ : list Z;     (* std::vector<uint32_t> *)
  counter_ : Z;           (* int *)
  finished_ : bool;
  last_key_ : bytes
}.

(** Modelled from the spec: the constructor and [Reset] are declared in
    block_builder.h but defined in block_builder.cc, which is not among the
    sources: empty buffer, restarts [0], counter 0, no last key, not
    finished. *)
Definition new : t :=
  {| buffer_ := []; restarts_ := [0]; counter_ := 0;
     finished_ := false; last_key_ := [] |}.

Definition Reset (b : t) : t := new.

Definition empty (b : t) : bool :=
  match buffer_ b with [] => true | _ => false end.

(** The loop
    [while ((shared < min_length) && (last_key_piece[shared] == key[shared])) shared++]. *)
Fixpoint shared_prefix (last_key_piece key : bytes) : Z :=
  match last_key_piece, key with
  | x :: l, y :: k => if x =? y then 1 + shared_prefix l k else 0
  | _, _ => 0
  end.

Definition Add (block_restart_interval : Z) (key value : bytes) (b : t) : t :=
  let last_key_piece := last_key_ b in
  let '(shared, restarts, counter) :=
    if counter_ b <? block_restart_interval
    then (shared_prefix last_key_piece key, restarts_ b, counter_ b)
    else (0, restarts_ b ++ [wrap32 (size (buffer_ b))], 0) in
  let non_shared := size key - shared in
  let buffer := Coding.PutVarint32 (buffer_ b) shared in
  let buffer := Coding.PutVarint32 buffer non_shared in
  let buffer := Coding.PutVarint32 buffer (size value) in
  let buffer := buffer ++ slice key shared non_shared in
  let buffer := buffer ++ value in
  let last_key := take (Z.to_nat shared) (last_key_ b) in
  let last_key := last_key ++ slice key shared non_shared in
  {| buffer_ := buffer; restarts_ := restarts; counter_ := counter + 1;
     finished_ := finished_ b; last_key_ := last_key |}.

(** Modelled from the spec: [Finish] appends every restart as a fixed32,
    then the number of restarts, and marks the builder finished; the
    returned slice is [buffer_]. *)
Definition Finish (b : t) : t :=
  let buffer := fold_left Coding.PutFixed32 (restarts_ b) (buffer_ b) in
  let buffer := Coding.PutFixed32 buffer (wrap32 (size (restarts_ b))) in
  {| buffer_ := buffer; restarts_ := restarts_ b; counter_ := counter_ b;
     finished_ := true; last_key_ := last_key_ b |}.

(** Modelled from the spec: buffer length plus 4 bytes per restart and 4
    for the restart count. *)
Definition CurrentSizeEstimate (b : t) : Z :=
  size (buffer_ b) + size (restarts_ b) * 4 + 4.

End BlockBuilder.

(** ** table/filter_block.cc: the builder *)
Module FilterBlockBuilder.

Definition kFilterBaseLg : Z := 11.
Definition kFilterBase : Z := Z.shiftl 1 kFilterBaseLg.

Record t := {
  policy_ : FilterPolicy.t;
  keys_ : bytes;                (* flattened key contents *)
  start_ : list Z;              (* std::vector<size_t> *)
  result_ : bytes;              (* filter data computed so far *)
  tmp_keys_ : list bytes;       (* CreateFilter argument *)
  filter_offsets_ : list Z      (* std::vector<uint32_t> *)
}.

Definition new (policy : FilterPolicy.t) : t :=
  {| policy_ := policy; keys_ := []; start_ := []; result_ := [];
     tmp_keys_ := []; filter_offsets_ := [] |}.

Definition AddKey (key : bytes) (b : t) : t :=
  {| policy_ := policy_ b;
     keys_ := keys_ b ++ key;
     start_ := start_ b ++ [size (keys_ b)];
     result_ := result_ b; tmp_keys_ := tmp_keys_ b;
     filter_offsets_ := filter_offsets_ b |}.

Definition GenerateFilter (b : t) : t :=
  let num_keys := size (start_ b) in
  if num_keys =? 0 then
    {| policy_ := policy_ b; keys_ := keys_ b; start_ := start_ b;
       result_ := result_ b; tmp_keys_ := tmp_keys_ b;
       filter_offsets_ := filter_offsets_ b ++ [wrap32 (size (result_ b))] |}
  else
    let start := start_ b ++ [size (keys_ b)] in
    let tmp_keys :=
      map (fun i : nat =>
             let base := start !!! i in
             let length := start !!! S i - start !!! i in
             slice (keys_ b) base length)
          (seq 0 (Z.to_nat num_keys)) in
    let filter_offsets := filter_offsets_ b ++ [wrap32 (size (result_ b))] in
    let result :=
      FilterPolicy.CreateFilter (policy_ b) tmp_keys (to_int32 num_keys) (result_ b) in
    {| policy_ := policy_ b; keys_ := []; start_ := []; result_ := result;
       tmp_keys_ := []; filter_offsets_ := filter_offsets |}.

(** [while (filter_index > filter_offsets_.size()) GenerateFilter();]
    Every call adds one offset, so [filter_index] iterations are enough
    for the loop to reach its exit test (lemma [StartBlock_exit]). *)
Fixpoint StartBlock_loop (fuel : nat) (filter_index : Z) (b : t) : t :=
  match fuel with
  | O => b
  | S fuel' =>
      if filter_index >? size (filter_offsets_ b)
      then StartBlock_loop fuel' filter_index (GenerateFilter b)
      else b
  end.

Definition StartBlock (block_offset : Z) (b : t) : t :=
  let filter_index := block_offset / kFilterBase in
  StartBlock_loop (Z.to_nat filter_index) filter_index b.

(** [Finish] returns [Slice(result_)]: the contents are [result_] of the
    builder it leaves. *)
Definition Finish (b : t) : t :=
  let b := match start_ b with [] => b | _ => GenerateFilter b end in
  let array_offset := wrap32 (size (result_ b)) in
  let result := fold_left Coding.PutFixed32 (filter_offsets_ b) (result_ b) in
  let result := Coding.PutFixed32 result array_offset in
  let result := result ++ [kFilterBaseLg] in
  {| policy_ := policy_ b; keys_ := keys_ b; start_ := start_ b;
     result_ := result; tmp_keys_ := tmp_keys_ b;
     filter_offsets_ := filter_offsets_ b |}.

End FilterBlockBuilder.

(** ** table/filter_block.cc: the reader *)
Module FilterBlockReader.
Section WithShift.

(** [block_offset >> base_lg_] is defined by C++ only for a shift count
    below 64; [base_lg_] comes from the block, so for larger counts the
    result is left to the platform: some 64-bit value. *)
Variable shift_out_of_range : Z -> Z -> Z.

(** [data_] holds the bytes [data_] points at (none when it is NULL) and
    [offset_] is the position [offset_ - data_] of the offset array. *)
Record t := {
  policy_ : FilterPolicy.t;
  data_ : bytes;
  offset_ : Z;
  num_ : Z;       (* size_t *)
  base_lg_ : Z    (* size_t *)
}.

Definition new (policy : FilterPolicy.t) (contents : bytes) : t :=
  let n := size contents in
  if n <? 5 then
    {| policy_ := policy; data_ := []; offset_ := 0; num_ := 0; base_lg_ := 0 |}
  else
    let base_lg := contents !!! Z.to_nat (n - 1) in
    let last_word := Coding.DecodeFixed32 contents (n - 5) in
    if last_word >? n - 5 then
      {| policy_ := policy; data_ := []; offset_ := 0; num_ := 0;
         base_lg_ := base_lg |}
    else
      {| policy_ := policy; data_ := contents; offset_ := last_word;
         num_ := (n - 5 - last_word) / 4; base_lg_ := base_lg |}.

Definition window_index (r : t) (block_offset : Z) : Z :=
  if (0 <=? base_lg_ r) && (base_lg_ r <? 64)
  then Z.shiftr block_offset (base_lg_ r)
  else wrap64 (shift_out_of_range block_offset (base_lg_ r)).

Definition KeyMayMatch (r : t) (block_offset : Z) (key : bytes) : bool :=
  let index := window_index r block_offset in
  if index <? num_ r then
    let start := Coding.DecodeFixed32 (data_ r) (offset_ r + index * 4) in
    let limit := Coding.DecodeFixed32 (data_ r) (offset_ r + index * 4 + 4) in
    if (start <=? limit) && (limit <=? offset_ r) then
      let filter := slice (data_ r) start (limit - start) in
      FilterPolicy.KeyMayMatch (policy_ r) key filter
    else if start =? limit then
      false
    else true
  else true.

End WithShift.
End FilterBlockReader.

(** ** The file sink (leveldb/env.h)

    [appended] is every byte handed to [Append] so far; [results] is what
    the coming calls of [Append] and [Flush] will return, in order ([OK] once
    it is exhausted).  A sink without errors has an all-[OK] list. *)
Inductive Status := OK | IOError.

Definition ok (s : Status) : bool :=
  match s with OK => true | IOError => false end.

Module WritableFile.
Record t := { appended : bytes; results : list Status }.

Definition Append (data : bytes) (f : t) : t * Status :=
  match results f with
  | [] => ({| appended := appended f ++ data; results := [] |}, OK)
  | s :: rest => ({| appended := appended f ++ data; results := rest |}, s)
  end.

Definition Flush (f : t) : t * Status :=
  match results f with
  | [] => (f, OK)
  | s :: rest => ({| appended := appended f; results := rest |}, s)
  end.
End WritableFile.

(** ** leveldb/comparator.h and leveldb/options.h: what the builder uses *)
Record Comparator := {
  Compare : bytes -> bytes -> Z;
  FindShortestSeparator : bytes -> bytes -> bytes;   (* new value of [*start] *)
  FindShortSuccessor : bytes -> bytes                (* new value of [*key] *)
}.

Inductive CompressionType := kNoCompression | kSnappyCompression.

Definition CompressionType_byte (t : CompressionType) : Z :=
  match t with kNoCompression => 0 | kSnappyCompression => 1 end.

Record Options := {
  comparator : Comparator;
  block_size : Z;                 (* size_t *)
  block_restart_interval : Z;     (* int *)
  compression : CompressionType;
  filter_policy : option FilterPolicy.t
}.

(** ** table/table_builder.cc *)
Module TableBuilder.

Record Rep := {
  options : Options;
  index_block_options : Options;
  file : WritableFile.t;
  offset : Z;                   (* uint64_t *)
  status : Status;
  data_block : BlockBuilder.t;
  index_block : BlockBuilder.t;
  last_key : bytes;
  num_entries : Z;
  closed : bool;
  filter_block : option FilterBlockBuilder.t;
  pending_index_entry : bool;
  pending_handle : BlockHandle.t
}.

Definition set_file (v : WritableFile.t) (r : Rep) : Rep :=
  {| options := options r; index_block_options := index_block_options r; file := v;
     offset := offset r; status := status r; data_block := data_block r;
     index_block := index_block r; last_key := last_key r; num_entries := num_entries r;
     closed := closed r; filter_block := filter_block r; pending_index_entry := pending_index_entry r;
     pending_handle := pending_handle r |}.

Definition set_offset (v : Z) (r : Rep) : Rep :=
  {| options := options r; index_block_options := index_block_options r; file := file r;
     offset := v; status := status r; data_block := data_block r;
     index_block := index_block r; last_key := last_key r; num_entries := num_entries r;
     closed := closed r; filter_block := filter_block r; pending_index_entry := pending_index_entry r;
     pending_handle := pending_handle r |}.

Definition set_status (v : Status) (r : Rep) : Rep :=
  {| options := options r; index_block_options := index_block_options r; file := file r;
     offset := offset r; status := v; data_block := data_block r;
     index_block := index_block r; last_key := last_key r; num_entries := num_entries r;
     closed := closed r; filter_block := filter_block r; pending_index_entry := pending_index_entry r;
     pending_handle := pending_handle r |}.

Definition set_data_block (v : BlockBuilder.t) (r : Rep) : Rep :=
  {| options := options r; index_block_options := index_block_options r; file := file r;
     offset := offset r; status := status r; data_block := v;
     index_block := index_block r; last_key := last_key r; num_entries := num_entries r;
     closed := closed r; filter_block := filter_block r; pending_index_entry := pending_index_entry r;
     pending_handle := pending_handle r |}.

Definition set_index_block (v : BlockBuilder.t) (r : Rep) : Rep :=
  {| options := options r; index_block_options := index_block_options r; file := file r;
     offset := offset r; status := status r; data_block := data_block r;
     index_block := v; last_key := last_key r; num_entries := num_entries r;
     closed := closed r; filter_block := filter_block r; pending_index_entry := pending_index_entry r;
     pending_handle := pending_handle r |}.

Definition set_last_key (v : bytes) (r : Rep) : Rep :=
  {| options := options r; index_block_options := index_block_options r; file := file r;
     offset := offset r; status := status r; data_block := data_block r;
     index_block := index_block r; last_key := v; num_entries := num_entries r;
     closed := closed r; filter_block := filter_block r; pending_index_entry := pending_index_entry r;
     pending_handle := pending_handle r |}.

Definition set_num_entries (v : Z) (r : Rep) : Rep :=
  {| options := options r; index_block_options := index_block_options r; file := file r;
     offset := offset r; status := status r; data_block := data_block r;
     index_block := index_block r; last_key := last_key r; num_entries := v;
     closed := closed r; filter_block := filter_block r; pending_index_entry := pending_index_entry r;
     pending_handle := pending_handle r |}.

Definition set_closed (v : bool) (r : Rep) : Rep :=
  {| options := options r; index_block_options := index_block_options r; file := file r;
     offset := offset r; status := status r; data_block := data_block r;
     index_block := index_block r; last_key := last_key r; num_entries := num_entries r;
     closed := v; filter_block := filter_block r; pending_index_entry := pending_index_entry r;
     pending_handle := pending_handle r |}.

Definition set_filter_block (v : option FilterBlockBuilder.t) (r : Rep) : Rep :=
  {| options := options r; index_block_options := index_block_options r; file := file r;
     offset := offset r; status := status r; data_block := data_block r;
     index_block := index_block r; last_key := last_key r; num_entries := num_entries r;
     closed := closed r; filter_block := v; pending_index_entry := pending_index_entry r;
     pending_handle := pending_handle r |}.

Definition set_pending_index_entry (v : bool) (r : Rep) : Rep :=
  {| options := options r; index_block_options := index_block_options r; file := file r;
     offset := offset r; status := status r; data_block := data_block r;
     index_block := index_block r; last_key := last_key r; num_entries := num_entries r;
     closed := closed r; filter_block := filter_block r; pending_index_entry := v;
     pending_handle := pending_handle r |}.

Definition set_pending_handle (v : BlockHandle.t) (r : Rep) : Rep :=
  {| options := options r; index_block_options := index_block_options r; file := file r;
     offset := offset r; status := status r; data_block := data_block r;
     index_block := index_block r; last_key := last_key r; num_entries := num_entries r;
     closed := closed r; filter_block := filter_block r; pending_index_entry := pending_index_entry r;
     pending_handle := v |}.

Definition kBlockTrailerSize : Z := 5.

(** Modelled from the spec: [crc32c::Mask] of util/crc32c.h rotates right
    by 15 bits and adds a constant. *)
Definition Mask (crc : Z) : Z :=
  wrap32 (Z.lor (Z.shiftr crc 15) (wrap32 (Z.shiftl crc 17)) + 0xa282ead8).

Section WithPort.

(** [crc32c::Value], [crc32c::Extend] and [port::Snappy_Compress] are not
    among the sources; the compressor returns its output when it
    succeeds. *)
Variable crc32c_Value : bytes -> Z.
Variable crc32c_Extend : Z -> bytes -> Z.
Variable Snappy_Compress : bytes -> option bytes.

Definition new_Rep (opt : Options) (f : WritableFile.t) : Rep :=
  {| options := opt;
     index_block_options :=
       {| comparator := comparator opt; block_size := block_size opt;
          block_restart_interval := 1; compression := compression opt;
          filter_policy := filter_policy opt |};
     file := f; offset := 0; status := OK;
     data_block := BlockBuilder.new; index_block := BlockBuilder.new;
     last_key := []; num_entries := 0; closed := false;
     filter_block :=
       match filter_policy opt with
       | None => None
       | Some policy => Some (FilterBlockBuilder.new policy)
       end;
     pending_index_entry := false; pending_handle := BlockHandle.new |}.

Definition new (opt : Options) (f : WritableFile.t) : Rep :=
  let r := new_Rep opt f in
  match filter_block r with
  | Some fb => set_filter_block (Some (FilterBlockBuilder.StartBlock 0 fb)) r
  | None => r
  end.

Definition WriteRawBlock (block_contents : bytes) (type : CompressionType)
           (r : Rep) : Rep * BlockHandle.t :=
  let handle :=
    {| BlockHandle.offset_ := offset r;
       BlockHandle.size_ := size block_contents |} in
  let '(f, s) := WritableFile.Append block_contents (file r) in
  let r := set_status s (set_file f r) in
  if ok (status r) then
    let trailer0 := [CompressionType_byte type] in
    let crc := crc32c_Value block_contents in
    let crc := crc32c_Extend crc trailer0 in
    let trailer := trailer0 ++ Coding.EncodeFixed32 (Mask crc) in
    let '(f, s) := WritableFile.Append trailer (file r) in
    let r := set_status s (set_file f r) in
    if ok (status r) then
      (set_offset (wrap64 (offset r + (size block_contents + kBlockTrailerSize))) r,
       handle)
    else (r, handle)
  else (r, handle).

(** [block] is the builder the pointer names; the reset builder is
    returned for the caller to store where the pointer pointed. *)
Definition WriteBlock (block : BlockBuilder.t) (r : Rep)
  : Rep * BlockHandle.t * BlockBuilder.t :=
  let block := BlockBuilder.Finish block in
  let raw := BlockBuilder.buffer_ block in
  let '(block_contents, type) :=
    match compression (options r) with
    | kNoCompression => (raw, kNoCompression)
    | kSnappyCompression =>
        match Snappy_Compress raw with
        | Some compressed =>
            if size compressed <? size raw - size raw / 8
            then (compressed, kSnappyCompression)
            else (raw, kNoCompression)
        | None => (raw, kNoCompression)
        end
    end in
  let '(r, handle) := WriteRawBlock block_contents type r in
  (r, handle, BlockBuilder.Reset block).

Definition Flush (r : Rep) : Rep :=
  if negb (ok (status r)) then r
  else if BlockBuilder.empty (data_block r) then r
  else
    let '(r, handle, block) := WriteBlock (data_block r) r in
    let r := set_pending_handle handle (set_data_block block r) in
    let r :=
      if ok (status r) then
        let r := set_pending_index_entry true r in
        let '(f, s) := WritableFile.Flush (file r) in
        set_status s (set_file f r)
      else r in
    match filter_block r with
    | Some fb =>
        set_filter_block (Some (FilterBlockBuilder.StartBlock (offset r) fb)) r
    | None => r
    end.

Definition Add (key value : bytes) (r : Rep) : Rep :=
  if negb (ok (status r)) then r
  else
    let r :=
      if pending_index_entry r then
        let r :=
          set_last_key
            (FindShortestSeparator (comparator (options r)) (last_key r) key) r in
        let handle_encoding := BlockHandle.EncodeTo (pending_handle r) [] in
        let r :=
          set_index_block
            (BlockBuilder.Add (block_restart_interval (index_block_options r))
                              (last_key r) handle_encoding (index_block r)) r in
        set_pending_index_entry false r
      else r in
    let r :=
      match filter_block r with
      | Some fb => set_filter_block (Some (FilterBlockBuilder.AddKey key fb)) r
      | None => r
      end in
    let r := set_last_key key r in
    let r := set_num_entries (num_entries r + 1) r in
    let r :=
      set_data_block
        (BlockBuilder.Add (block_restart_interval (options r))
                          key value (data_block r)) r in
    let estimated_block_size := BlockBuilder.CurrentSizeEstimate (data_block r) in
    if estimated_block_size >=? block_size (options r) then Flush r else r.

(** [Finish] returns [r->status]: the status of the state it leaves.
    [filter_block] is set only when [options.filter_policy] is. *)
Definition Finish (r : Rep) : Rep :=
  let r := Flush r in
  let r := set_closed true r in
  let '(r, filter_block_handle) :=
    match filter_block r with
    | Some fb =>
        if ok (status r) then
          let fb := FilterBlockBuilder.Finish fb in
          WriteRawBlock (FilterBlockBuilder.result_ fb) kNoCompression
                        (set_filter_block (Some fb) r)
        else (r, BlockHandle.new)
    | None => (r, BlockHandle.new)
    end in
  let '(r, metaindex_block_handle) :=
    if ok (status r) then
      let meta_index_block := BlockBuilder.new in
      let meta_index_block :=
        match filter_block r with
        | Some _ =>
            let name :=
              match filter_policy (options r) with
              | Some policy => FilterPolicy.Name policy
              | None => []
              end in
            let key := bytes_of_string "filter." ++ name in
            let handle_encoding := BlockHandle.EncodeTo filter_block_handle [] in
            BlockBuilder.Add (block_restart_interval (options r))
                             key handle_encoding meta_index_block
        | None => meta_index_block
        end in
      let '(r, handle, _) := WriteBlock meta_index_block r in
      (r, handle)
    else (r, BlockHandle.new) in
  let '(r, index_block_handle) :=
    if ok (status r) then
      let r :=
        if pending_index_entry r then
          let r :=
            set_last_key
              (FindShortSuccessor (comparator (options r)) (last_key r)) r in
          let handle_encoding := BlockHandle.EncodeTo (pending_handle r) [] in
          let r :=
            set_index_block
              (BlockBuilder.Add (block_restart_interval (index_block_options r))
                                (last_key r) handle_encoding (index_block r)) r in
          set_pending_index_entry false r
        else r in
      let '(r, handle, block) := WriteBlock (index_block r) r in
      (set_index_block block r, handle)
    else (r, BlockHandle.new) in
  if ok (status r) then
    let footer :=
      {| Footer.metaindex_handle_ := metaindex_block_handle;
         Footer.index_handle_ := index_block_handle |} in
    let footer_encoding := Footer.EncodeTo footer [] in
    let '(f, s) := WritableFile.Append footer_encoding (file r) in
    let r := set_status s (set_file f r) in
    if ok (status r)
    then set_offset (wrap64 (offset r + size footer_encoding)) r
    else r
  else r.

Definition Abandon (r : Rep) : Rep := set_closed true r.

Definition NumEntries (r : Rep) : Z := num_entries r.

Definition FileSize (r : Rep) : Z := offset r.

(** A build is a sequence of [Add] and [Flush] calls on a new builder,
    closed by [Finish]. *)
Inductive call := CallAdd (key value : bytes) | CallFlush.

Definition do_call (r : Rep) (c : call) : Rep :=
  match c with
  | CallAdd key value => Add key value r
  | CallFlush => Flush r
  end.

Definition run (calls : list call) (r : Rep) : Rep := fold_left do_call calls r.

End WithPort.
End TableBuilder.

(** ** Vocabulary of the statements *)

(** The contract of leveldb/filter_policy.h: CreateFilter appends to [*dst]
    and leaves its initial contents alone, and KeyMayMatch returns true on
    what was appended for every key of the list ([n] is an [int]). *)
Class LawfulPolicy (P : FilterPolicy.t) : Prop :=
  create_then_match :
    forall (keys : list (list Z)) (dst : list Z),
      size keys < 2 ^ 31 ->
      exists filter : list Z,
        FilterPolicy.CreateFilter P keys (size keys) dst = dst ++ filter
        /\ forall key, key ∈ keys -> FilterPolicy.KeyMayMatch P key filter = true.

Module BloomView.

(** The bit at position [pos] of a byte array. *)
Definition bit_set (array : list Z) (pos : Z) : Prop :=
  Z.testbit (array !!! Z.to_nat (pos / 8)) (pos mod 8) = true.

(** The positions CreateFilter sets and KeyMayMatch reads for one key:
    the same sequence on both sides. *)
Fixpoint probe_positions (j : nat) (h delta bits : Z) : list Z :=
  match j with
  | O => []
  | S j' => wrap32 (h mod bits) :: probe_positions j' (wrap32 (h + delta)) delta bits
  end.

Definition key_positions (Hash : list Z -> Z -> Z)
           (p : Bloom.BloomFilterPolicy) (bits : Z) (key : list Z) : list Z :=
  let h := Bloom.BloomHash Hash key in
  probe_positions (Z.to_nat (Bloom.k_ p)) h (Bloom.rotate_right_17 h) bits.

End BloomView.

Module FilterBlockView.

(** Start offsets of consecutive strings laid out from [base]. *)
Fixpoint starts_from (base : Z) (parts : list (list Z)) : list Z :=
  match parts with
  | [] => []
  | p :: rest => base :: starts_from (base + size p) rest
  end.

(** The boundaries of the layout: every start, then the end. *)
Definition bounds (base : Z) (parts : list (list Z)) : list Z :=
  starts_from base parts ++ [base + size (concat parts)].

Definition encode_words (ws : list Z) : list Z :=
  concat (map Coding.EncodeFixed32 ws).

(** The builder holds the emitted [filters] and the [pending] keys. *)
Definition represents (b : FilterBlockBuilder.t)
           (filters pending : list (list Z)) : Prop :=
  FilterBlockBuilder.result_ b = concat filters
  /\ FilterBlockBuilder.filter_offsets_ b = map wrap32 (starts_from 0 filters)
  /\ FilterBlockBuilder.keys_ b = concat pending
  /\ FilterBlockBuilder.start_ b = starts_from 0 pending.

(** The bytes [Finish] leaves for a list of filters. *)
Definition contents_of (filters : list (list Z)) : list Z :=
  concat filters
  ++ encode_words (map wrap32 (starts_from 0 filters))
  ++ Coding.EncodeFixed32 (wrap32 (size (concat filters)))
  ++ [FilterBlockBuilder.kFilterBaseLg].

(** Every recorded pair (offset of a data block, key added to it) is
    either answered by the filter of the block's window, or still pending
    for the window being filled. *)
Definition covered (P : FilterPolicy.t) (filters pending : list (list Z))
           (H : list (Z * list Z)) : Prop :=
  forall block_offset key, (block_offset, key) ∈ H ->
    0 <= block_offset
    /\ ((exists f, filters !! Z.to_nat (block_offset / FilterBlockBuilder.kFilterBase) = Some f
                   /\ FilterPolicy.KeyMayMatch P key f = true)
        \/ (block_offset / FilterBlockBuilder.kFilterBase = size filters
            /\ key ∈ pending)).

(** The filters at the recorded windows are the recorded ones. *)
Definition pinned (filters : list (list Z)) (E : list (Z * list Z)) : Prop :=
  forall window f, (window, f) ∈ E ->
    0 <= window /\ filters !! Z.to_nat window = Some f.

Definition invariant (P : FilterPolicy.t) (b : FilterBlockBuilder.t)
           (M n : Z) (H E : list (Z * list Z)) : Prop :=
  exists filters pending,
    FilterBlockBuilder.policy_ b = P
    /\ represents b filters pending
    /\ size filters = M
    /\ size pending <= n
    /\ covered P filters pending H
    /\ pinned filters E.

End FilterBlockView.

Module TableBuilderView.
Import TableBuilder.

(** Bytes handed to the sink since the builder was created on a sink
    that had already taken [base] bytes. *)
Definition written (base : Z) (r : Rep) : Z :=
  size (WritableFile.appended (file r)) - base.

(** No error so far and none to come, and [offset] counts the bytes
    written (as a [uint64_t]). *)
Definition io_ok (base : Z) (r : Rep) : Prop :=
  status r = OK
  /\ Forall (eq OK) (WritableFile.results (file r))
  /\ 0 <= written base r
  /\ offset r = wrap64 (written base r).

(** The trailer WriteRawBlock appends to a block. *)
Definition trailer (crc32c_Value : list Z -> Z) (crc32c_Extend : Z -> list Z -> Z)
           (block_contents : list Z) (type : CompressionType) : list Z :=
  [CompressionType_byte type]
  ++ Coding.EncodeFixed32
       (Mask (crc32c_Extend (crc32c_Value block_contents)
                            [CompressionType_byte type])).

(** Projections of updated builder states. *)
Ltac simpl_rep :=
  cbn [options index_block_options file offset status data_block index_block
       last_key num_entries closed filter_block pending_index_entry
       pending_handle set_file set_offset set_status set_data_block
       set_index_block set_last_key set_num_entries set_closed
       set_filter_block set_pending_index_entry set_pending_handle] in *.

(** The filter block builder is in step with the file offset. *)
Definition filter_ok (P : FilterPolicy.t) (r : Rep) (n : Z)
           (H E : list (Z * list Z)) : Prop :=
  exists fb,
    filter_block r = Some fb
    /\ FilterBlockView.invariant P fb (offset r / FilterBlockBuilder.kFilterBase)
                                 n H E.

(** The invariant stated in the Rep struct. *)
Definition pending_invariant (r : Rep) : Prop :=
  pending_index_entry r = true -> BlockBuilder.empty (data_block r) = true.

End TableBuilderView.

Module ClaimView.
Import TableBuilder.

(** The bytes of the filter block a builder state holds (what the slice
    returned by the filter builder's Finish refers to). *)
Definition filter_contents (r : Rep) : list Z :=
  match filter_block r with
  | Some fb => FilterBlockBuilder.result_ fb
  | None => []
  end.

(** Number of filter segments emitted so far. *)
Definition segments (r : Rep) : Z :=
  match filter_block r with
  | Some fb => size (FilterBlockBuilder.filter_offsets_ fb)
  | None => 0
  end.

Definition ceil_div (a b : Z) : Z := (a + b - 1) / b.

(** A filter builder exists and has emitted one segment per window
    below the file offset. *)
Definition in_step (r : Rep) : Prop :=
  segments r = offset r / FilterBlockBuilder.kFilterBase
  /\ is_Some (filter_block r).

(** One entry of a data block:
    shared | non_shared | value_len | key suffix | value. *)
Definition entry (shared : Z) (key_suffix value : list Z) : list Z :=
  Coding.EncodeVarint 5 (wrap32 shared)
  ++ Coding.EncodeVarint 5 (wrap32 (size key_suffix))
  ++ Coding.EncodeVarint 5 (wrap32 (size value))
  ++ key_suffix ++ value.

End ClaimView.

(** ** Concrete collaborators, for the examples *)
Module Example.

(** A 32-bit hash standing in for util/hash.cc. *)
Definition Hash (data : list Z) (seed : Z) : Z :=
  fold_left (fun h b => wrap32 ((h + b) * 0xc6a4a793)) data (wrap32 seed).

(** Checksums standing in for util/crc32c.cc. *)
Definition crc32c_Extend (crc : Z) (data : list Z) : Z :=
  fold_left (fun c b => wrap32 (c * 31 + b)) data crc.
Definition crc32c_Value (data : list Z) : Z := crc32c_Extend 0 data.

(** A build without snappy: the port's Snappy_Compress returns false. *)
Definition no_snappy (raw : list Z) : option (list Z) := None.

(** A compressor whose output is exactly one eighth shorter. *)
Definition one_eighth_shorter (raw : list Z) : option (list Z) :=
  Some (take (Z.to_nat (size raw - size raw / 8)) raw).

(** A platform on which an over-wide shift gives 0. *)
Definition shift_out_of_range (x count : Z) : Z := 0.

Fixpoint compare_bytes (a b : list Z) : Z :=
  match a, b with
  | [], [] => 0
  | [], _ :: _ => -1
  | _ :: _, [] => 1
  | x :: a', y :: b' =>
      if x <? y then -1 else if y <? x then 1 else compare_bytes a' b'
  end.

(** A bytewise comparator that never shortens a key. *)
Definition bytewise : Comparator :=
  {| Compare := compare_bytes;
     FindShortestSeparator := fun start limit => start;
     FindShortSuccessor := fun key => key |}.

Definition bloom : FilterPolicy.t := Bloom.NewBloomFilterPolicy Hash 10.

(** A bloom policy that answers "maybe" on a filter too short to hold a
    probe count, as the built-in one does on a probe count above 30. *)
Definition lenient_bloom : FilterPolicy.t :=
  {| FilterPolicy.Name := bytes_of_string "LenientBloom";
     FilterPolicy.CreateFilter :=
       Bloom.CreateFilter Hash (Bloom.new_BloomFilterPolicy 10);
     FilterPolicy.KeyMayMatch :=
       fun key filter =>
         if size filter <? 2 then true else Bloom.KeyMayMatch Hash key filter |}.

(** A policy that matches everything. *)
Definition match_all : FilterPolicy.t :=
  {| FilterPolicy.Name := bytes_of_string "MatchAll";
     FilterPolicy.CreateFilter := fun keys n dst => dst;
     FilterPolicy.KeyMayMatch := fun key filter => true |}.

Definition options : Options :=
  {| comparator := bytewise; block_size := 4096; block_restart_interval := 3;
     compression := kNoCompression; filter_policy := Some bloom |}.

Definition lenient_options : Options :=
  {| comparator := bytewise; block_size := 4096; block_restart_interval := 3;
     compression := kNoCompression; filter_policy := Some lenient_bloom |}.

Definition snappy_options : Options :=
  {| comparator := bytewise; block_size := 4096; block_restart_interval := 16;
     compression := kSnappyCompression; filter_policy := None |}.

Definition sink : WritableFile.t :=
  {| WritableFile.appended := []; WritableFile.results := [] |}.

Definition key_of (s : string) : list Z := bytes_of_string s.

(** Values of 2500 bytes: two entries fill a 4096-byte block, which then
    reaches over two filter windows. *)
Definition value_of (b : Z) : list Z := replicate 2500 b.

Definition calls : list TableBuilder.call :=
  [ TableBuilder.CallAdd (key_of "apple") (value_of 1);
    TableBuilder.CallAdd (key_of "banana") (value_of 2);
    TableBuilder.CallAdd (key_of "cherry") (value_of 3);
    TableBuilder.CallFlush;
    TableBuilder.CallAdd (key_of "damson") (value_of 4) ].

(** A filter block whose second offset entry is an empty filter lying
    beyond the start of the offset array: offsets 7 and 7, array at 0. *)
Definition stray_empty_filter : list Z :=
  Coding.EncodeFixed32 7 ++ Coding.EncodeFixed32 7
  ++ Coding.EncodeFixed32 0 ++ [FilterBlockBuilder.kFilterBaseLg].

End Example.

(** ** Call sequences of the filter block builder

    filter_block.h: the calls to a FilterBlockBuilder match
    (StartBlock AddKey* )* Finish. *)
Module FilterBlockCalls.

Inductive call := CallStartBlock (block_offset : Z) | CallAddKey (key : list Z).

Definition do_call (b : FilterBlockBuilder.t) (c : call) : FilterBlockBuilder.t :=
  match c with
  | CallStartBlock block_offset => FilterBlockBuilder.StartBlock block_offset b
  | CallAddKey key => FilterBlockBuilder.AddKey key b
  end.

Definition run (calls : list call) (b : FilterBlockBuilder.t) : FilterBlockBuilder.t :=
  fold_left do_call calls b.

(** [AddKey] for each key of a list, in order. *)
Definition add_keys (keys : list (list Z)) (b : FilterBlockBuilder.t)
  : FilterBlockBuilder.t :=
  fold_left (fun b key => FilterBlockBuilder.AddKey key b) keys b.

(** [assert(filter_index >= filter_offsets_.size())] at the head of
    StartBlock: what the assertion tests.  A caller has to make it true,
    as the table builder does (lemma [Flush_StartBlock_assertion]); the
    build without assertions goes on as [StartBlock] says. *)
Definition StartBlock_assertion (block_offset : Z) (b : FilterBlockBuilder.t) : bool :=
  let filter_index := block_offset / FilterBlockBuilder.kFilterBase in
  filter_index >=? size (FilterBlockBuilder.filter_offsets_ b).

(** What a policy that only appends adds to [dst] for a key list. *)
Definition appended_filter (P : FilterPolicy.t) (keys : list (list Z))
           (dst : list Z) : list Z :=
  drop (length dst) (FilterPolicy.CreateFilter P keys (size keys) dst).

End FilterBlockCalls.

(** ** Call sequences of the table builder *)
Module TableCalls.

(** The entries a sequence of calls adds, in order. *)
Definition added (calls : list TableBuilder.call) : list (list Z * list Z) :=
  flat_map (fun c => match c with
                     | TableBuilder.CallAdd key value => [(key, value)]
                     | TableBuilder.CallFlush => []
                     end) calls.

End TableCalls.

(** ** The layout of a table file

    The file is a sequence of blocks, each followed by its 5-byte trailer,
    and then the footer. *)
Module TableLayout.

Section WithCrc.

Variable crc32c_Value : list Z -> Z.
Variable crc32c_Extend : Z -> list Z -> Z.

(** A block as it lies in the file: the contents WriteRawBlock was given,
    then the trailer for them and their type. *)
Definition frame (block : list Z * CompressionType) : list Z :=
  fst block
  ++ TableBuilderView.trailer crc32c_Value crc32c_Extend (fst block) (snd block).

Definition frames (blocks : list (list Z * CompressionType)) : list Z :=
  concat (map frame blocks).

End WithCrc.

(** The bytes a list of blocks takes in the file: for each block its
    contents and the trailer. *)
Definition framed_size (blocks : list (list Z * CompressionType)) : Z :=
  fold_right (fun block acc => size (fst block) + TableBuilder.kBlockTrailerSize + acc)
             0 blocks.

End TableLayout.

(** ** Vocabulary for data blocks *)
Module BlockView.

(** [Add] for each (key, value) of a list, in order, with one restart
    interval. *)
Definition add_all (interval : Z) (kvs : list (list Z * list Z))
           (b : BlockBuilder.t) : BlockBuilder.t :=
  fold_left (fun b kv => BlockBuilder.Add interval (fst kv) (snd kv) b) kvs b.

(** The shared length [Add] chooses for a key. *)
Definition shared_of (interval : Z) (key : list Z) (b : BlockBuilder.t) : Z :=
  if BlockBuilder.counter_ b <? interval
  then BlockBuilder.shared_prefix (BlockBuilder.last_key_ b) key
  else 0.

(** The entries of a block by their position [i]: the entry at a multiple
    of the restart interval carries its whole key, every other one the part
    of its key after the longest prefix shared with the key before. *)
Fixpoint block_entries (interval i : Z) (prev : list Z)
         (kvs : list (list Z * list Z)) : list (list Z) :=
  match kvs with
  | [] => []
  | (key, value) :: rest =>
      let shared :=
        if i mod interval =? 0 then 0 else BlockBuilder.shared_prefix prev key in
      ClaimView.entry shared (drop (Z.to_nat shared) key) value
        :: block_entries interval (i + 1) key rest
  end.

(** Offsets of the entries at the multiples of the restart interval, for
    entries laid out from [pos]. *)
Fixpoint restart_points (interval i pos : Z) (entries : list (list Z)) : list Z :=
  match entries with
  | [] => []
  | e :: rest =>
      (if i mod interval =? 0 then [wrap32 pos] else [])
        ++ restart_points interval (i + 1) (pos + size e) rest
  end.

End BlockView.

(** ** Reading a block back (table/block.cc, as quoted in the reading notes)

    The notes quote [DecodeEntry], [Block::Iter::ParseNextKey] and the
    fields of [Block::Iter]; pointers into the block are offsets into
    [data_]. *)
Module Block.

(** Modelled from the spec: [GetVarint32Ptr] of util/coding.h is not among
    the sources.  A varint carries 7 bits per byte, low group first, with the
    top bit set on every byte but the last; at most 5 bytes are read for a
    32-bit value and none at or beyond [limit].  The result is the position
    after the varint and the value, or nothing (NULL). *)
Fixpoint GetVarint (max_bytes : nat) (s : list Z) (p limit : Z) : option (Z * Z) :=
  match max_bytes with
  | O => None
  | S m =>
      if p <? limit then
        let byte := (s !!! Z.to_nat p) mod 256 in
        if byte <? 128 then Some (p + 1, byte)
        else
          match GetVarint m s (p + 1) limit with
          | Some (p', v) => Some (p', byte - 128 + 128 * v)
          | None => None
          end
      else None
  end.

Definition GetVarint32Ptr (s : list Z) (p limit : Z) : option (Z * Z) :=
  match GetVarint 5 s p limit with
  | Some (p', v) => Some (p', wrap32 v)
  | None => None
  end.

(** [DecodeEntry(p, limit, &shared, &non_shared, &value_length)]: the
    pointer returned (nothing for NULL) with the three values stored. *)
Definition DecodeEntry (s : list Z) (p limit : Z) : option (Z * Z * Z * Z) :=
  if limit - p <? 3 then None
  else
    let shared := (s !!! Z.to_nat p) mod 256 in
    let non_shared := (s !!! Z.to_nat (p + 1)) mod 256 in
    let value_length := (s !!! Z.to_nat (p + 2)) mod 256 in
    let decoded :=
      if Z.lor (Z.lor shared non_shared) value_length <? 128 then
        (* Fast path: all three values are encoded in one byte each *)
        Some (p + 3, shared, non_shared, value_length)
      else
        match GetVarint32Ptr s p limit with
        | None => None
        | Some (p, shared) =>
            match GetVarint32Ptr s p limit with
            | None => None
            | Some (p, non_shared) =>
                match GetVarint32Ptr s p limit with
                | None => None
                | Some (p, value_length) =>
                    Some (p, shared, non_shared, value_length)
                end
            end
        end in
    match decoded with
    | None => None
    | Some (p, shared, non_shared, value_length) =>
        if wrap32 (limit - p) <? wrap32 (non_shared + value_length) then None
        else Some (p, shared, non_shared, value_length)
    end.

(** The fields of [Block::Iter] that ParseNextKey uses; [value_] is a
    slice of [data_], kept as its offset and its size. *)
Record Iter := {
  data_ : list Z;            (* underlying block contents *)
  restarts_ : Z;             (* uint32_t: offset of restart array *)
  num_restarts_ : Z;         (* uint32_t *)
  current_ : Z;              (* uint32_t: offset in data_ of current entry *)
  restart_index_ : Z;        (* uint32_t *)
  key_ : list Z;
  value_ : Z * Z
}.

(** Modelled from the spec: [NextEntryOffset] is not among the sources.
    The entries of a block lie back to back, so the next entry starts
    where the value of the current one ends. *)
Definition NextEntryOffset (it : Iter) : Z :=
  wrap32 (fst (value_ it) + snd (value_ it)).

(** Modelled from the spec: [GetRestartPoint] is not among the sources.
    restart[i] is the i-th little-endian u32 of the restart array, which
    starts at [restarts_]. *)
Definition GetRestartPoint (it : Iter) (index : Z) : Z :=
  Coding.DecodeFixed32 (data_ it) (restarts_ it + index * 4).

Definition set_restart_index (v : Z) (it : Iter) : Iter :=
  {| data_ := data_ it; restarts_ := restarts_ it; num_restarts_ := num_restarts_ it;
     current_ := current_ it; restart_index_ := v; key_ := key_ it;
     value_ := value_ it |}.

(** [while (restart_index_ + 1 < num_restarts_ &&
           GetRestartPoint(restart_index_ + 1) < current_) ++restart_index_;]
    Every iteration raises restart_index_, so num_restarts_ iterations
    reach the exit test. *)
Fixpoint advance_restart_index (fuel : nat) (it : Iter) : Iter :=
  match fuel with
  | O => it
  | S fuel' =>
      if (wrap32 (restart_index_ it + 1) <? num_restarts_ it)
         && (GetRestartPoint it (wrap32 (restart_index_ it + 1)) <? current_ it)
      then advance_restart_index fuel'
             (set_restart_index (wrap32 (restart_index_ it + 1)) it)
      else it
  end.

Section WithCorruptionError.

(** [CorruptionError()] is not among the sources: it is whatever the
    iterator does to itself on a bad entry. *)
Variable CorruptionError : Iter -> Iter.

Definition ParseNextKey (it : Iter) : Iter * bool :=
  let current := NextEntryOffset it in
  let it :=
    {| data_ := data_ it; restarts_ := restarts_ it; num_restarts_ := num_restarts_ it;
       current_ := current; restart_index_ := restart_index_ it; key_ := key_ it;
       value_ := value_ it |} in
  let p := current_ it in
  let limit := restarts_ it in   (* Restarts come right after data *)
  if p >=? limit then
    (* No more entries to return.  Mark as invalid. *)
    ({| data_ := data_ it; restarts_ := restarts_ it;
        num_restarts_ := num_restarts_ it;
        current_ := restarts_ it; restart_index_ := num_restarts_ it;
        key_ := key_ it; value_ := value_ it |}, false)
  else
    match DecodeEntry (data_ it) p limit with
    | None => (CorruptionError it, false)
    | Some (p, shared, non_shared, value_length) =>
        if size (key_ it) <? shared then (CorruptionError it, false)
        else
          let key :=
            take (Z.to_nat shared) (key_ it) ++ slice (data_ it) p non_shared in
          let it :=
            {| data_ := data_ it; restarts_ := restarts_ it;
               num_restarts_ := num_restarts_ it;
               current_ := current_ it; restart_index_ := restart_index_ it;
               key_ := key; value_ := (p + non_shared, value_length) |} in
          (advance_restart_index (Z.to_nat (num_restarts_ it)) it, true)
    end.

End WithCorruptionError.

End Block.

(** ** Scanning a block

    [ParseNextKey] called until it answers false, as a forward scan over a
    block does; the key and the value the iterator shows after each call. *)
Module BlockScan.

Section WithCorruptionError.

Variable CorruptionError : Block.Iter -> Block.Iter.

(** The value slice of the iterator, read out of the block. *)
Definition value (it : Block.Iter) : list Z :=
  slice (Block.data_ it) (fst (Block.value_ it)) (snd (Block.value_ it)).

Fixpoint read_entries (fuel : nat) (it : Block.Iter) : list (list Z * list Z) :=
  match fuel with
  | O => []
  | S fuel' =>
      let r := Block.ParseNextKey CorruptionError it in
      if snd r
      then (Block.key_ (fst r), value (fst r)) :: read_entries fuel' (fst r)
      else []
  end.

End WithCorruptionError.

End BlockScan.

(** ** More concrete collaborators, for the examples *)
Module ExampleMore.

(** Options without filter policy and without compression. *)
Definition plain_options : Options :=
  {| comparator := Example.bytewise; block_size := 4096; block_restart_interval := 16;
     compression := kNoCompression; filter_policy := None |}.

End ExampleMore.

(** * Part II: lemmas and theorems *)

(** * Machine integer facts *)

Lemma wrap32_range x : 0 <= wrap32 x < 2 ^ 32.
Proof. unfold wrap32. apply Z.mod_pos_bound. lia. Qed.

Lemma wrap32_small x : 0 <= x < 2 ^ 32 -> wrap32 x = x.
Proof. intros. unfold wrap32. apply Z.mod_small. lia. Qed.

Lemma wrap32_le x : 0 <= x -> wrap32 x <= x.
Proof. intros. unfold wrap32. apply Z.mod_le; lia. Qed.

Lemma wrap64_range x : 0 <= wrap64 x < 2 ^ 64.
Proof. unfold wrap64. apply Z.mod_pos_bound. lia. Qed.

Lemma wrap64_small x : 0 <= x < 2 ^ 64 -> wrap64 x = x.
Proof. intros. unfold wrap64. apply Z.mod_small. lia. Qed.

Lemma to_int32_small x : - 2 ^ 31 <= x < 2 ^ 31 -> to_int32 x = x.
Proof. intros. unfold to_int32. rewrite Z.mod_small; lia. Qed.

Lemma size_nonneg {A} (l : list A) : 0 <= size l.
Proof. unfold size. lia. Qed.

Lemma size_app {A} (l k : list A) : size (l ++ k) = size l + size k.
Proof. unfold size. rewrite length_app. lia. Qed.

Lemma size_nil {A} : size (@nil A) = 0.
Proof. reflexivity. Qed.

(** * Bloom filter *)
Module BloomFacts.
Import BloomView.
Section WithHash.
Variable Hash : list Z -> Z -> Z.

Abbreviation set_bit := Bloom.set_bit.
Abbreviation set_probes := Bloom.set_probes.
Abbreviation probe := Bloom.probe.

Lemma length_set_bit init pos dst : length (set_bit init pos dst) = length dst.
Proof. apply length_alter. Qed.

Lemma set_bit_app_r a b pos :
  0 <= pos -> set_bit (size a) pos (a ++ b) = a ++ set_bit 0 pos b.
Proof.
  intros Hpos. unfold set_bit, size.
  assert (0 <= pos / 8) by (apply Z.div_pos; lia).
  replace (Z.to_nat (Z.of_nat (length a) + pos / 8))
    with (length a + Z.to_nat (0 + pos / 8))%nat by lia.
  apply alter_app_r.
Qed.

Lemma set_bit_app_l b c pos :
  0 <= pos < 8 * size b -> set_bit 0 pos (b ++ c) = set_bit 0 pos b ++ c.
Proof.
  intros Hpos. unfold set_bit, size in *.
  apply alter_app_l.
  assert (0 <= pos / 8 < Z.of_nat (length b)).
  { split; [apply Z.div_pos; lia | apply Z.div_lt_upper_bound; lia]. }
  lia.
Qed.

Lemma set_bit_sets array pos :
  0 <= pos < 8 * size array -> bit_set (set_bit 0 pos array) pos.
Proof.
  intros Hpos. unfold bit_set, set_bit, size in *. rewrite Z.add_0_l.
  assert (0 <= pos / 8 < Z.of_nat (length array)).
  { split; [apply Z.div_pos; lia | apply Z.div_lt_upper_bound; lia]. }
  rewrite list_lookup_total_alter_eq by lia.
  assert (0 <= pos mod 8 < 8) by (apply Z.mod_pos_bound; lia).
  rewrite Z.lor_spec, Z.shiftl_spec, Z.sub_diag by lia.
  apply orb_true_r.
Qed.

Lemma set_bit_keeps array pos q :
  bit_set array q -> bit_set (set_bit 0 pos array) q.
Proof.
  unfold bit_set, set_bit. rewrite Z.add_0_l. intros Hq.
  destruct (decide (Z.to_nat (pos / 8) = Z.to_nat (q / 8))) as [e|ne].
  - rewrite e.
    destruct (decide (Z.to_nat (q / 8) < length array)%nat).
    + rewrite list_lookup_total_alter_eq by lia.
      rewrite Z.lor_spec, Hq. reflexivity.
    + rewrite list_lookup_total_alt in *.
      rewrite list_lookup_alter_eq.
      rewrite lookup_ge_None_2 in * by lia. exact Hq.
  - rewrite list_lookup_total_alter_ne by done. exact Hq.
Qed.

Lemma probe_positions_range j h delta bits pos :
  0 < bits -> pos ∈ probe_positions j h delta bits -> 0 <= pos < bits.
Proof.
  intros Hb. revert h. induction j as [|j IH]; simpl; intros h Hin.
  - inversion Hin.
  - apply elem_of_cons in Hin as [-> | Hin]; [|eauto].
    pose proof (Z.mod_pos_bound h bits Hb).
    pose proof (wrap32_range (h mod bits)).
    pose proof (wrap32_le (h mod bits)). lia.
Qed.

Lemma length_set_probes j h delta bits init dst :
  length (set_probes j h delta bits init dst) = length dst.
Proof.
  revert h dst. induction j as [|j IH]; simpl; intros; [done|].
  rewrite IH. apply length_set_bit.
Qed.

Lemma set_probes_app_r j h delta bits a b :
  set_probes j h delta bits (size a) (a ++ b) = a ++ set_probes j h delta bits 0 b.
Proof.
  revert h b. induction j as [|j IH]; simpl; intros h b; [done|].
  rewrite set_bit_app_r by apply wrap32_range. apply IH.
Qed.

Lemma set_probes_app_l j h delta bits b c :
  0 < bits <= 8 * size b ->
  set_probes j h delta bits 0 (b ++ c) = set_probes j h delta bits 0 b ++ c.
Proof.
  intros Hb. revert h b Hb. induction j as [|j IH]; simpl; intros h b Hb; [done|].
  assert (0 <= wrap32 (h mod bits) < bits).
  { apply (probe_positions_range 1 h delta bits); [lia|]. simpl. left. }
  rewrite set_bit_app_l by lia. apply IH.
  unfold size. rewrite length_set_bit. exact Hb.
Qed.

Lemma set_probes_keeps j h delta bits array q :
  bit_set array q -> bit_set (set_probes j h delta bits 0 array) q.
Proof.
  revert h array. induction j as [|j IH]; simpl; intros h array Hq; [done|].
  apply IH. by apply set_bit_keeps.
Qed.

Lemma set_probes_sets j h delta bits array pos :
  0 < bits <= 8 * size array ->
  pos ∈ probe_positions j h delta bits ->
  bit_set (set_probes j h delta bits 0 array) pos.
Proof.
  intros Hb. revert h array Hb.
  induction j as [|j IH]; simpl; intros h array Hb Hin; [inversion Hin|].
  apply elem_of_cons in Hin as [-> | Hin].
  - apply set_probes_keeps, set_bit_sets.
    assert (0 <= wrap32 (h mod bits) < bits); [|lia].
    apply (probe_positions_range 1 h delta bits); [lia|]. simpl. left.
  - apply IH; [|done]. unfold size. rewrite length_set_bit. exact Hb.
Qed.

Lemma land_bit_nonzero x m :
  0 <= m -> Z.testbit x m = true -> (Z.land x (Z.shiftl 1 m) =? 0) = false.
Proof.
  intros Hm Hx. apply Z.eqb_neq. intros H0.
  assert (Ht : Z.testbit (Z.land x (Z.shiftl 1 m)) m = true).
  { rewrite Z.land_spec, Hx, Z.shiftl_spec, Z.sub_diag by lia. reflexivity. }
  rewrite H0, Z.bits_0 in Ht. discriminate.
Qed.

Lemma probe_all_set j h delta bits array :
  (forall pos, pos ∈ probe_positions j h delta bits -> bit_set array pos) ->
  probe j h delta bits array = true.
Proof.
  revert h. induction j as [|j IH]; simpl; intros h Hall; [done|].
  rewrite land_bit_nonzero.
  - apply IH. intros pos Hin. apply Hall. by right.
  - apply Z.mod_pos_bound. lia.
  - apply Hall. left.
Qed.

Lemma bit_set_app b c pos :
  0 <= pos < 8 * size b -> bit_set b pos -> bit_set (b ++ c) pos.
Proof.
  unfold bit_set, size. intros Hpos Hb.
  assert (0 <= pos / 8 < Z.of_nat (length b)).
  { split; [apply Z.div_pos; lia | apply Z.div_lt_upper_bound; lia]. }
  rewrite lookup_total_app_l by lia. exact Hb.
Qed.

(** The outer loop over the keys. *)
Abbreviation add_key := (Bloom.add_key Hash).

Lemma length_add_keys p bits init keys dst :
  length (fold_left (add_key p bits init) keys dst) = length dst.
Proof.
  revert dst. induction keys as [|key keys IH]; simpl; intros dst; [done|].
  rewrite IH. apply length_set_probes.
Qed.

Lemma add_keys_app_r p bits keys a b :
  fold_left (add_key p bits (size a)) keys (a ++ b)
  = a ++ fold_left (add_key p bits 0) keys b.
Proof.
  revert b. induction keys as [|key keys IH]; simpl; intros b; [done|].
  unfold Bloom.add_key at 2 4. rewrite set_probes_app_r. apply IH.
Qed.

Lemma add_keys_app_l p bits keys b c :
  0 < bits <= 8 * size b ->
  fold_left (add_key p bits 0) keys (b ++ c)
  = fold_left (add_key p bits 0) keys b ++ c.
Proof.
  revert b. induction keys as [|key keys IH]; simpl; intros b Hb; [done|].
  unfold Bloom.add_key at 2 4. rewrite set_probes_app_l by done. apply IH.
  unfold size. rewrite length_set_probes. exact Hb.
Qed.

Lemma add_keys_keeps p bits keys array q :
  bit_set array q -> bit_set (fold_left (add_key p bits 0) keys array) q.
Proof.
  revert array. induction keys as [|key keys IH]; simpl; intros array Hq; [done|].
  apply IH. by apply set_probes_keeps.
Qed.

Abbreviation key_positions := (key_positions Hash).

Lemma add_keys_sets p bits keys array key pos :
  0 < bits <= 8 * size array ->
  key ∈ keys -> pos ∈ key_positions p bits key ->
  bit_set (fold_left (add_key p bits 0) keys array) pos.
Proof.
  intros Hb Hkey Hpos. revert array Hb.
  induction keys as [|key' keys IH]; simpl; intros array Hb; [inversion Hkey|].
  apply elem_of_cons in Hkey as [<- | Hkey].
  - apply add_keys_keeps. by apply set_probes_sets.
  - apply IH; [done|]. unfold size, Bloom.add_key. by rewrite length_set_probes.
Qed.

(** What CreateFilter appends: a bitmap of [filter_bytes] bytes with the
    bits of every key set, then the probe count. *)
Lemma CreateFilter_shape p keys n dst :
  let nbytes := Bloom.filter_bytes p n in
  0 < nbytes -> nbytes * 8 < 2 ^ 64 ->
  exists bitmap,
    Bloom.CreateFilter Hash p keys n dst = dst ++ bitmap ++ [Bloom.k_ p mod 256]
    /\ size bitmap = nbytes
    /\ forall key pos, key ∈ take (Z.to_nat n) keys ->
         pos ∈ key_positions p (nbytes * 8) key -> bit_set bitmap pos.
Proof.
  intros nbytes Hpos Hsmall.
  exists (fold_left (add_key p (nbytes * 8) 0) (take (Z.to_nat n) keys)
                    (replicate (Z.to_nat nbytes) 0)).
  assert (Hsz : size (replicate (Z.to_nat nbytes) 0) = nbytes).
  { unfold size. rewrite length_replicate. lia. }
  split; [|split].
  - unfold Bloom.CreateFilter. fold nbytes.
    rewrite wrap64_small by lia.
    rewrite <- app_assoc, add_keys_app_r.
    rewrite add_keys_app_l by lia. reflexivity.
  - unfold size in *. by rewrite length_add_keys.
  - intros key pos Hkey Hin. apply (add_keys_sets _ _ _ _ key); [lia|done|done].
Qed.

(** A filter of that shape matches every key whose bits are set. *)
Lemma KeyMayMatch_shape key bitmap k :
  0 < size bitmap -> size bitmap * 8 < 2 ^ 64 -> 0 <= k <= 30 ->
  (forall pos,
      pos ∈ probe_positions (Z.to_nat k) (Bloom.BloomHash Hash key)
            (Bloom.rotate_right_17 (Bloom.BloomHash Hash key)) (size bitmap * 8) ->
      bit_set bitmap pos) ->
  Bloom.KeyMayMatch Hash key (bitmap ++ [k]) = true.
Proof.
  intros Hpos Hsmall Hk Hbits. unfold Bloom.KeyMayMatch.
  rewrite size_app. change (size [k]) with 1.
  destruct (Z.ltb_spec (size bitmap + 1) 2); [lia|].
  replace (size bitmap + 1 - 1) with (size bitmap) by lia.
  rewrite wrap64_small by lia.
  replace (Z.to_nat (size bitmap)) with (length bitmap + 0)%nat by (unfold size; lia).
  rewrite lookup_total_app_r by lia.
  replace (length bitmap + 0 - length bitmap)%nat with 0%nat by lia.
  change ([k] !!! 0%nat) with k.
  destruct (Z.gtb_spec k 30); [lia|].
  apply probe_all_set. intros pos Hin.
  apply bit_set_app; [|by apply Hbits].
  assert (Hb8 : 0 < size bitmap * 8) by lia.
  pose proof (probe_positions_range _ _ _ _ pos Hb8 Hin). lia.
Qed.

(** The constructor's parameters, for an [int] [bits_per_key >= 0]. *)
Lemma new_k_range bits_per_key :
  1 <= Bloom.k_ (Bloom.new_BloomFilterPolicy bits_per_key) <= 30.
Proof.
  unfold Bloom.new_BloomFilterPolicy. cbn [Bloom.k_].
  repeat match goal with
         | |- context [Z.ltb ?a ?b] => destruct (Z.ltb_spec a b)
         | |- context [Z.gtb ?a ?b] => destruct (Z.gtb_spec a b)
         end; lia.
Qed.

Lemma new_filter_bytes bits_per_key n :
  0 <= bits_per_key < 2 ^ 31 -> 0 <= n < 2 ^ 31 ->
  Bloom.filter_bytes (Bloom.new_BloomFilterPolicy bits_per_key) n
  = (Z.max 64 (n * bits_per_key) + 7) / 8.
Proof.
  intros Hb Hn. unfold Bloom.filter_bytes, Bloom.new_BloomFilterPolicy.
  cbn [Bloom.bits_per_key_].
  rewrite (wrap64_small bits_per_key) by lia.
  rewrite (wrap64_small n) by lia.
  assert (0 <= n * bits_per_key < 2 ^ 62) by nia.
  rewrite (wrap64_small (n * bits_per_key)) by lia.
  destruct (Z.ltb_spec (n * bits_per_key) 64).
  - rewrite Z.max_l by lia. rewrite wrap64_small by lia. reflexivity.
  - rewrite Z.max_r by lia. rewrite wrap64_small by lia. reflexivity.
Qed.

Lemma new_filter_bytes_range bits_per_key n :
  0 <= bits_per_key < 2 ^ 31 -> 0 <= n < 2 ^ 31 ->
  8 <= Bloom.filter_bytes (Bloom.new_BloomFilterPolicy bits_per_key) n < 2 ^ 60.
Proof.
  intros Hb Hn. rewrite new_filter_bytes by done.
  assert (0 <= n * bits_per_key < 2 ^ 62) by nia.
  split.
  - apply Z.div_le_lower_bound; lia.
  - apply Z.div_lt_upper_bound; lia.
Qed.

(** CreateFilter and KeyMayMatch of the bloom policy together: what is
    appended, and that it matches every key. *)
Lemma bloom_create_then_match bits_per_key keys dst :
  0 <= bits_per_key < 2 ^ 31 -> size keys < 2 ^ 31 ->
  exists bitmap : list Z,
    let p := Bloom.new_BloomFilterPolicy bits_per_key in
    Bloom.CreateFilter Hash p keys (size keys) dst = dst ++ bitmap ++ [Bloom.k_ p]
    /\ size bitmap = (Z.max 64 (size keys * bits_per_key) + 7) / 8
    /\ forall key, key ∈ keys ->
         Bloom.KeyMayMatch Hash key (bitmap ++ [Bloom.k_ p]) = true.
Proof.
  intros Hb Hn.
  pose proof (size_nonneg keys) as Hn0.
  pose proof (new_filter_bytes_range bits_per_key (size keys) Hb ltac:(lia)) as Hr.
  pose proof (new_k_range bits_per_key) as Hk.
  destruct (CreateFilter_shape (Bloom.new_BloomFilterPolicy bits_per_key)
              keys (size keys) dst) as (bitmap & Heq & Hsz & Hbits); [lia|lia|].
  exists bitmap. cbv zeta.
  rewrite (Z.mod_small (Bloom.k_ _) 256) in Heq by lia.
  split; [exact Heq|]. split.
  - rewrite Hsz. apply new_filter_bytes; lia.
  - intros key Hkey. apply KeyMayMatch_shape; [lia|lia|lia|].
    intros pos Hin. apply (Hbits key); [|rewrite <- Hsz; exact Hin].
    unfold size. rewrite Nat2Z.id, firstn_all. exact Hkey.
Qed.

End WithHash.
End BloomFacts.

(** * Fixed-width codec *)
Module CodingFacts.

Lemma size_EncodeFixed32 v : size (Coding.EncodeFixed32 v) = 4.
Proof. reflexivity. Qed.

Lemma le_bytes_wrap32 v :
  v mod 256 + (v / 2 ^ 8) mod 256 * 2 ^ 8 + (v / 2 ^ 16) mod 256 * 2 ^ 16
  + (v / 2 ^ 24) mod 256 * 2 ^ 24 = wrap32 v.
Proof.
  unfold wrap32.
  change (2 ^ 32) with (256 * (256 * (256 * 256))).
  rewrite (Z.rem_mul_r v 256 (256 * (256 * 256))) by lia.
  rewrite (Z.rem_mul_r (v / 256) 256 (256 * 256)) by lia.
  rewrite (Z.rem_mul_r (v / 256 / 256) 256 256) by lia.
  rewrite !Z.div_div by lia.
  change (2 ^ 8) with 256. change (2 ^ 16) with (256 * 256).
  change (2 ^ 24) with (256 * 256 * 256). lia.
Qed.

Lemma lookup_total_app_add (pre l : list Z) (i : nat) :
  (pre ++ l) !!! (length pre + i)%nat = l !!! i.
Proof.
  rewrite lookup_total_app_r by lia. f_equal. lia.
Qed.

Lemma DecodeFixed32_at pre v post :
  Coding.DecodeFixed32 (pre ++ Coding.EncodeFixed32 v ++ post) (size pre) = wrap32 v.
Proof.
  unfold Coding.DecodeFixed32, Coding.EncodeFixed32, size.
  replace (Z.to_nat (Z.of_nat (length pre) + 0)) with (length pre + 0)%nat by lia.
  replace (Z.to_nat (Z.of_nat (length pre) + 1)) with (length pre + 1)%nat by lia.
  replace (Z.to_nat (Z.of_nat (length pre) + 2)) with (length pre + 2)%nat by lia.
  replace (Z.to_nat (Z.of_nat (length pre) + 3)) with (length pre + 3)%nat by lia.
  rewrite !lookup_total_app_add.
  cbn [app lookup_total list_lookup_total].
  rewrite !Z.mod_mod by lia. apply le_bytes_wrap32.
Qed.

Import FilterBlockView.

Lemma size_encode_words ws : size (encode_words ws) = 4 * size ws.
Proof.
  unfold encode_words. induction ws as [|w ws IH]; [done|].
  cbn [map concat]. rewrite size_app, IH, size_EncodeFixed32.
  unfold size. cbn [length]. lia.
Qed.

Lemma DecodeFixed32_word pre ws post (i : nat) w :
  ws !! i = Some w ->
  Coding.DecodeFixed32 (pre ++ encode_words ws ++ post) (size pre + 4 * Z.of_nat i)
  = wrap32 w.
Proof.
  revert pre i. induction ws as [|w' ws IH]; intros pre i Hi; [done|].
  unfold encode_words in *. cbn [map concat]. rewrite <- app_assoc.
  destruct i as [|i].
  - injection Hi as ->. rewrite Z.mul_0_r, Z.add_0_r. apply DecodeFixed32_at.
  - cbn in Hi. rewrite app_assoc.
    replace (size pre + 4 * Z.of_nat (S i))
      with (size (pre ++ Coding.EncodeFixed32 w') + 4 * Z.of_nat i).
    + by apply IH.
    + rewrite size_app, size_EncodeFixed32. lia.
Qed.

Lemma fold_PutFixed32 ws dst :
  fold_left Coding.PutFixed32 ws dst = dst ++ encode_words ws.
Proof.
  revert dst. induction ws as [|w ws IH]; intros dst.
  - by rewrite app_nil_r.
  - cbn [fold_left]. rewrite IH. unfold Coding.PutFixed32, encode_words.
    cbn [map concat]. by rewrite app_assoc.
Qed.

End CodingFacts.

(** * Layout of consecutive strings *)
Module LayoutFacts.
Import FilterBlockView.

Lemma lookup_map {A B} (f : A -> B) (l : list A) (i : nat) :
  map f l !! i = f <$> l !! i.
Proof.
  revert i. induction l as [|x l IH]; intros [|i]; cbn; auto.
Qed.

Lemma length_starts_from base parts :
  length (starts_from base parts) = length parts.
Proof.
  revert base. induction parts as [|p parts IH]; intros base; cbn; [done|].
  by rewrite IH.
Qed.

Lemma starts_from_snoc base parts p :
  starts_from base (parts ++ [p])
  = starts_from base parts ++ [base + size (concat parts)].
Proof.
  revert base. induction parts as [|q parts IH]; intros base; cbn [app starts_from concat].
  - rewrite size_nil. by rewrite Z.add_0_r.
  - rewrite IH, size_app. by rewrite Z.add_assoc.
Qed.

Lemma bounds_cons base p parts :
  bounds base (p :: parts) = base :: bounds (base + size p) parts.
Proof.
  unfold bounds. cbn [starts_from concat app]. rewrite size_app.
  by rewrite Z.add_assoc.
Qed.

Lemma bounds_head base parts (tl : list Z) :
  (bounds base parts ++ tl) !!! 0%nat = base.
Proof.
  destruct parts as [|p parts]; [|by rewrite bounds_cons].
  unfold bounds. cbn. apply Z.add_0_r.
Qed.

Lemma bounds_lookup base parts (i : nat) p :
  parts !! i = Some p ->
  bounds base parts !!! i = base + size (concat (take i parts))
  /\ bounds base parts !!! S i = base + size (concat (take i parts)) + size p.
Proof.
  revert base i. induction parts as [|q parts IH]; intros base i Hi; [done|].
  rewrite bounds_cons. destruct i as [|i].
  - injection Hi as ->. cbn [take concat]. rewrite size_nil.
    change ((base :: bounds (base + size p) parts) !!! 0%nat) with base.
    change ((base :: bounds (base + size p) parts) !!! 1%nat)
      with (bounds (base + size p) parts !!! 0%nat).
    pose proof (bounds_head (base + size p) parts []) as Hh.
    rewrite app_nil_r in Hh. rewrite Hh. lia.
  - cbn in Hi. destruct (IH (base + size q) i Hi) as [H1 H2].
    cbn [take concat]. rewrite size_app.
    change ((base :: bounds (base + size q) parts) !!! S i)
      with (bounds (base + size q) parts !!! i).
    change ((base :: bounds (base + size q) parts) !!! S (S i))
      with (bounds (base + size q) parts !!! S i).
    rewrite H1, H2. lia.
Qed.

Lemma slice_part (parts : list (list Z)) (i : nat) p :
  parts !! i = Some p ->
  slice (concat parts) (size (concat (take i parts))) (size p) = p.
Proof.
  intros Hi. unfold slice, size. rewrite !Nat2Z.id.
  assert (E : concat parts
              = concat (take i parts) ++ p ++ concat (drop (S i) parts)).
  { rewrite <- (take_drop_middle parts i p Hi) at 1.
    by rewrite concat_app. }
  rewrite E, drop_app_length. apply take_app_length.
Qed.

(** Cutting the flattened keys at the recorded starts gives the keys
    back (the loop of GenerateFilter). *)
Lemma rebuild_keys (pending : list (list Z)) :
  let start := starts_from 0 pending ++ [size (concat pending)] in
  map (fun i : nat =>
         slice (concat pending) (start !!! i) (start !!! S i - start !!! i))
      (seq 0 (Z.to_nat (size (starts_from 0 pending))))
  = pending.
Proof.
  intros start. unfold size. rewrite Nat2Z.id, length_starts_from.
  apply list_eq. intros i. rewrite lookup_map.
  destruct (pending !! i) as [p|] eqn:Hi.
  - rewrite lookup_seq_lt by (by eapply lookup_lt_Some). cbn.
    destruct (bounds_lookup 0 pending i p Hi) as [H1 H2].
    unfold bounds in H1, H2. rewrite Z.add_0_l in H1, H2.
    subst start. unfold size in *. rewrite H1, H2. f_equal.
    replace (0 + Z.of_nat (length (concat (take i pending))) + Z.of_nat (length p)
             - (0 + Z.of_nat (length (concat (take i pending)))))
      with (Z.of_nat (length p)) by lia.
    rewrite Z.add_0_l. by apply slice_part.
  - rewrite lookup_seq_ge; [done|]. by apply lookup_ge_None.
Qed.

End LayoutFacts.

(** * The filter block builder *)
Module FilterBlockFacts.
Import FilterBlockView LayoutFacts CodingFacts.

Lemma kFilterBase_eq : FilterBlockBuilder.kFilterBase = 2048.
Proof. reflexivity. Qed.

Lemma represents_offsets b filters pending :
  represents b filters pending ->
  size (FilterBlockBuilder.filter_offsets_ b) = size filters.
Proof.
  intros (_ & Ho & _). rewrite Ho. unfold size.
  by rewrite length_map, length_starts_from.
Qed.

Lemma represents_new P : represents (FilterBlockBuilder.new P) [] [].
Proof. by repeat split. Qed.

Lemma represents_AddKey b filters pending key :
  represents b filters pending ->
  represents (FilterBlockBuilder.AddKey key b) filters (pending ++ [key]).
Proof.
  intros (Hr & Ho & Hk & Hs). repeat split; cbn; try done.
  - rewrite Hk, concat_app. cbn. by rewrite app_nil_r.
  - rewrite Hs, Hk, starts_from_snoc. by rewrite Z.add_0_l.
Qed.

Lemma offsets_snoc filters f :
  map wrap32 (starts_from 0 filters) ++ [wrap32 (size (concat filters))]
  = map wrap32 (starts_from 0 (filters ++ [f])).
Proof. rewrite starts_from_snoc, map_app. cbn. by rewrite Z.add_0_l. Qed.

Lemma represents_pending_nil b filters pending :
  represents b filters pending ->
  (size (FilterBlockBuilder.start_ b) =? 0) = true -> pending = [].
Proof.
  intros (_ & _ & _ & Hs) Hz. apply Z.eqb_eq in Hz.
  rewrite Hs in Hz. unfold size in Hz. rewrite length_starts_from in Hz.
  destruct pending; [done|]. cbn in Hz. lia.
Qed.

Section WithPolicy.
Context (P : FilterPolicy.t) `{!LawfulPolicy P}.

(** One call of GenerateFilter closes the window being filled. *)
Lemma GenerateFilter_represents b filters pending :
  FilterBlockBuilder.policy_ b = P ->
  represents b filters pending -> size pending < 2 ^ 31 ->
  exists f,
    represents (FilterBlockBuilder.GenerateFilter b) (filters ++ [f]) []
    /\ FilterBlockBuilder.policy_ (FilterBlockBuilder.GenerateFilter b) = P
    /\ (pending = [] -> f = [])
    /\ forall key, key ∈ pending -> FilterPolicy.KeyMayMatch P key f = true.
Proof.
  intros HP Hrep Hn. unfold FilterBlockBuilder.GenerateFilter.
  destruct (size (FilterBlockBuilder.start_ b) =? 0) eqn:Hz.
  - pose proof (represents_pending_nil _ _ _ Hrep Hz) as ->.
    destruct Hrep as (Hr & Ho & Hk & Hs).
    exists []. split; [|split; [done|split; [done|]]].
    + unfold represents. cbn. rewrite Hr, Ho, concat_app, <- offsets_snoc.
      cbn. by rewrite app_nil_r.
    + intros key Hin. inversion Hin.
  - destruct b as [pol keys start result tmp offs].
    destruct Hrep as (Hr & Ho & Hk & Hs). cbn in *. subst.
    assert (Hsz : size (starts_from 0 pending) = size pending).
    { unfold size. by rewrite length_starts_from. }
    rewrite (rebuild_keys pending).
    rewrite Hsz, to_int32_small by (pose proof (size_nonneg pending); lia).
    destruct (create_then_match pending (concat filters) Hn)
      as (f & Hf & Hmatch).
    exists f. split; [|split; [done|split; [|done]]].
    + unfold represents. cbn. rewrite Hf, concat_app, <- offsets_snoc.
      cbn. by rewrite app_nil_r.
    + intros ->. apply Z.eqb_neq in Hz. by rewrite Hsz in Hz.
Qed.

Lemma pinned_app filters more E :
  pinned filters E -> pinned (filters ++ more) E.
Proof.
  intros Hpin window f Hin. destruct (Hpin _ _ Hin) as [H0 Hl].
  split; [done|]. by apply lookup_app_l_Some.
Qed.

Lemma covered_closed filters pending f more H :
  covered P filters pending H ->
  (forall key, key ∈ pending -> FilterPolicy.KeyMayMatch P key f = true) ->
  covered P (filters ++ f :: more) [] H.
Proof.
  intros Hcov Hmatch bo key Hin.
  destruct (Hcov _ _ Hin) as [Hb [(f0 & Hf0 & Hm0) | [Hw Hin']]].
  - split; [done|]. left. exists f0. split; [|done].
    by apply lookup_app_l_Some.
  - split; [done|]. left. exists f. split; [|by apply Hmatch].
    rewrite Hw. unfold size. rewrite Nat2Z.id.
    by apply list_lookup_middle.
Qed.

Lemma GenerateFilter_invariant b M n H E :
  invariant P b M n H E -> n < 2 ^ 31 ->
  invariant P (FilterBlockBuilder.GenerateFilter b) (M + 1) n H E.
Proof.
  intros (filters & pending & HP & Hrep & HM & Hn & Hcov & Hpin) Hbound.
  destruct (GenerateFilter_represents b filters pending HP Hrep ltac:(lia))
    as (f & Hrep' & HP' & _ & Hmatch).
  exists (filters ++ [f]), []. split_and!; try done.
  - rewrite size_app, HM. reflexivity.
  - pose proof (size_nonneg pending). unfold size in *. cbn. lia.
  - by eapply covered_closed.
  - by apply pinned_app.
Qed.

Lemma StartBlock_loop_invariant fuel idx b M n H E :
  invariant P b M n H E -> n < 2 ^ 31 -> M <= idx -> idx - M <= Z.of_nat fuel ->
  invariant P (FilterBlockBuilder.StartBlock_loop fuel idx b) idx n H E.
Proof.
  revert b M. induction fuel as [|fuel IH]; intros b M Hinv Hn HM Hfuel.
  - cbn. replace idx with M by lia. done.
  - cbn [FilterBlockBuilder.StartBlock_loop].
    assert (Hsz : size (FilterBlockBuilder.filter_offsets_ b) = M).
    { destruct Hinv as (filters & pending & _ & Hrep & HM' & _).
      rewrite <- HM'. by eapply represents_offsets. }
    rewrite Hsz. destruct (Z.gtb_spec idx M).
    + apply (IH _ (M + 1)); [by apply GenerateFilter_invariant|done|lia|lia].
    + replace idx with M by lia. done.
Qed.

(** StartBlock leaves exactly [block_offset / kFilterBase] filters. *)
Lemma StartBlock_invariant block_offset b M n H E :
  invariant P b M n H E -> n < 2 ^ 31 ->
  M <= block_offset / FilterBlockBuilder.kFilterBase ->
  invariant P (FilterBlockBuilder.StartBlock block_offset b)
            (block_offset / FilterBlockBuilder.kFilterBase) n H E.
Proof.
  intros Hinv Hn HM. unfold FilterBlockBuilder.StartBlock.
  eapply StartBlock_loop_invariant; [done|done|done|].
  destruct Hinv as (filters & _ & _ & _ & HM' & _).
  pose proof (size_nonneg filters). lia.
Qed.

Lemma AddKey_invariant key block_offset b M n H E :
  invariant P b M n H E -> 0 <= block_offset ->
  block_offset / FilterBlockBuilder.kFilterBase = M ->
  invariant P (FilterBlockBuilder.AddKey key b) M (n + 1)
            ((block_offset, key) :: H) E.
Proof.
  intros (filters & pending & HP & Hrep & HM & Hn & Hcov & Hpin) Hb Hw.
  exists filters, (pending ++ [key]). split_and!; try done.
  - by apply represents_AddKey.
  - rewrite size_app. unfold size at 2. cbn. lia.
  - intros bo k Hin. apply elem_of_cons in Hin as [[= -> ->] | Hin].
    + split; [done|]. right. split; [lia|]. apply elem_of_app. right. left.
    + destruct (Hcov _ _ Hin) as [Hbo [Hl | [Hw' Hin']]].
      * split; [done|]. by left.
      * split; [done|]. right. split; [done|]. apply elem_of_app. by left.
Qed.

Lemma new_invariant : invariant P (FilterBlockBuilder.new P) 0 0 [] [].
Proof.
  exists [], []. split_and!; try done.
  - intros bo k Hin. inversion Hin.
  - intros w f Hin. inversion Hin.
Qed.

Lemma invariant_weaken b M n n' H E :
  invariant P b M n H E -> n <= n' -> invariant P b M n' H E.
Proof.
  intros (filters & pending & HP & Hrep & HM & Hn & Hcov & Hpin) Hle.
  exists filters, pending. split_and!; try done. lia.
Qed.

Lemma replicate_snoc {A} (k : nat) (x : A) :
  replicate k x ++ [x] = replicate (S k) x.
Proof. by rewrite <- replicate_S_end. Qed.

(** With nothing pending, the loop of StartBlock emits empty filters. *)
Lemma StartBlock_loop_empties fuel idx b filters :
  FilterBlockBuilder.policy_ b = P ->
  represents b filters [] ->
  size filters <= idx -> idx - size filters <= Z.of_nat fuel ->
  represents (FilterBlockBuilder.StartBlock_loop fuel idx b)
             (filters ++ replicate (Z.to_nat (idx - size filters)) []) []
  /\ FilterBlockBuilder.policy_
       (FilterBlockBuilder.StartBlock_loop fuel idx b) = P.
Proof.
  revert b filters. induction fuel as [|fuel IH]; intros b filters HP Hrep Hle Hfuel.
  - cbn. replace (idx - size filters) with 0 by lia. cbn. by rewrite app_nil_r.
  - cbn [FilterBlockBuilder.StartBlock_loop].
    rewrite (represents_offsets _ _ _ Hrep).
    destruct (Z.gtb_spec idx (size filters)).
    + destruct (GenerateFilter_represents b filters [] HP Hrep)
        as (f & Hrep' & HP' & Hnil & _); [done|].
      rewrite (Hnil eq_refl) in Hrep'.
      assert (Hsz : size (filters ++ [[]]) = size filters + 1)
        by (by rewrite size_app).
      pose proof (IH _ _ HP' Hrep' ltac:(lia) ltac:(lia)) as [Hr HPr].
      rewrite Hsz in Hr. split; [|done].
      replace (Z.to_nat (idx - size filters))
        with (S (Z.to_nat (idx - (size filters + 1)))) by lia.
      cbn [replicate]. by rewrite cons_middle, app_assoc.
    + replace (idx - size filters) with 0 by lia. cbn. by rewrite app_nil_r.
Qed.

(** StartBlock closes the window being filled and emits an empty filter
    for every window skipped. *)
Lemma StartBlock_skips block_offset b filters pending :
  FilterBlockBuilder.policy_ b = P ->
  represents b filters pending -> size pending < 2 ^ 31 ->
  size filters < block_offset / FilterBlockBuilder.kFilterBase ->
  exists f,
    represents (FilterBlockBuilder.StartBlock block_offset b)
      (filters ++ f :: replicate
         (Z.to_nat (block_offset / FilterBlockBuilder.kFilterBase
                    - size filters - 1))
         []) []
    /\ FilterBlockBuilder.policy_
         (FilterBlockBuilder.StartBlock block_offset b) = P
    /\ forall key, key ∈ pending -> FilterPolicy.KeyMayMatch P key f = true.
Proof.
  intros HP Hrep Hn Hlt. unfold FilterBlockBuilder.StartBlock.
  set (idx := block_offset / FilterBlockBuilder.kFilterBase) in *.
  pose proof (size_nonneg filters) as Hf0.
  destruct (Z.to_nat idx) as [|fuel] eqn:Hfuel; [lia|].
  cbn [FilterBlockBuilder.StartBlock_loop].
  rewrite (represents_offsets _ _ _ Hrep).
  destruct (Z.gtb_spec idx (size filters)); [|lia].
  destruct (GenerateFilter_represents b filters pending HP Hrep Hn)
    as (f & Hrep' & HP' & _ & Hmatch).
  exists f.
  assert (Hsz : size (filters ++ [f]) = size filters + 1) by (by rewrite size_app).
  pose proof (StartBlock_loop_empties fuel idx _ _ HP' Hrep' ltac:(lia) ltac:(lia))
    as [Hr HPr].
  rewrite Hsz in Hr. rewrite <- app_assoc in Hr. cbn [app] in Hr.
  replace (idx - size filters - 1) with (idx - (size filters + 1)) by lia.
  done.
Qed.

(** The filters of the skipped windows are recorded as empty. *)
Lemma StartBlock_pins block_offset b M n H E window :
  invariant P b M n H E -> n < 2 ^ 31 ->
  M < window < block_offset / FilterBlockBuilder.kFilterBase ->
  invariant P (FilterBlockBuilder.StartBlock block_offset b)
            (block_offset / FilterBlockBuilder.kFilterBase) n H
            ((window, []) :: E).
Proof.
  intros (filters & pending & HP & Hrep & HM & Hn & Hcov & Hpin) Hbound Hw.
  destruct (StartBlock_skips block_offset b filters pending HP Hrep)
    as (f & Hrep' & HP' & Hmatch); [lia|lia|].
  set (idx := block_offset / FilterBlockBuilder.kFilterBase) in *.
  pose proof (size_nonneg filters) as Hf0.
  eexists _, []. split_and!; [done|exact Hrep'| | |by eapply covered_closed|].
  - rewrite size_app. unfold size. cbn [length]. rewrite length_replicate.
    unfold size in *. lia.
  - pose proof (size_nonneg pending). unfold size in *. cbn. lia.
  - intros w f' Hin. apply elem_of_cons in Hin as [[= -> ->] | Hin].
    + split; [lia|].
      replace (Z.to_nat window)
        with (length filters + S (Z.to_nat (window - size filters - 1)))%nat
        by (unfold size in *; lia).
      rewrite lookup_app_r by lia.
      replace (length filters + S (Z.to_nat (window - size filters - 1))
               - length filters)%nat
        with (S (Z.to_nat (window - size filters - 1))) by lia.
      cbn. apply lookup_replicate_2. lia.
    + by apply (pinned_app filters _ E Hpin).
Qed.

Lemma finish_tail b filters pending :
  represents b filters pending ->
  Coding.PutFixed32
    (fold_left Coding.PutFixed32 (FilterBlockBuilder.filter_offsets_ b)
               (FilterBlockBuilder.result_ b))
    (wrap32 (size (FilterBlockBuilder.result_ b)))
  ++ [FilterBlockBuilder.kFilterBaseLg]
  = contents_of filters.
Proof.
  intros (Hr & Ho & _). rewrite fold_PutFixed32, Hr, Ho.
  unfold Coding.PutFixed32, contents_of. by rewrite <- !app_assoc.
Qed.

(** What [Finish] leaves: the encoding of a list of filters in which
    every recorded key is answered by the filter of its window. *)
Lemma Finish_result b M n H E :
  invariant P b M n H E -> n < 2 ^ 31 ->
  exists filters,
    FilterBlockBuilder.result_ (FilterBlockBuilder.Finish b) = contents_of filters
    /\ M <= size filters
    /\ pinned filters E
    /\ forall block_offset key, (block_offset, key) ∈ H ->
         0 <= block_offset
         /\ exists f,
             filters !! Z.to_nat (block_offset / FilterBlockBuilder.kFilterBase) = Some f
             /\ FilterPolicy.KeyMayMatch P key f = true.
Proof.
  intros Hinv Hn. unfold FilterBlockBuilder.Finish.
  destruct (FilterBlockBuilder.start_ b) as [|s0 start] eqn:Hstart.
  - destruct Hinv as (filters & pending & HP & Hrep & HM & Hpn & Hcov & Hpin).
    exists filters. cbn [FilterBlockBuilder.result_].
    split; [by eapply finish_tail|]. split; [lia|]. split; [done|].
    assert (pending = []) as ->.
    { destruct Hrep as (_ & _ & _ & Hs). rewrite Hstart in Hs.
      by destruct pending. }
    intros bo k Hin. destruct (Hcov _ _ Hin) as [Hb [Hl | [_ Hp]]].
    + done.
    + inversion Hp.
  - destruct Hinv as (filters & pending & HP & Hrep & HM & Hpn & Hcov & Hpin).
    destruct (GenerateFilter_represents b filters pending HP Hrep ltac:(lia))
      as (f & Hrep' & HP' & _ & Hmatch).
    exists (filters ++ [f]). cbn [FilterBlockBuilder.result_].
    split; [by eapply finish_tail|].
    split; [rewrite size_app; pose proof (size_nonneg [f]); lia|].
    split; [by apply pinned_app|].
    intros bo k Hin.
    destruct (covered_closed filters pending f [] H Hcov Hmatch bo k Hin)
      as [Hb [Hl | [_ Hp]]]; [done|inversion Hp].
Qed.

End WithPolicy.
End FilterBlockFacts.

(** * The filter block reader on a well-formed block *)
Module FilterBlockReaderFacts.
Import FilterBlockView LayoutFacts CodingFacts.

Lemma encode_words_snoc ws w :
  encode_words (ws ++ [w]) = encode_words ws ++ Coding.EncodeFixed32 w.
Proof.
  unfold encode_words. rewrite map_app, concat_app. f_equal.
Qed.

Lemma contents_of_bounds filters :
  contents_of filters
  = concat filters ++ encode_words (map wrap32 (bounds 0 filters))
    ++ [FilterBlockBuilder.kFilterBaseLg].
Proof.
  unfold contents_of, bounds. rewrite map_app. cbn [map].
  rewrite encode_words_snoc, Z.add_0_l. by rewrite <- app_assoc.
Qed.

Lemma length_bounds base parts : length (bounds base parts) = S (length parts).
Proof. unfold bounds. rewrite length_app, length_starts_from. cbn. lia. Qed.

Lemma bounds_last base parts :
  bounds base parts !! length parts = Some (base + size (concat parts)).
Proof.
  unfold bounds. rewrite <- (length_starts_from base parts).
  by apply list_lookup_middle.
Qed.

Lemma size_contents_of filters :
  size (contents_of filters) = size (concat filters) + 4 * size filters + 5.
Proof.
  rewrite contents_of_bounds, !size_app, size_encode_words.
  unfold size. rewrite length_map, length_bounds. cbn [length]. lia.
Qed.

Lemma part_bounded (parts : list (list Z)) (i : nat) p :
  parts !! i = Some p ->
  size (concat (take i parts)) + size p <= size (concat parts).
Proof.
  intros Hi.
  assert (E : concat parts
              = concat (take i parts) ++ p ++ concat (drop (S i) parts)).
  { rewrite <- (take_drop_middle parts i p Hi) at 1. by rewrite concat_app. }
  rewrite E, !size_app.
  pose proof (size_nonneg (concat (drop (S i) parts))). lia.
Qed.

Lemma slice_app_l {A} (s t : list A) pos len :
  0 <= pos -> 0 <= len -> pos + len <= size s ->
  slice (s ++ t) pos len = slice s pos len.
Proof.
  unfold slice, size. intros Hp Hl Hle.
  rewrite drop_app_le by lia. rewrite take_app_le; [done|].
  rewrite length_drop. lia.
Qed.

Lemma new_contents_of P filters :
  size (concat filters) < 2 ^ 32 ->
  FilterBlockReader.new P (contents_of filters)
  = {| FilterBlockReader.policy_ := P;
       FilterBlockReader.data_ := contents_of filters;
       FilterBlockReader.offset_ := size (concat filters);
       FilterBlockReader.num_ := size filters;
       FilterBlockReader.base_lg_ := FilterBlockBuilder.kFilterBaseLg |}.
Proof.
  intros Hsmall. unfold FilterBlockReader.new.
  pose proof (size_nonneg (concat filters)) as HA.
  pose proof (size_nonneg filters) as HM.
  rewrite size_contents_of.
  destruct (Z.ltb_spec (size (concat filters) + 4 * size filters + 5) 5); [lia|].
  assert (Hlast : Coding.DecodeFixed32 (contents_of filters)
                    (size (concat filters) + 4 * size filters + 5 - 5)
                  = size (concat filters)).
  { rewrite contents_of_bounds.
    replace (size (concat filters) + 4 * size filters + 5 - 5)
      with (size (concat filters) + 4 * Z.of_nat (length filters))
      by (unfold size; lia).
    rewrite (DecodeFixed32_word _ _ _ _ (wrap32 (0 + size (concat filters)))).
    - rewrite Z.add_0_l. rewrite !wrap32_small; [done|lia|].
      rewrite wrap32_small; lia.
    - rewrite lookup_map, bounds_last. done. }
  rewrite Hlast.
  destruct (Z.gtb_spec (size (concat filters))
              (size (concat filters) + 4 * size filters + 5 - 5)); [lia|].
  f_equal.
  - replace (size (concat filters) + 4 * size filters + 5 - 5 - size (concat filters))
      with (size filters * 4) by lia.
    apply Z.div_mul. lia.
  - rewrite contents_of_bounds, app_assoc.
    replace (Z.to_nat (size (concat filters) + 4 * size filters + 5 - 1))
      with (length (concat filters ++ encode_words (map wrap32 (bounds 0 filters))) + 0)%nat.
    + by rewrite lookup_total_app_add.
    + pose proof (size_encode_words (map wrap32 (bounds 0 filters))) as He.
      unfold size in *. rewrite length_app.
      rewrite length_map, length_bounds in He. lia.
Qed.

(** The pair of offsets stored for a filter. *)
Lemma decoded_pair (filters : list (list Z)) (i : nat) f :
  filters !! i = Some f -> size (concat filters) < 2 ^ 32 ->
  Coding.DecodeFixed32 (contents_of filters)
                       (size (concat filters) + Z.of_nat i * 4)
  = size (concat (take i filters))
  /\ Coding.DecodeFixed32 (contents_of filters)
                          (size (concat filters) + Z.of_nat i * 4 + 4)
     = size (concat (take i filters)) + size f.
Proof.
  intros Hf Hsmall.
  destruct (bounds_lookup 0 filters _ f Hf) as [Hstart Hlimit].
  pose proof (part_bounded filters _ f Hf) as Hbound.
  pose proof (size_nonneg (concat (take i filters))) as Hs0.
  pose proof (size_nonneg f) as Hf0.
  set (X := size (concat (take i filters))) in *.
  assert (Hb1 : map wrap32 (bounds 0 filters) !! i = Some (wrap32 X)).
  { rewrite lookup_map, list_lookup_lookup_total_lt.
    - by rewrite Hstart, Z.add_0_l.
    - rewrite length_bounds. apply lookup_lt_Some in Hf. lia. }
  assert (Hb2 : map wrap32 (bounds 0 filters) !! S i = Some (wrap32 (X + size f))).
  { rewrite lookup_map, list_lookup_lookup_total_lt.
    - by rewrite Hlimit, Z.add_0_l.
    - rewrite length_bounds. apply lookup_lt_Some in Hf. lia. }
  rewrite contents_of_bounds.
  replace (size (concat filters) + Z.of_nat i * 4)
    with (size (concat filters) + 4 * Z.of_nat i) by lia.
  rewrite (DecodeFixed32_word _ _ _ _ _ Hb1).
  replace (size (concat filters) + 4 * Z.of_nat i + 4)
    with (size (concat filters) + 4 * Z.of_nat (S i)) by lia.
  rewrite (DecodeFixed32_word _ _ _ _ _ Hb2).
  rewrite (wrap32_small X), (wrap32_small (X + size f)) by lia.
  rewrite (wrap32_small X), (wrap32_small (X + size f)) by lia.
  done.
Qed.

Section WithShift.
Variable shift_out_of_range : Z -> Z -> Z.

(** On the block [Finish] leaves, the reader asks the policy about the
    filter of the block's window; past the last window it answers
    true. *)
Lemma KeyMayMatch_contents_of P filters block_offset key :
  size (concat filters) < 2 ^ 32 -> 0 <= block_offset ->
  FilterBlockReader.KeyMayMatch shift_out_of_range
    (FilterBlockReader.new P (contents_of filters)) block_offset key
  = match filters !! Z.to_nat (block_offset / FilterBlockBuilder.kFilterBase) with
    | Some f => FilterPolicy.KeyMayMatch P key f
    | None => true
    end.
Proof.
  intros Hsmall Hbo. rewrite new_contents_of by done.
  unfold FilterBlockReader.KeyMayMatch, FilterBlockReader.window_index.
  cbn [FilterBlockReader.base_lg_ FilterBlockReader.num_ FilterBlockReader.data_
       FilterBlockReader.offset_ FilterBlockReader.policy_].
  change ((0 <=? FilterBlockBuilder.kFilterBaseLg)
          && (FilterBlockBuilder.kFilterBaseLg <? 64)) with true.
  cbv iota. rewrite Z.shiftr_div_pow2 by done.
  change (2 ^ FilterBlockBuilder.kFilterBaseLg) with FilterBlockBuilder.kFilterBase.
  set (index := block_offset / FilterBlockBuilder.kFilterBase).
  assert (Hidx : 0 <= index) by (apply Z.div_pos; [done|reflexivity]).
  destruct (Z.ltb_spec index (size filters)) as [Hlt|Hge].
  - destruct (filters !! Z.to_nat index) as [f|] eqn:Hf.
    2:{ apply lookup_ge_None in Hf. unfold size in Hlt. lia. }
    destruct (bounds_lookup 0 filters _ f Hf) as [Hstart Hlimit].
    pose proof (part_bounded filters _ f Hf) as Hbound.
    pose proof (size_nonneg (concat (take (Z.to_nat index) filters))) as Hs0.
    pose proof (size_nonneg f) as Hf0.
    set (X := size (concat (take (Z.to_nat index) filters))) in *.
    assert (Hb1 : map wrap32 (bounds 0 filters) !! Z.to_nat index = Some (wrap32 X)).
    { rewrite lookup_map, list_lookup_lookup_total_lt.
      - by rewrite Hstart, Z.add_0_l.
      - rewrite length_bounds. apply lookup_lt_Some in Hf. lia. }
    assert (Hb2 : map wrap32 (bounds 0 filters) !! S (Z.to_nat index)
                  = Some (wrap32 (X + size f))).
    { rewrite lookup_map, list_lookup_lookup_total_lt.
      - by rewrite Hlimit, Z.add_0_l.
      - rewrite length_bounds. apply lookup_lt_Some in Hf. lia. }
    rewrite contents_of_bounds.
    replace (size (concat filters) + index * 4)
      with (size (concat filters) + 4 * Z.of_nat (Z.to_nat index)) by lia.
    rewrite (DecodeFixed32_word _ _ _ _ _ Hb1).
    replace (size (concat filters) + 4 * Z.of_nat (Z.to_nat index) + 4)
      with (size (concat filters) + 4 * Z.of_nat (S (Z.to_nat index))) by lia.
    rewrite (DecodeFixed32_word _ _ _ _ _ Hb2).
    rewrite (wrap32_small X), (wrap32_small (X + size f)) by lia.
    rewrite (wrap32_small X), (wrap32_small (X + size f)) by lia.
    destruct (Z.leb_spec X (X + size f)); [|lia].
    destruct (Z.leb_spec (X + size f) (size (concat filters))); [|lia].
    cbn [andb]. f_equal.
    replace (X + size f - X) with (size f) by lia.
    rewrite slice_app_l by lia. by apply slice_part.
  - destruct (filters !! Z.to_nat index) as [f|] eqn:Hf; [|done].
    apply lookup_lt_Some in Hf. unfold size in Hge. lia.
Qed.

Lemma window_index_contents_of P filters block_offset :
  size (concat filters) < 2 ^ 32 -> 0 <= block_offset ->
  FilterBlockReader.window_index shift_out_of_range
    (FilterBlockReader.new P (contents_of filters)) block_offset
  = block_offset / FilterBlockBuilder.kFilterBase.
Proof.
  intros Hsmall Hbo. rewrite new_contents_of by done.
  unfold FilterBlockReader.window_index. cbn [FilterBlockReader.base_lg_].
  change ((0 <=? FilterBlockBuilder.kFilterBaseLg)
          && (FilterBlockBuilder.kFilterBaseLg <? 64)) with true.
  cbv iota. by rewrite Z.shiftr_div_pow2.
Qed.

End WithShift.
End FilterBlockReaderFacts.

(** * The table builder *)
Module TableBuilderFacts.
Import TableBuilder TableBuilderView.

Lemma Append_ok data f :
  Forall (eq OK) (WritableFile.results f) ->
  exists f',
    WritableFile.Append data f = (f', OK)
    /\ WritableFile.appended f' = WritableFile.appended f ++ data
    /\ Forall (eq OK) (WritableFile.results f').
Proof.
  intros Hok. unfold WritableFile.Append.
  destruct (WritableFile.results f) as [|s rest] eqn:Hres.
  - eexists. split; [reflexivity|]. cbn. split; [done|constructor].
  - inversion Hok as [|? ? <- Hrest]. eexists. split; [reflexivity|]. by cbn.
Qed.

Lemma Flush_file_ok f :
  Forall (eq OK) (WritableFile.results f) ->
  exists f',
    WritableFile.Flush f = (f', OK)
    /\ WritableFile.appended f' = WritableFile.appended f
    /\ Forall (eq OK) (WritableFile.results f').
Proof.
  intros Hok. unfold WritableFile.Flush.
  destruct (WritableFile.results f) as [|s rest] eqn:Hres.
  - exists f. rewrite Hres. by repeat split.
  - inversion Hok as [|? ? <- Hrest]. eexists. split; [reflexivity|]. by cbn.
Qed.

Lemma BlockBuilder_Add_nonempty interval key value b :
  BlockBuilder.empty (BlockBuilder.Add interval key value b) = false.
Proof.
  unfold BlockBuilder.empty, BlockBuilder.Add.
  destruct (BlockBuilder.counter_ b <? interval); cbn [BlockBuilder.buffer_].
  all: match goal with
       | |- match ?l with [] => true | _ :: _ => false end = false =>
           destruct l eqn:E; [|done]
       end.
  all: unfold Coding.PutVarint32 in E;
    do 2 (apply app_eq_nil in E as [E _]); apply app_eq_nil in E as [_ E];
    cbn [Coding.EncodeVarint] in E.
  all: match type of E with
       | (if ?c then _ else _) = _ => destruct c; discriminate
       end.
Qed.

Lemma wrap64_add_l a b : wrap64 (wrap64 a + b) = wrap64 (a + b).
Proof. unfold wrap64. apply Zplus_mod_idemp_l. Qed.

Section WithPort.
Variable crc32c_Value : list Z -> Z.
Variable crc32c_Extend : Z -> list Z -> Z.
Variable Snappy_Compress : list Z -> option (list Z).

Abbreviation WriteRawBlock := (WriteRawBlock crc32c_Value crc32c_Extend).
Abbreviation WriteBlock := (WriteBlock crc32c_Value crc32c_Extend Snappy_Compress).
Abbreviation Flush := (Flush crc32c_Value crc32c_Extend Snappy_Compress).
Abbreviation Add := (Add crc32c_Value crc32c_Extend Snappy_Compress).
Abbreviation Finish := (Finish crc32c_Value crc32c_Extend Snappy_Compress).
Abbreviation run := (run crc32c_Value crc32c_Extend Snappy_Compress).
Abbreviation do_call := (do_call crc32c_Value crc32c_Extend Snappy_Compress).

Abbreviation trailer := (trailer crc32c_Value crc32c_Extend).

Lemma size_trailer c t : size (trailer c t) = kBlockTrailerSize.
Proof. reflexivity. Qed.

(** WriteRawBlock on a sink without errors. *)
Lemma WriteRawBlock_ok base block_contents type r :
  io_ok base r ->
  exists r',
    WriteRawBlock block_contents type r
    = (r', {| BlockHandle.offset_ := offset r;
              BlockHandle.size_ := size block_contents |})
    /\ io_ok base r'
    /\ WritableFile.appended (file r')
       = WritableFile.appended (file r) ++ block_contents
         ++ trailer block_contents type
    /\ offset r' = wrap64 (offset r + (size block_contents + kBlockTrailerSize))
    /\ filter_block r' = filter_block r
    /\ options r' = options r
    /\ index_block_options r' = index_block_options r
    /\ data_block r' = data_block r
    /\ index_block r' = index_block r
    /\ pending_index_entry r' = pending_index_entry r
    /\ pending_handle r' = pending_handle r
    /\ last_key r' = last_key r.
Proof.
  intros (Hst & Hres & Hw0 & Hoff). unfold TableBuilder.WriteRawBlock.
  destruct (Append_ok block_contents (file r) Hres) as (f1 & -> & Ha1 & Hr1).
  cbn [status set_status set_file file ok].
  destruct (Append_ok (trailer block_contents type) f1 Hr1) as (f2 & E2 & Ha2 & Hr2).
  unfold TableBuilderView.trailer in E2. rewrite E2.
  cbn [status set_status set_file file ok].
  eexists. split; [reflexivity|].
  split_and!; cbn; try done.
  - split_and!; try done.
    + unfold written in *. cbn. rewrite Ha2, Ha1, !size_app.
      pose proof (size_nonneg block_contents).
      pose proof (size_nonneg (trailer block_contents type)). lia.
    + unfold written. cbn. rewrite Ha2, Ha1, Hoff.
      rewrite wrap64_add_l. f_equal. unfold written.
      rewrite !size_app, size_trailer. lia.
  - by rewrite Ha2, Ha1, app_assoc.
Qed.

(** WriteBlock on a sink without errors: some bytes [c] of some type
    [t] go out with their trailer, and the builder comes back reset. *)
Lemma WriteBlock_ok base block r :
  io_ok base r ->
  exists r' c t,
    WriteBlock block r
    = (r', {| BlockHandle.offset_ := offset r; BlockHandle.size_ := size c |},
       BlockBuilder.new)
    /\ io_ok base r'
    /\ WritableFile.appended (file r')
       = WritableFile.appended (file r) ++ c ++ trailer c t
    /\ offset r' = wrap64 (offset r + (size c + kBlockTrailerSize))
    /\ filter_block r' = filter_block r
    /\ options r' = options r
    /\ index_block_options r' = index_block_options r
    /\ data_block r' = data_block r
    /\ index_block r' = index_block r
    /\ pending_index_entry r' = pending_index_entry r
    /\ pending_handle r' = pending_handle r
    /\ last_key r' = last_key r.
Proof.
  intros Hio. unfold TableBuilder.WriteBlock.
  match goal with
  | |- context [match ?e with (_, _) => _ end] => destruct e as [c t]
  end.
  destruct (WriteRawBlock_ok base c t r Hio) as (r' & -> & Hrest).
  exists r', c, t. split; [reflexivity|exact Hrest].
Qed.

Lemma written_app base r r' w :
  WritableFile.appended (file r') = WritableFile.appended (file r) ++ w ->
  written base r' = written base r + size w.
Proof. unfold written. intros ->. rewrite size_app. lia. Qed.

(** Flush: nothing on an empty data block; otherwise one block goes
    out, the index entry becomes pending and the filter builder is told
    the new offset. *)
Lemma Flush_cases base r :
  io_ok base r ->
  (BlockBuilder.empty (data_block r) = true /\ Flush r = r)
  \/ (BlockBuilder.empty (data_block r) = false
      /\ exists w,
          io_ok base (Flush r)
          /\ WritableFile.appended (file (Flush r))
             = WritableFile.appended (file r) ++ w
          /\ kBlockTrailerSize <= size w
          /\ offset (Flush r) = wrap64 (offset r + size w)
          /\ filter_block (Flush r)
             = FilterBlockBuilder.StartBlock (offset (Flush r)) <$> filter_block r
          /\ pending_index_entry (Flush r) = true
          /\ data_block (Flush r) = BlockBuilder.new
          /\ BlockHandle.offset_ (pending_handle (Flush r)) = offset r
          /\ options (Flush r) = options r).
Proof.
  intros Hio. pose proof Hio as (Hst & _). unfold TableBuilder.Flush.
  rewrite Hst. cbn [ok negb].
  destruct (BlockBuilder.empty (data_block r)) eqn:He; [by left|right].
  split; [done|].
  destruct (WriteBlock_ok base (data_block r) r Hio)
    as (r' & c & t & -> & Hio' & Happ & Hoff & Hfb & Hopt & _).
  simpl_rep.
  pose proof Hio' as (Hst' & Hres' & Hw' & Ho').
  rewrite Hst'. cbn [ok]. simpl_rep.
  destruct (Flush_file_ok (file r') Hres') as (f' & -> & Ha' & Hr').
  exists (c ++ trailer c t).
  assert (Hsz : size (c ++ trailer c t) = size c + kBlockTrailerSize).
  { by rewrite size_app, size_trailer. }
  simpl_rep.
  assert (Hio2 : forall r2, status r2 = OK -> file r2 = f' -> offset r2 = offset r' ->
                   io_ok base r2).
  { intros r2 H1 H2 H3. unfold io_ok, written in *.
    rewrite H1, H2, H3, Ha'. by split_and!. }
  destruct (filter_block r') as [fb|] eqn:Hfb'; rewrite <- Hfb; cbn [fmap option_fmap option_map].
  all: split_and!; simpl_rep; rewrite ?Ha'; try done.
  all: try (by apply Hio2).
  all: try (rewrite Hsz; pose proof (size_nonneg c); unfold kBlockTrailerSize; lia).
  all: by rewrite Hsz.
Qed.

Lemma Flush_io base r :
  io_ok base r ->
  io_ok base (Flush r) /\ written base r <= written base (Flush r).
Proof.
  intros Hio. destruct (Flush_cases base r Hio) as [[_ ->] | [_ (w & Hio' & Happ & Hw & _)]].
  - split; [done|lia].
  - split; [done|]. rewrite (written_app _ _ _ _ Happ).
    unfold kBlockTrailerSize in Hw. lia.
Qed.

(** Add, up to its closing Flush: the state [r_mid] in which the key has
    gone into the data block and the filter builder. *)
Lemma Add_cases key value r :
  status r = OK ->
  exists r_mid,
    (Add key value r = r_mid \/ Add key value r = Flush r_mid)
    /\ file r_mid = file r
    /\ status r_mid = OK
    /\ offset r_mid = offset r
    /\ filter_block r_mid = FilterBlockBuilder.AddKey key <$> filter_block r
    /\ options r_mid = options r
    /\ pending_index_entry r_mid = false
    /\ BlockBuilder.empty (data_block r_mid) = false.
Proof.
  intros Hst. unfold TableBuilder.Add. rewrite Hst. cbn [ok negb].
  match goal with
  | |- context [if ?c then TableBuilder.Flush _ _ _ ?m else _] =>
      exists m; destruct c
  end.
  all: split; [auto|].
  all: destruct (pending_index_entry r) eqn:Hp;
    destruct (filter_block r) eqn:Hfb; simpl_rep; rewrite ?Hfb, ?Hp; simpl_rep;
    split_and!; try done.
  all: apply BlockBuilder_Add_nonempty.
Qed.

Lemma io_ok_same base r r' :
  io_ok base r -> status r' = status r -> file r' = file r ->
  offset r' = offset r -> io_ok base r'.
Proof.
  unfold io_ok, written. intros (H1 & H2 & H3 & H4) -> -> ->. by split_and!.
Qed.

Lemma written_same base r r' :
  file r' = file r -> written base r' = written base r.
Proof. unfold written. by intros ->. Qed.

Lemma Add_io base key value r :
  io_ok base r ->
  io_ok base (Add key value r)
  /\ written base r <= written base (Add key value r).
Proof.
  intros Hio. pose proof Hio as (Hst & _).
  destruct (Add_cases key value r Hst)
    as (r_mid & Hcase & Hf & Hs & Ho & _).
  assert (Hmid : io_ok base r_mid) by (eapply io_ok_same; eauto; congruence).
  rewrite <- (written_same base r r_mid Hf).
  destruct Hcase as [-> | ->]; [split; [done|lia]|].
  by apply Flush_io.
Qed.

Lemma do_call_io base r c :
  io_ok base r ->
  io_ok base (do_call r c) /\ written base r <= written base (do_call r c).
Proof. destruct c; cbn; [apply Add_io | apply Flush_io]. Qed.

Lemma run_cons c calls r : run (c :: calls) r = run calls (do_call r c).
Proof. reflexivity. Qed.

Lemma run_app calls1 calls2 r : run (calls1 ++ calls2) r = run calls2 (run calls1 r).
Proof. apply fold_left_app. Qed.

Lemma run_io base calls r :
  io_ok base r ->
  io_ok base (run calls r) /\ written base r <= written base (run calls r).
Proof.
  revert r. induction calls as [|c calls IH]; intros r Hio.
  - split; [done|]. cbn. lia.
  - rewrite run_cons. destruct (do_call_io base r c Hio) as [Hio' Hle].
    destruct (IH _ Hio') as [Hio'' Hle']. split; [done|lia].
Qed.

(** An offset that has not wrapped is the number of bytes written. *)
Lemma io_ok_offset base r :
  io_ok base r -> written base r < 2 ^ 64 -> offset r = written base r.
Proof. intros (_ & _ & H0 & ->) Hlt. apply wrap64_small. lia. Qed.

Section WithPolicy.
Context (P : FilterPolicy.t) `{!LawfulPolicy P}.

Lemma filter_ok_drop r n x H E :
  filter_ok P r n (x :: H) E -> filter_ok P r n H E.
Proof.
  intros (fb & Hfb & filters & pending & HP & Hrep & HM & Hn & Hcov & Hpin).
  exists fb. split; [done|]. exists filters, pending. split_and!; try done.
  intros bo k Hin. apply Hcov. by right.
Qed.

Lemma filter_ok_weaken r n n' H E :
  filter_ok P r n H E -> n <= n' -> filter_ok P r n' H E.
Proof.
  intros (fb & Hfb & Hinv) Hle. exists fb. split; [done|].
  by eapply FilterBlockFacts.invariant_weaken.
Qed.

Lemma Flush_filter base r n H E :
  io_ok base r -> filter_ok P r n H E -> n < 2 ^ 31 ->
  written base (Flush r) < 2 ^ 64 ->
  filter_ok P (Flush r) n H E.
Proof.
  intros Hio (fb & Hfb & Hinv) Hn Hlt.
  destruct (Flush_cases base r Hio)
    as [[_ ->] | [_ (w & Hio' & Happ & Hw & Hoff & Hfb' & _)]].
  - by exists fb.
  - pose proof (written_app base _ _ _ Happ) as Hwr.
    pose proof (size_nonneg w).
    pose proof (io_ok_offset base _ Hio' Hlt) as Ho'.
    pose proof (io_ok_offset base _ Hio ltac:(lia)) as Ho.
    exists (FilterBlockBuilder.StartBlock (offset (Flush r)) fb).
    split; [by rewrite Hfb', Hfb|].
    eapply FilterBlockFacts.StartBlock_invariant; [done|exact Hinv|done|].
    apply Z.div_le_mono; [reflexivity|lia].
Qed.

(** A Flush that moves the offset over whole windows records their
    filters as empty. *)
Lemma Flush_pins base r n H E window :
  io_ok base r -> filter_ok P r n H E -> n < 2 ^ 31 ->
  written base (Flush r) < 2 ^ 64 ->
  offset r / FilterBlockBuilder.kFilterBase < window
    < offset (Flush r) / FilterBlockBuilder.kFilterBase ->
  filter_ok P (Flush r) n H ((window, []) :: E).
Proof.
  intros Hio (fb & Hfb & Hinv) Hn Hlt Hw.
  destruct (Flush_cases base r Hio)
    as [[_ E0] | [_ (w & Hio' & Happ & _ & Hoff & Hfb' & _)]].
  - rewrite E0 in Hw. lia.
  - exists (FilterBlockBuilder.StartBlock (offset (Flush r)) fb).
    split; [by rewrite Hfb', Hfb|].
    eapply FilterBlockFacts.StartBlock_pins; [done|exact Hinv|done|done].
Qed.

Lemma Add_filter base key value r n H E :
  io_ok base r -> filter_ok P r n H E -> n + 1 < 2 ^ 31 ->
  written base (Add key value r) < 2 ^ 64 ->
  filter_ok P (Add key value r) (n + 1) ((offset r, key) :: H) E.
Proof.
  intros Hio (fb & Hfb & Hinv) Hn Hlt. pose proof Hio as (Hst & _ & _ & Hoff).
  destruct (Add_cases key value r Hst)
    as (r_mid & Hcase & Hf & Hs & Ho & Hfbm & _).
  assert (Hmid : io_ok base r_mid) by (eapply io_ok_same; eauto; congruence).
  assert (Hfm : filter_ok P r_mid (n + 1) ((offset r, key) :: H) E).
  { exists (FilterBlockBuilder.AddKey key fb). split; [by rewrite Hfbm, Hfb|].
    rewrite Ho. apply FilterBlockFacts.AddKey_invariant; [done| |done].
    rewrite Hoff. apply wrap64_range. }
  destruct Hcase as [-> | E0]; [done|]. rewrite E0 in *.
  by eapply Flush_filter.
Qed.

Lemma Add_pins base key value r n H E window :
  io_ok base r -> filter_ok P r n H E -> n + 1 < 2 ^ 31 ->
  written base (Add key value r) < 2 ^ 64 ->
  offset r / FilterBlockBuilder.kFilterBase < window
    < offset (Add key value r) / FilterBlockBuilder.kFilterBase ->
  filter_ok P (Add key value r) (n + 1) H ((window, []) :: E).
Proof.
  intros Hio (fb & Hfb & Hinv) Hn Hlt Hw. pose proof Hio as (Hst & _ & _ & Hoff).
  destruct (Add_cases key value r Hst)
    as (r_mid & Hcase & Hf & Hs & Ho & Hfbm & _).
  assert (Hmid : io_ok base r_mid) by (eapply io_ok_same; eauto; congruence).
  assert (Hfm : filter_ok P r_mid (n + 1) H E).
  { eapply filter_ok_drop.
    exists (FilterBlockBuilder.AddKey key fb). split; [by rewrite Hfbm, Hfb|].
    rewrite Ho.
    apply (FilterBlockFacts.AddKey_invariant P key (offset r)); [done| |done].
    rewrite Hoff. apply wrap64_range. }
  destruct Hcase as [E0 | E0]; rewrite E0 in *.
  - rewrite Ho in Hw. lia.
  - rewrite <- Ho in Hw. eapply Flush_pins; [done|done|lia|done|done].
Qed.

Lemma do_call_filter base r c n H E :
  io_ok base r -> filter_ok P r n H E -> n + 1 < 2 ^ 31 ->
  written base (do_call r c) < 2 ^ 64 ->
  filter_ok P (do_call r c) (n + 1) H E.
Proof.
  intros Hio Hf Hn Hlt. destruct c as [key value|]; cbn in *.
  - eapply filter_ok_drop. by eapply Add_filter.
  - eapply filter_ok_weaken; [eapply Flush_filter; eauto; lia|lia].
Qed.

Lemma do_call_pins base r c n H E window :
  io_ok base r -> filter_ok P r n H E -> n + 1 < 2 ^ 31 ->
  written base (do_call r c) < 2 ^ 64 ->
  offset r / FilterBlockBuilder.kFilterBase < window
    < offset (do_call r c) / FilterBlockBuilder.kFilterBase ->
  filter_ok P (do_call r c) (n + 1) H ((window, []) :: E).
Proof.
  intros Hio Hf Hn Hlt Hw. destruct c as [key value|]; cbn [TableBuilder.do_call] in *.
  - by eapply Add_pins.
  - eapply filter_ok_weaken; [eapply Flush_pins; eauto; lia|lia].
Qed.

Lemma run_filter base calls r n H E :
  io_ok base r -> filter_ok P r n H E -> n + size calls < 2 ^ 31 ->
  written base (run calls r) < 2 ^ 64 ->
  filter_ok P (run calls r) (n + size calls) H E.
Proof.
  revert r n. induction calls as [|c calls IH]; intros r n Hio Hf Hn Hlt.
  - cbn. by rewrite Z.add_0_r.
  - rewrite run_cons in *.
    destruct (do_call_io base r c Hio) as [Hio' Hle].
    destruct (run_io base calls _ Hio') as [_ Hle'].
    assert (Hsz : size (c :: calls) = 1 + size calls)
      by (unfold size; cbn [length]; lia).
    rewrite Hsz in *. pose proof (size_nonneg calls).
    replace (n + (1 + size calls)) with (n + 1 + size calls) by lia.
    apply IH; [done| |lia|done].
    apply (do_call_filter base); [done|done|lia|lia].
Qed.

Lemma new_filter_ok opt f :
  filter_policy opt = Some P ->
  filter_ok P (new opt f) 0 [] [].
Proof.
  intros Hp. unfold new, new_Rep. cbn [filter_block]. rewrite Hp.
  eexists. split; [reflexivity|]. cbn.
  apply FilterBlockFacts.new_invariant.
Qed.

End WithPolicy.

Lemma new_io_ok opt f :
  Forall (eq OK) (WritableFile.results f) ->
  io_ok (size (WritableFile.appended f)) (new opt f).
Proof.
  intros Hres. unfold new, new_Rep. cbn [filter_block].
  destruct (filter_policy opt); unfold io_ok, written; cbn.
  all: rewrite Z.sub_diag; by split_and!.
Qed.

(** Finish on a sink without errors: the io invariant holds at the
    end, and the filter block is what the filter builder's Finish
    leaves after the last Flush. *)
Lemma Finish_ok base r :
  io_ok base r ->
  io_ok base (Finish r)
  /\ written base r <= written base (Finish r)
  /\ written base (Flush r) <= written base (Finish r)
  /\ filter_block (Finish r)
     = FilterBlockBuilder.Finish <$> filter_block (Flush r).
Proof.
  intros Hio. unfold TableBuilder.Finish.
  destruct (Flush_io base r Hio) as [Hio1 Hle1].
  set (r1 := Flush r) in *. clearbody r1.
  assert (Hio2 : io_ok base (set_closed true r1)) by (by eapply io_ok_same).
  assert (Hw2 : written base (set_closed true r1) = written base r1) by done.
  assert (Hfb2 : filter_block (set_closed true r1) = filter_block r1) by done.
  set (r2 := set_closed true r1) in *. clearbody r2.
  (* the filter block *)
  match goal with
  | |- context [match ?e with (_, _) => _ end] =>
      destruct e as [r3 filter_block_handle] eqn:E3
  end.
  assert (H3 : io_ok base r3 /\ written base r2 <= written base r3
               /\ filter_block r3 = FilterBlockBuilder.Finish <$> filter_block r2).
  { destruct (filter_block r2) as [fb|] eqn:Hfb.
    - pose proof Hio2 as (Hst & _). rewrite Hst in E3. cbn [ok] in E3.
      assert (Hio2' : io_ok base (set_filter_block
                                    (Some (FilterBlockBuilder.Finish fb)) r2))
        by (by eapply io_ok_same).
      destruct (WriteRawBlock_ok base
                  (FilterBlockBuilder.result_ (FilterBlockBuilder.Finish fb))
                  kNoCompression _ Hio2')
        as (r' & E & Hio' & Happ & _ & Hfb' & _).
      rewrite E in E3. injection E3 as <- <-.
      split; [done|]. split; [|by rewrite Hfb'].
      rewrite (written_app base _ _ _ Happ).
      match goal with |- _ <= _ + size ?w => pose proof (size_nonneg w) end.
      unfold written in *. simpl_rep. lia.
    - injection E3 as <- <-. by split_and!. }
  destruct H3 as (Hio3 & Hle3 & Hfb3). clear E3.
  (* the metaindex block *)
  match goal with
  | |- context [match ?e with (_, _) => _ end] =>
      destruct e as [r4 metaindex_block_handle] eqn:E4
  end.
  assert (H4 : io_ok base r4 /\ written base r3 <= written base r4
               /\ filter_block r4 = filter_block r3).
  { pose proof Hio3 as (Hst & _). rewrite Hst in E4. cbn [ok] in E4.
    match type of E4 with
    | context [TableBuilder.WriteBlock _ _ _ ?b ?r] =>
        destruct (WriteBlock_ok base b r Hio3)
          as (r' & c & t & E & Hio' & Happ & _ & Hfb' & _)
    end.
    rewrite E in E4. injection E4 as <- <-.
    split; [done|]. split; [|done].
    rewrite (written_app base _ _ _ Happ).
    match goal with |- _ <= _ + size ?w => pose proof (size_nonneg w) end. lia. }
  destruct H4 as (Hio4 & Hle4 & Hfb4). clear E4.
  (* the index block *)
  match goal with
  | |- context [match ?e with (_, _) => _ end] =>
      destruct e as [r5 index_block_handle] eqn:E5
  end.
  assert (H5 : io_ok base r5 /\ written base r4 <= written base r5
               /\ filter_block r5 = filter_block r4).
  { pose proof Hio4 as (Hst & _). rewrite Hst in E5. cbn [ok] in E5.
    match type of E5 with
    | context [TableBuilder.WriteBlock _ _ _ ?b ?r] =>
        assert (Hior : io_ok base r /\ written base r = written base r4
                       /\ filter_block r = filter_block r4)
          by (destruct (pending_index_entry r4);
              (split; [by eapply io_ok_same|done]));
        destruct Hior as (Hior & Hwr & Hfbr);
        destruct (WriteBlock_ok base b r Hior)
          as (r' & c & t & E & Hio' & Happ & _ & Hfb' & _)
    end.
    rewrite E in E5. injection E5 as <- <-.
    split; [by eapply io_ok_same|]. simpl_rep. split; [|congruence].
    unfold written in *. simpl_rep. rewrite Happ, size_app in *.
    match goal with |- context [size (c ++ ?w)] => pose proof (size_nonneg (c ++ w)) end.
    lia. }
  destruct H5 as (Hio5 & Hle5 & Hfb5). clear E5.
  (* the footer *)
  pose proof Hio5 as (Hst5 & Hres5 & Hw5 & Hoff5). rewrite Hst5. cbn [ok].
  match goal with
  | |- context [WritableFile.Append ?d (file r5)] =>
      destruct (Append_ok d (file r5) Hres5) as (f' & -> & Ha' & Hr');
      pose proof (size_nonneg d) as Hd
  end.
  simpl_rep. cbn [ok]. simpl_rep.
  split_and!.
  - unfold io_ok, written in *. simpl_rep. rewrite Ha', size_app.
    split_and!; try done; [lia|].
    rewrite Hoff5, wrap64_add_l. f_equal. lia.
  - unfold written in *. simpl_rep. rewrite Ha', size_app. lia.
  - unfold written in *. simpl_rep. rewrite Ha', size_app. lia.
  - congruence.
Qed.

End WithPort.
End TableBuilderFacts.

(** * Counting filter segments *)
Module SegmentFacts.
Import TableBuilder TableBuilderView TableBuilderFacts ClaimView.

Lemma GenerateFilter_count b :
  size (FilterBlockBuilder.filter_offsets_ (FilterBlockBuilder.GenerateFilter b))
  = size (FilterBlockBuilder.filter_offsets_ b) + 1.
Proof.
  unfold FilterBlockBuilder.GenerateFilter.
  destruct (size (FilterBlockBuilder.start_ b) =? 0);
    cbn [FilterBlockBuilder.filter_offsets_]; by rewrite size_app.
Qed.

Lemma StartBlock_loop_count fuel idx b :
  size (FilterBlockBuilder.filter_offsets_ b) <= idx ->
  idx - size (FilterBlockBuilder.filter_offsets_ b) <= Z.of_nat fuel ->
  size (FilterBlockBuilder.filter_offsets_
          (FilterBlockBuilder.StartBlock_loop fuel idx b)) = idx.
Proof.
  revert b. induction fuel as [|fuel IH]; intros b Hle Hfuel.
  - cbn. lia.
  - cbn [FilterBlockBuilder.StartBlock_loop].
    destruct (Z.gtb_spec idx (size (FilterBlockBuilder.filter_offsets_ b))).
    + apply IH; rewrite GenerateFilter_count; lia.
    + lia.
Qed.

Lemma StartBlock_loop_keeps fuel idx b :
  idx <= size (FilterBlockBuilder.filter_offsets_ b) ->
  FilterBlockBuilder.StartBlock_loop fuel idx b = b.
Proof.
  intros Hle. destruct fuel; [done|]. cbn.
  destruct (Z.gtb_spec idx (size (FilterBlockBuilder.filter_offsets_ b))); [lia|done].
Qed.

(** StartBlock brings the number of filters up to
    [block_offset / kFilterBase], and never beyond. *)
Lemma StartBlock_count block_offset b :
  size (FilterBlockBuilder.filter_offsets_ b)
    <= block_offset / FilterBlockBuilder.kFilterBase ->
  size (FilterBlockBuilder.filter_offsets_
          (FilterBlockBuilder.StartBlock block_offset b))
  = block_offset / FilterBlockBuilder.kFilterBase.
Proof.
  intros Hle. unfold FilterBlockBuilder.StartBlock.
  apply StartBlock_loop_count; [done|].
  pose proof (size_nonneg (FilterBlockBuilder.filter_offsets_ b)). lia.
Qed.

(** The loop of StartBlock ends because its condition is false: the fuel
    of the embedding is never what stops it. *)
Lemma StartBlock_exit block_offset b :
  block_offset / FilterBlockBuilder.kFilterBase
  <= size (FilterBlockBuilder.filter_offsets_
             (FilterBlockBuilder.StartBlock block_offset b)).
Proof.
  destruct (Z.le_gt_cases (size (FilterBlockBuilder.filter_offsets_ b))
              (block_offset / FilterBlockBuilder.kFilterBase)) as [Hle|Hgt].
  - rewrite StartBlock_count by done. lia.
  - unfold FilterBlockBuilder.StartBlock.
    rewrite StartBlock_loop_keeps by lia. lia.
Qed.

Section WithPort.
Variable crc32c_Value : list Z -> Z.
Variable crc32c_Extend : Z -> list Z -> Z.
Variable Snappy_Compress : list Z -> option (list Z).

Abbreviation Flush := (Flush crc32c_Value crc32c_Extend Snappy_Compress).
Abbreviation Add := (Add crc32c_Value crc32c_Extend Snappy_Compress).
Abbreviation run := (run crc32c_Value crc32c_Extend Snappy_Compress).
Abbreviation do_call := (do_call crc32c_Value crc32c_Extend Snappy_Compress).

Lemma Flush_in_step base r :
  io_ok base r -> in_step r -> written base (Flush r) < 2 ^ 64 ->
  in_step (Flush r).
Proof.
  intros Hio [Hseg [fb Hfb]] Hlt.
  destruct (Flush_cases crc32c_Value crc32c_Extend Snappy_Compress base r Hio)
    as [[_ ->] | [_ (w & Hio' & Happ & Hw & Hoff & Hfb' & _)]].
  - split; [done|by exists fb].
  - pose proof (written_app base _ _ _ Happ) as Hwr.
    pose proof (size_nonneg w).
    pose proof (io_ok_offset base _ Hio' Hlt) as Ho'.
    pose proof (io_ok_offset base _ Hio ltac:(lia)) as Ho.
    unfold in_step, segments in *. rewrite Hfb', Hfb in *. cbn.
    split; [|by eexists]. apply StartBlock_count. rewrite Hseg.
    apply Z.div_le_mono; [reflexivity|lia].
Qed.

Lemma Add_in_step base key value r :
  io_ok base r -> in_step r -> written base (Add key value r) < 2 ^ 64 ->
  in_step (Add key value r).
Proof.
  intros Hio [Hseg [fb Hfb]] Hlt. pose proof Hio as (Hst & _).
  destruct (Add_cases crc32c_Value crc32c_Extend Snappy_Compress key value r Hst)
    as (r_mid & Hcase & Hf & Hs & Ho & Hfbm & _).
  assert (Hmid : io_ok base r_mid) by (eapply io_ok_same; eauto; congruence).
  assert (Hm : in_step r_mid).
  { unfold in_step, segments in *. rewrite Hfbm, Ho, Hfb in *. cbn.
    split; [done|by eexists]. }
  destruct Hcase as [-> | E]; [done|]. rewrite E in *.
  by eapply Flush_in_step.
Qed.

Lemma run_in_step base calls r :
  io_ok base r -> in_step r -> written base (run calls r) < 2 ^ 64 ->
  in_step (run calls r).
Proof.
  revert r. induction calls as [|c calls IH]; intros r Hio Hin Hlt; [done|].
  rewrite run_cons in *.
  destruct (do_call_io crc32c_Value crc32c_Extend Snappy_Compress base r c Hio) as [Hio' Hle].
  destruct (run_io crc32c_Value crc32c_Extend Snappy_Compress base calls _ Hio') as [_ Hle'].
  assert (Hlt1 : written base (do_call r c) < 2 ^ 64) by lia.
  apply IH; [done| |done].
  destruct c; cbn [TableBuilder.do_call] in *;
    [by eapply Add_in_step | by eapply Flush_in_step].
Qed.

Lemma new_in_step opt f :
  is_Some (filter_policy opt) -> in_step (new opt f).
Proof.
  intros [P HP]. unfold in_step, segments, new, new_Rep.
  cbn [filter_block]. rewrite HP. cbn. split; [done|by eexists].
Qed.

End WithPort.
End SegmentFacts.

(** * The pending index entry *)
Module PendingFacts.
Import TableBuilder TableBuilderView TableBuilderFacts.

Section WithPort.
Variable crc32c_Value : list Z -> Z.
Variable crc32c_Extend : Z -> list Z -> Z.
Variable Snappy_Compress : list Z -> option (list Z).

Abbreviation WriteRawBlock := (WriteRawBlock crc32c_Value crc32c_Extend).
Abbreviation WriteBlock := (WriteBlock crc32c_Value crc32c_Extend Snappy_Compress).
Abbreviation Flush := (Flush crc32c_Value crc32c_Extend Snappy_Compress).
Abbreviation Add := (Add crc32c_Value crc32c_Extend Snappy_Compress).
Abbreviation Finish := (Finish crc32c_Value crc32c_Extend Snappy_Compress).

(** Writing a block touches the file, the status and the offset only;
    errors of the sink make no difference to that. *)
Lemma WriteRawBlock_keeps c t r :
  data_block (WriteRawBlock c t r).1 = data_block r
  /\ pending_index_entry (WriteRawBlock c t r).1 = pending_index_entry r.
Proof.
  unfold TableBuilder.WriteRawBlock.
  destruct (WritableFile.Append c (file r)) as [f s]. simpl_rep.
  destruct (ok s); [|done].
  match goal with
  | |- context [WritableFile.Append ?d f] =>
      destruct (WritableFile.Append d f) as [f2 s2]
  end.
  simpl_rep. by destruct (ok s2).
Qed.

Lemma WriteBlock_keeps block r :
  data_block (WriteBlock block r).1.1 = data_block r
  /\ pending_index_entry (WriteBlock block r).1.1 = pending_index_entry r
  /\ (WriteBlock block r).2 = BlockBuilder.new.
Proof.
  unfold TableBuilder.WriteBlock.
  match goal with
  | |- context [match ?e with (_, _) => _ end] => destruct e as [c t]
  end.
  pose proof (WriteRawBlock_keeps c t r) as [H1 H2].
  destruct (WriteRawBlock c t r) as [r' h]. by cbn in *.
Qed.

Lemma empty_new : BlockBuilder.empty BlockBuilder.new = true.
Proof. reflexivity. Qed.

(** After a Flush that wrote something the data block is empty. *)
Lemma Flush_pending r :
  pending_invariant r -> pending_invariant (Flush r).
Proof.
  intros Hinv. unfold TableBuilder.Flush.
  destruct (negb (ok (status r))); [done|].
  destruct (BlockBuilder.empty (data_block r)); [done|].
  pose proof (WriteBlock_keeps (data_block r) r) as (_ & _ & Hb).
  destruct (WriteBlock (data_block r) r) as [[r' h] b]. cbn in Hb. subst b.
  intros _.
  match goal with
  | |- BlockBuilder.empty (data_block ?x) = true =>
      assert (E : data_block x = BlockBuilder.new); [|by rewrite E]
  end.
  simpl_rep. destruct (ok (status r')); simpl_rep.
  - destruct (WritableFile.Flush (file r')) as [f s]. simpl_rep.
    by destruct (filter_block r').
  - by destruct (filter_block r').
Qed.

Lemma Add_pending key value r :
  pending_invariant r -> pending_invariant (Add key value r).
Proof.
  intros Hinv. destruct (status r) eqn:Hst.
  - destruct (Add_cases crc32c_Value crc32c_Extend Snappy_Compress key value r Hst)
      as (r_mid & Hcase & _ & _ & _ & _ & _ & Hp & _).
    assert (Hm : pending_invariant r_mid) by (intros Hp'; congruence).
    destruct Hcase as [-> | ->]; [done|]. by apply Flush_pending.
  - unfold TableBuilder.Add. by rewrite Hst.
Qed.

Lemma new_pending opt f : pending_invariant (new opt f).
Proof.
  unfold pending_invariant, new, new_Rep. cbn [filter_block].
  by destruct (filter_policy opt).
Qed.

Lemma pending_same r r' :
  pending_invariant r -> data_block r' = data_block r ->
  (pending_index_entry r' = pending_index_entry r
   \/ pending_index_entry r' = false) ->
  pending_invariant r'.
Proof.
  unfold pending_invariant. intros Hinv -> [-> | ->]; [done|]. done.
Qed.

Lemma Finish_pending r :
  pending_invariant r -> pending_invariant (Finish r).
Proof.
  intros Hinv. unfold TableBuilder.Finish.
  pose proof (Flush_pending r Hinv) as H1.
  set (r1 := Flush r) in *. clearbody r1.
  assert (H2 : pending_invariant (set_closed true r1)) by done.
  set (r2 := set_closed true r1) in *. clearbody r2.
  match goal with
  | |- context [match ?e with (_, _) => _ end] =>
      destruct e as [r3 filter_block_handle] eqn:E3
  end.
  assert (H3 : pending_invariant r3).
  { destruct (filter_block r2) as [fb|]; [destruct (ok (status r2))|].
    - match type of E3 with
      | TableBuilder.WriteRawBlock _ _ ?c ?t ?r = _ =>
          pose proof (WriteRawBlock_keeps c t r) as [Ha Hb]; rewrite E3 in Ha, Hb
      end.
      eapply pending_same; [exact H2|exact Ha|by left].
    - by injection E3 as <- <-.
    - by injection E3 as <- <-. }
  clear E3.
  match goal with
  | |- context [match ?e with (_, _) => _ end] =>
      destruct e as [r4 metaindex_block_handle] eqn:E4
  end.
  assert (H4 : pending_invariant r4).
  { destruct (ok (status r3)); [|by injection E4 as <- <-].
    match type of E4 with
    | context [TableBuilder.WriteBlock _ _ _ ?b ?r] =>
        pose proof (WriteBlock_keeps b r) as (Ha & Hb & _);
        destruct (WriteBlock b r) as [[r' h'] b']
    end.
    injection E4 as <- <-. eapply pending_same; [exact H3|exact Ha|by left]. }
  clear E4.
  match goal with
  | |- context [match ?e with (_, _) => _ end] =>
      destruct e as [r5 index_block_handle] eqn:E5
  end.
  assert (H5 : pending_invariant r5).
  { destruct (ok (status r4)); [|by injection E5 as <- <-].
    match type of E5 with
    | context [TableBuilder.WriteBlock _ _ _ ?b ?r] =>
        assert (Hr : data_block r = data_block r4
                     /\ (pending_index_entry r = pending_index_entry r4
                         \/ pending_index_entry r = false))
          by (destruct (pending_index_entry r4) eqn:Hp; simpl_rep; auto);
        set (rr := r) in *; clearbody rr;
        pose proof (WriteBlock_keeps (index_block rr) rr) as (Ha & Hb & _);
        destruct (WriteBlock (index_block rr) rr) as [[r' h'] b']
    end.
    injection E5 as <- <-. destruct Hr as [Hd Hp]. cbn [fst] in Ha, Hb.
    eapply pending_same; [exact H4|simpl_rep; congruence|].
    simpl_rep. destruct Hp as [Hp|Hp]; [left|right]; congruence. }
  clear E5.
  destruct (ok (status r5)); [|done].
  match goal with
  | |- context [WritableFile.Append ?d (file r5)] =>
      destruct (WritableFile.Append d (file r5)) as [f s]
  end.
  simpl_rep. by destruct (ok s).
Qed.

End WithPort.
End PendingFacts.

(** * The properties of the specification *)

(** The built-in bloom policy honours the filter policy contract. *)
Lemma bloom_lawful Hash bits_per_key :
  0 <= bits_per_key < 2 ^ 31 ->
  LawfulPolicy (Bloom.NewBloomFilterPolicy Hash bits_per_key).
Proof.
  intros Hb keys dst Hn.
  destruct (BloomFacts.bloom_create_then_match Hash bits_per_key keys dst Hb Hn)
    as (bitmap & Heq & _ & Hmatch).
  exists (bitmap ++ [Bloom.k_ (Bloom.new_BloomFilterPolicy bits_per_key)]).
  split; [exact Heq|exact Hmatch].
Qed.

(** C2. The bloom policy has no false negatives: KeyMayMatch answers true
    on the filter CreateFilter appends for every key of the list, made with
    an [int] [bits_per_key >= 0] from a list whose length fits an [int]. *)
Theorem bloom_no_false_negatives
        (Hash : list Z -> Z -> Z) (bits_per_key : Z)
        (keys : list (list Z)) (dst key : list Z) :
  0 <= bits_per_key < 2 ^ 31 ->
  size keys < 2 ^ 31 ->
  key ∈ keys ->
  let policy := Bloom.NewBloomFilterPolicy Hash bits_per_key in
  let filter :=
    drop (length dst) (FilterPolicy.CreateFilter policy keys (size keys) dst) in
  FilterPolicy.KeyMayMatch policy key filter = true.
Proof.
  intros Hb Hn Hkey policy filter. subst policy filter.
  unfold Bloom.NewBloomFilterPolicy.
  cbn [FilterPolicy.CreateFilter FilterPolicy.KeyMayMatch].
  destruct (BloomFacts.bloom_create_then_match Hash bits_per_key keys dst Hb Hn)
    as (bitmap & Heq & _ & Hmatch).
  cbv zeta in Heq. rewrite Heq, drop_app_length. by apply Hmatch.
Qed.

Lemma bloom_no_false_negatives_witness :
  let policy := Bloom.NewBloomFilterPolicy Example.Hash 10 in
  let keys := [Example.key_of "apple"; Example.key_of "banana"] in
  FilterPolicy.KeyMayMatch policy (Example.key_of "banana")
    (drop 3 (FilterPolicy.CreateFilter policy keys 2 [1; 2; 3])) = true.
Proof.
  apply (bloom_no_false_negatives Example.Hash 10
           [Example.key_of "apple"; Example.key_of "banana"] [1; 2; 3]
           (Example.key_of "banana")).
  - lia.
  - reflexivity.
  - right. left.
Defined.

(** C9. CreateFilter of the bloom policy only appends: the destination's
    bytes stay, followed by ceil(max(64, n * bits_per_key) / 8) filter bytes
    and one byte holding the probe count k, which is a function of
    [bits_per_key] alone (for an [int] [bits_per_key >= 0] and a key list
    whose length fits an [int]). *)
Theorem bloom_create_filter_frame
        (Hash : list Z -> Z -> Z) (bits_per_key : Z)
        (keys : list (list Z)) (dst : list Z) :
  0 <= bits_per_key < 2 ^ 31 ->
  size keys < 2 ^ 31 ->
  let n := size keys in
  let k := Z.max 1 (Z.min 30 (bits_per_key * 69 / 100)) in
  exists bitmap : list Z,
    FilterPolicy.CreateFilter (Bloom.NewBloomFilterPolicy Hash bits_per_key) keys n dst
    = dst ++ bitmap ++ [k]
    /\ size bitmap = ClaimView.ceil_div (Z.max 64 (n * bits_per_key)) 8.
Proof.
  intros Hb Hn n k.
  destruct (BloomFacts.bloom_create_then_match Hash bits_per_key keys dst Hb Hn)
    as (bitmap & Heq & Hsz & _).
  exists bitmap. split; [|rewrite Hsz; unfold ClaimView.ceil_div; f_equal; lia].
  unfold Bloom.NewBloomFilterPolicy. cbn [FilterPolicy.CreateFilter].
  cbv zeta in Heq. subst n. rewrite Heq. do 3 f_equal.
  unfold Bloom.new_BloomFilterPolicy. cbn [Bloom.k_]. subst k.
  rewrite Z.quot_div_nonneg by lia.
  repeat match goal with
         | |- context [Z.ltb ?a ?b] => destruct (Z.ltb_spec a b)
         | |- context [Z.gtb ?a ?b] => destruct (Z.gtb_spec a b)
         end; lia.
Qed.

Lemma bloom_create_filter_frame_witness :
  exists bitmap : list Z,
    FilterPolicy.CreateFilter (Bloom.NewBloomFilterPolicy Example.Hash 10)
      [Example.key_of "apple"; Example.key_of "banana"] 2 [1; 2; 3]
    = [1; 2; 3] ++ bitmap ++ [6]
    /\ size bitmap = 8.
Proof.
  apply (bloom_create_filter_frame Example.Hash 10
           [Example.key_of "apple"; Example.key_of "banana"] [1; 2; 3]).
  - lia.
  - reflexivity.
Defined.

Section TableProperties.
Variable crc32c_Value : list Z -> Z.
Variable crc32c_Extend : Z -> list Z -> Z.
Variable Snappy_Compress : list Z -> option (list Z).
Variable shift_out_of_range : Z -> Z -> Z.

Import TableBuilder TableBuilderView TableBuilderFacts ClaimView.

Abbreviation WriteBlock := (WriteBlock crc32c_Value crc32c_Extend Snappy_Compress).
Abbreviation Flush := (Flush crc32c_Value crc32c_Extend Snappy_Compress).
Abbreviation Add := (Add crc32c_Value crc32c_Extend Snappy_Compress).
Abbreviation Finish := (Finish crc32c_Value crc32c_Extend Snappy_Compress).
Abbreviation run := (run crc32c_Value crc32c_Extend Snappy_Compress).
Abbreviation trailer := (trailer crc32c_Value crc32c_Extend).

(** The data block that receives a key starts at the file offset the
    builder had when the key was added: the block is either still open at
    that offset, or has just been written with that offset in its
    handle. *)
Lemma key_block_offset base key value r :
  io_ok base r ->
  let r1 := Add key value r in
  (BlockBuilder.empty (data_block r1) = false /\ offset r1 = offset r)
  \/ (pending_index_entry r1 = true
      /\ BlockHandle.offset_ (pending_handle r1) = offset r).
Proof.
  intros Hio r1. subst r1. pose proof Hio as (Hst & _).
  destruct (Add_cases crc32c_Value crc32c_Extend Snappy_Compress key value r Hst)
    as (r_mid & Hcase & Hf & Hs & Ho & _ & _ & _ & He).
  assert (Hmid : io_ok base r_mid) by (eapply io_ok_same; eauto; congruence).
  destruct Hcase as [-> | ->]; [by left|].
  destruct (Flush_cases crc32c_Value crc32c_Extend Snappy_Compress base r_mid Hmid)
    as [[He' _] | [_ (w & _ & _ & _ & _ & _ & Hp & _ & Hh & _)]]; [congruence|].
  right. split; [done|congruence].
Qed.

(** C1. For a table built with a lawful filter policy on a sink without
    errors, by any sequence of Add and Flush calls closed by Finish
    (strictly ascending keys included): the reader, given the finished
    filter block and the file offset of the data block a key went into,
    answers true for that key.  The table has fewer than 2^31 calls, its
    file stays below 2^64 bytes and its filter block below 2^32. *)
Theorem filter_block_matches_added_keys
        (P : FilterPolicy.t) (HP : LawfulPolicy P)
        (opt : Options) (f : WritableFile.t)
        (pre post : list call) (key value : list Z) :
  filter_policy opt = Some P ->
  Forall (eq OK) (WritableFile.results f) ->
  let calls := pre ++ CallAdd key value :: post in
  let block_offset := FileSize (run pre (new opt f)) in
  let table := Finish (run calls (new opt f)) in
  size calls < 2 ^ 31 ->
  written (size (WritableFile.appended f)) table < 2 ^ 64 ->
  size (filter_contents table) < 2 ^ 32 ->
  FilterBlockReader.KeyMayMatch shift_out_of_range
    (FilterBlockReader.new P (filter_contents table)) block_offset key = true.
Proof.
  intros Hpol Hres calls block_offset table Hcalls Hfile Hfilter.
  set (base := size (WritableFile.appended f)) in *.
  pose proof (new_io_ok opt f Hres) as Hio0. fold base in Hio0.
  pose proof (new_filter_ok P opt f Hpol) as Hf0.
  (* sizes *)
  assert (Hsz : size calls = size pre + 1 + size post).
  { subst calls. rewrite size_app. unfold size. cbn [length]. lia. }
  pose proof (size_nonneg pre) as Hpre. pose proof (size_nonneg post) as Hpost.
  (* the states of the run *)
  set (r0 := run pre (new opt f)).
  set (r1 := Add key value r0).
  set (r2 := run post r1).
  assert (E : run calls (new opt f) = r2).
  { subst calls r2 r1 r0. by rewrite run_app, run_cons. }
  destruct (run_io crc32c_Value crc32c_Extend Snappy_Compress base pre _ Hio0)
    as [Hio_0 Hle0]. fold r0 in Hio_0, Hle0.
  destruct (Add_io crc32c_Value crc32c_Extend Snappy_Compress base key value r0 Hio_0)
    as [Hio_1 Hle1]. fold r1 in Hio_1, Hle1.
  destruct (run_io crc32c_Value crc32c_Extend Snappy_Compress base post _ Hio_1)
    as [Hio_2 Hle2]. fold r2 in Hio_2, Hle2.
  destruct (Finish_ok crc32c_Value crc32c_Extend Snappy_Compress base r2 Hio_2)
    as (Hio_f & Hlef & Hlef' & Hfbf).
  subst table. rewrite E in *.
  (* the filter builder along the run *)
  assert (F0 : filter_ok P r0 (0 + size pre) [] []).
  { apply (run_filter _ _ _ P base); [done|done|lia|fold r0; lia]. }
  assert (F1 : filter_ok P r1 (0 + size pre + 1) [(offset r0, key)] []).
  { apply (Add_filter _ _ _ P base); [done|done|lia|fold r1; lia]. }
  assert (F2 : filter_ok P r2 (0 + size pre + 1 + size post) [(offset r0, key)] []).
  { apply (run_filter _ _ _ P base); [done|done|lia|fold r2; lia]. }
  assert (F3 : filter_ok P (Flush r2) (0 + size pre + 1 + size post)
                         [(offset r0, key)] []).
  { apply (Flush_filter _ _ _ P base); [done|done|lia|lia]. }
  destruct F3 as (fb & Hfb & Hinv).
  destruct (FilterBlockFacts.Finish_result P fb _ _ _ _ Hinv ltac:(lia))
    as (filters & Hres' & _ & _ & Hcov).
  unfold filter_contents in *. rewrite Hfbf, Hfb in *. cbn [fmap option_fmap option_map] in *.
  rewrite Hres' in *.
  destruct (Hcov (offset r0) key ltac:(left)) as (Hb0 & f0 & Hf0' & Hm).
  rewrite FilterBlockReaderFacts.KeyMayMatch_contents_of.
  - subst block_offset. unfold FileSize. fold r0. by rewrite Hf0'.
  - rewrite FilterBlockReaderFacts.size_contents_of in Hfilter.
    pose proof (size_nonneg filters). lia.
  - exact Hb0.
Qed.

(** C3, as the code has it.  After any sequence of Add and Flush calls,
    and so right after every data-block flush, the number of filter
    segments emitted equals floor(offset / 2^11), where offset is the file
    offset just past the last block and its trailer (sink without errors,
    file below 2^64 bytes). *)
Theorem segments_equal_floor_of_offset
        (opt : Options) (f : WritableFile.t) (calls : list call) :
  is_Some (filter_policy opt) ->
  Forall (eq OK) (WritableFile.results f) ->
  let r := Flush (run calls (new opt f)) in
  written (size (WritableFile.appended f)) r < 2 ^ 64 ->
  segments r = FileSize r / FilterBlockBuilder.kFilterBase
  /\ segments (run calls (new opt f))
     = FileSize (run calls (new opt f)) / FilterBlockBuilder.kFilterBase.
Proof.
  intros Hpol Hres r Hlt.
  set (base := size (WritableFile.appended f)) in *.
  pose proof (new_io_ok opt f Hres) as Hio0. fold base in Hio0.
  pose proof (SegmentFacts.new_in_step opt f Hpol) as Hs0.
  destruct (run_io crc32c_Value crc32c_Extend Snappy_Compress base calls _ Hio0)
    as [Hio1 Hle1].
  destruct (Flush_io crc32c_Value crc32c_Extend Snappy_Compress base _ Hio1)
    as [Hio2 Hle2]. fold r in Hio2, Hle2.
  assert (Hs1 : in_step (run calls (new opt f))).
  { apply (SegmentFacts.run_in_step _ _ _ base); [done|done|lia]. }
  split; [|apply Hs1].
  apply (SegmentFacts.Flush_in_step _ _ _ base); done.
Qed.

(** C5. Whenever pending_index_entry is true the data block builder is
    empty: this holds of a new builder and is preserved by Add, Flush and
    Finish, whatever the sink answers. *)
Theorem pending_index_entry_means_empty_block
        (opt : Options) (f : WritableFile.t) (r : Rep) (key value : list Z) :
  pending_invariant r ->
  pending_invariant (new opt f)
  /\ pending_invariant (Add key value r)
  /\ pending_invariant (Flush r)
  /\ pending_invariant (Finish r).
Proof.
  intros Hinv. split_and!.
  - apply PendingFacts.new_pending.
  - by apply PendingFacts.Add_pending.
  - by apply PendingFacts.Flush_pending.
  - by apply PendingFacts.Finish_pending.
Qed.

(** C6. With snappy enabled and a compressor that succeeds, WriteBlock
    stores the compressed bytes with type snappy exactly when
    compressed.size < raw.size - raw.size / 8, and otherwise the raw bytes
    with type none; a compression that saves exactly raw.size / 8 is
    stored raw (sink without errors). *)
Theorem snappy_accepted_below_seven_eighths
        (base : Z) (block : BlockBuilder.t) (r : Rep) (compressed : list Z) :
  let raw := BlockBuilder.buffer_ (BlockBuilder.Finish block) in
  io_ok base r ->
  compression (options r) = kSnappyCompression ->
  Snappy_Compress raw = Some compressed ->
  exists stored type,
    let '(r', handle, _) := WriteBlock block r in
    WritableFile.appended (file r')
    = WritableFile.appended (file r) ++ stored ++ trailer stored type
    /\ BlockHandle.size_ handle = size stored
    /\ ((stored = compressed /\ type = kSnappyCompression)
        <-> size compressed < size raw - size raw / 8)
    /\ (~ size compressed < size raw - size raw / 8 ->
        stored = raw /\ type = kNoCompression)
    /\ (size compressed = size raw - size raw / 8 ->
        stored = raw /\ type = kNoCompression).
Proof.
  intros raw Hio Hc Hs. unfold TableBuilder.WriteBlock. fold raw.
  rewrite Hc, Hs.
  destruct (Z.ltb_spec (size compressed) (size raw - size raw / 8)) as [Hlt|Hge].
  - exists compressed, kSnappyCompression.
    destruct (WriteRawBlock_ok crc32c_Value crc32c_Extend base compressed
                kSnappyCompression r Hio) as (r' & -> & _ & Happ & _).
    split_and!; [done|done| |lia|lia]. split; [done|by intros _].
  - exists raw, kNoCompression.
    destruct (WriteRawBlock_ok crc32c_Value crc32c_Extend base raw
                kNoCompression r Hio) as (r' & -> & _ & Happ & _).
    split_and!; [done|done| |done|done]. split; [by intros [_ ?]|lia].
Qed.

(** C8, as the code has it.  When a call writes a data block that moves
    the file offset over whole 2 KiB windows, the finished filter block
    holds a zero-length filter for every window skipped (the offset stored
    for it equals the next one).  Probed at an offset in such a window, the
    reader hands the empty filter to the policy and answers what the
    policy's KeyMayMatch answers on it; with the bloom policy that is false
    for every key.  (Sink without errors, lawful policy, sizes inside the
    integer types as in C1.) *)
Theorem skipped_windows_get_empty_filters
        (P : FilterPolicy.t) (HP : LawfulPolicy P)
        (opt : Options) (f : WritableFile.t)
        (pre post : list call) (c : call) (probe_offset : Z) (key : list Z) :
  filter_policy opt = Some P ->
  Forall (eq OK) (WritableFile.results f) ->
  let calls := pre ++ c :: post in
  let before := FileSize (run pre (new opt f)) in
  let after :=
    FileSize (do_call crc32c_Value crc32c_Extend Snappy_Compress
                      (run pre (new opt f)) c) in
  let table := Finish (run calls (new opt f)) in
  size calls < 2 ^ 31 ->
  written (size (WritableFile.appended f)) table < 2 ^ 64 ->
  size (filter_contents table) < 2 ^ 32 ->
  before / FilterBlockBuilder.kFilterBase
    < probe_offset / FilterBlockBuilder.kFilterBase
    < after / FilterBlockBuilder.kFilterBase ->
  let reader := FilterBlockReader.new P (filter_contents table) in
  let index := FilterBlockReader.window_index shift_out_of_range reader probe_offset in
  Coding.DecodeFixed32 (FilterBlockReader.data_ reader)
                       (FilterBlockReader.offset_ reader + index * 4)
  = Coding.DecodeFixed32 (FilterBlockReader.data_ reader)
                         (FilterBlockReader.offset_ reader + index * 4 + 4)
  /\ FilterBlockReader.KeyMayMatch shift_out_of_range reader probe_offset key
     = FilterPolicy.KeyMayMatch P key []
  /\ (forall Hash bits_per_key,
         P = Bloom.NewBloomFilterPolicy Hash bits_per_key ->
         FilterBlockReader.KeyMayMatch shift_out_of_range reader probe_offset key
         = false).
Proof.
  intros Hpol Hres calls before after table Hcalls Hfile Hfilter Hwin reader index.
  set (base := size (WritableFile.appended f)) in *.
  set (window := probe_offset / FilterBlockBuilder.kFilterBase) in *.
  pose proof (new_io_ok opt f Hres) as Hio0. fold base in Hio0.
  pose proof (new_filter_ok P opt f Hpol) as Hf0.
  assert (Hsz : size calls = size pre + 1 + size post).
  { subst calls. rewrite size_app. unfold size. cbn [length]. lia. }
  pose proof (size_nonneg pre) as Hpre. pose proof (size_nonneg post) as Hpost.
  set (r0 := run pre (new opt f)) in *.
  set (r1 := do_call crc32c_Value crc32c_Extend Snappy_Compress r0 c) in *.
  set (r2 := run post r1).
  assert (E : run calls (new opt f) = r2).
  { subst calls r2 r1 r0. by rewrite run_app, run_cons. }
  destruct (run_io crc32c_Value crc32c_Extend Snappy_Compress base pre _ Hio0)
    as [Hio_0 Hle0]. fold r0 in Hio_0, Hle0.
  destruct (do_call_io crc32c_Value crc32c_Extend Snappy_Compress base r0 c Hio_0)
    as [Hio_1 Hle1]. fold r1 in Hio_1, Hle1.
  destruct (run_io crc32c_Value crc32c_Extend Snappy_Compress base post _ Hio_1)
    as [Hio_2 Hle2]. fold r2 in Hio_2, Hle2.
  destruct (Finish_ok crc32c_Value crc32c_Extend Snappy_Compress base r2 Hio_2)
    as (Hio_f & Hlef & Hlef' & Hfbf).
  subst table reader index. rewrite E in *.
  assert (F0 : filter_ok P r0 (0 + size pre) [] []).
  { apply (run_filter _ _ _ P base); [done|done|lia|fold r0; lia]. }
  assert (F1 : filter_ok P r1 (0 + size pre + 1) [] [(window, [])]).
  { apply (do_call_pins _ _ _ P base); [done|done|lia|fold r1; lia|done]. }
  assert (F2 : filter_ok P r2 (0 + size pre + 1 + size post) [] [(window, [])]).
  { apply (run_filter _ _ _ P base); [done|done|lia|fold r2; lia]. }
  assert (F3 : filter_ok P (Flush r2) (0 + size pre + 1 + size post)
                         [] [(window, [])]).
  { apply (Flush_filter _ _ _ P base); [done|done|lia|lia]. }
  destruct F3 as (fb & Hfb & Hinv).
  destruct (FilterBlockFacts.Finish_result P fb _ _ _ _ Hinv ltac:(lia))
    as (filters & Hres' & _ & Hpin & _).
  destruct (Hpin window [] ltac:(left)) as [Hw0 Hempty].
  assert (Hcontents : filter_contents (Finish r2)
                      = FilterBlockView.contents_of filters).
  { unfold filter_contents. by rewrite Hfbf, Hfb. }
  rewrite Hcontents in *.
  assert (Hsmall : size (concat filters) < 2 ^ 32).
  { rewrite FilterBlockReaderFacts.size_contents_of in Hfilter.
    pose proof (size_nonneg filters). lia. }
  assert (Hprobe : 0 <= probe_offset).
  { destruct (Z.le_gt_cases 0 probe_offset) as [|Hneg]; [done|].
    assert (window < 0); [|lia]. subst window.
    apply Z.div_lt_upper_bound; [reflexivity|lia]. }
  assert (Hanswer :
    FilterBlockReader.KeyMayMatch shift_out_of_range
      (FilterBlockReader.new P (FilterBlockView.contents_of filters))
      probe_offset key
    = FilterPolicy.KeyMayMatch P key []).
  { rewrite FilterBlockReaderFacts.KeyMayMatch_contents_of by done.
    fold window. by rewrite Hempty. }
  split; [|split; [exact Hanswer|]].
  - rewrite FilterBlockReaderFacts.window_index_contents_of by done.
    rewrite FilterBlockReaderFacts.new_contents_of by done.
    cbn [FilterBlockReader.data_ FilterBlockReader.offset_]. fold window.
    destruct (FilterBlockReaderFacts.decoded_pair filters _ [] Hempty Hsmall)
      as [H1 H2].
    rewrite Z2Nat.id in H1, H2 by done. rewrite H1, H2.
    change (size (@nil Z)) with 0. lia.
  - intros Hash bits_per_key ->. rewrite Hanswer. reflexivity.
Qed.

End TableProperties.

(** C10, as the code has it.  The reader answers true when the contents
    are malformed, when the window index is not below the number of offset
    entries, and when the decoded pair is out of order or reaches beyond the
    offset array with start different from limit.  It answers false only
    when the policy rejects a filter that lies within bounds, or when start
    equals limit beyond the offset array. *)
Theorem reader_answers_true_on_errors
        (shift_out_of_range : Z -> Z -> Z) (P : FilterPolicy.t)
        (contents : list Z) (block_offset : Z) (key : list Z) :
  0 <= block_offset ->
  let n := size contents in
  let r := FilterBlockReader.new P contents in
  let index := FilterBlockReader.window_index shift_out_of_range r block_offset in
  let start :=
    Coding.DecodeFixed32 (FilterBlockReader.data_ r)
                         (FilterBlockReader.offset_ r + index * 4) in
  let limit :=
    Coding.DecodeFixed32 (FilterBlockReader.data_ r)
                         (FilterBlockReader.offset_ r + index * 4 + 4) in
  let answer := FilterBlockReader.KeyMayMatch shift_out_of_range r block_offset key in
  (n < 5 \/ Coding.DecodeFixed32 contents (n - 5) > n - 5 -> answer = true)
  /\ (FilterBlockReader.num_ r <= index -> answer = true)
  /\ (limit < start \/ (FilterBlockReader.offset_ r < limit /\ start <> limit) ->
      answer = true)
  /\ (answer = false ->
      index < FilterBlockReader.num_ r
      /\ ((start <= limit <= FilterBlockReader.offset_ r
           /\ FilterPolicy.KeyMayMatch P key
                (slice (FilterBlockReader.data_ r) start (limit - start)) = false)
          \/ (start = limit /\ FilterBlockReader.offset_ r < limit))).
Proof.
  intros Hbo n r index start limit answer.
  assert (Hidx : 0 <= index).
  { subst index. unfold FilterBlockReader.window_index.
    destruct ((0 <=? FilterBlockReader.base_lg_ r)
              && (FilterBlockReader.base_lg_ r <? 64)) eqn:Hlg.
    - apply Z.shiftr_nonneg. exact Hbo.
    - apply wrap64_range. }
  assert (Hcases :
    answer =
    if index <? FilterBlockReader.num_ r then
      if (start <=? limit) && (limit <=? FilterBlockReader.offset_ r) then
        FilterPolicy.KeyMayMatch P key
          (slice (FilterBlockReader.data_ r) start (limit - start))
      else if start =? limit then false else true
    else true).
  { subst answer. unfold FilterBlockReader.KeyMayMatch. fold index. fold start limit.
    replace (FilterBlockReader.policy_ r) with P; [done|].
    subst r. unfold FilterBlockReader.new.
    repeat match goal with |- context [if ?c then _ else _] => destruct c end; done. }
  split_and!.
  - intros Hbad. rewrite Hcases.
    assert (Hnum : FilterBlockReader.num_ r = 0).
    { subst r. unfold FilterBlockReader.new. fold n.
      destruct (Z.ltb_spec n 5); [done|].
      destruct (Z.gtb_spec (Coding.DecodeFixed32 contents (n - 5)) (n - 5)); [done|].
      lia. }
    rewrite Hnum. by destruct (Z.ltb_spec index 0); [lia|].
  - intros Hge. rewrite Hcases.
    by destruct (Z.ltb_spec index (FilterBlockReader.num_ r)); [lia|].
  - intros Hbad. rewrite Hcases.
    destruct (index <? FilterBlockReader.num_ r); [|done].
    destruct (Z.leb_spec start limit), (Z.leb_spec limit (FilterBlockReader.offset_ r));
      cbn [andb]; try lia.
    all: destruct (Z.eqb_spec start limit); [lia|done].
  - intros Hfalse. rewrite Hcases in Hfalse.
    destruct (Z.ltb_spec index (FilterBlockReader.num_ r)); [|done].
    split; [done|].
    destruct (Z.leb_spec start limit), (Z.leb_spec limit (FilterBlockReader.offset_ r));
      cbn [andb] in Hfalse.
    + left. split; [lia|done].
    + destruct (Z.eqb_spec start limit); [|done]. right. lia.
    + destruct (Z.eqb_spec start limit); [|done]. lia.
    + destruct (Z.eqb_spec start limit); [|done]. lia.
Qed.

(** * The properties on a concrete table *)
Module Concrete.
Import TableBuilder TableBuilderView ClaimView.

Abbreviation Add := (TableBuilder.Add Example.crc32c_Value Example.crc32c_Extend Example.no_snappy).
Abbreviation Flush := (TableBuilder.Flush Example.crc32c_Value Example.crc32c_Extend Example.no_snappy).
Abbreviation Finish := (TableBuilder.Finish Example.crc32c_Value Example.crc32c_Extend Example.no_snappy).
Abbreviation run := (TableBuilder.run Example.crc32c_Value Example.crc32c_Extend Example.no_snappy).
Abbreviation new_table := (TableBuilder.new Example.options Example.sink).

(** The key "cherry" goes into the data block at offset 5032; the
    finished filter block matches it there. *)
Lemma filter_block_matches_added_keys_witness :
  FilterBlockReader.KeyMayMatch Example.shift_out_of_range
    (FilterBlockReader.new Example.bloom
       (filter_contents (Finish (run Example.calls new_table))))
    (FileSize (run (take 2 Example.calls) new_table))
    (Example.key_of "cherry") = true.
Proof.
  apply (filter_block_matches_added_keys
           Example.crc32c_Value Example.crc32c_Extend Example.no_snappy
           Example.shift_out_of_range
           Example.bloom (bloom_lawful Example.Hash 10 ltac:(lia))
           Example.options Example.sink
           (take 2 Example.calls) (drop 3 Example.calls)
           (Example.key_of "cherry") (Example.value_of 3)).
  - reflexivity.
  - constructor.
  - vm_compute. reflexivity.
  - vm_compute. reflexivity.
  - vm_compute. reflexivity.
Defined.

(** The first block ends at offset 2522: one segment has been emitted,
    and the ceiling of 2522 / 2048 is 2. *)
Lemma segments_below_ceiling_after_flush :
  let r := Flush (Add (Example.key_of "apple") (Example.value_of 1) new_table) in
  FileSize r = 2522
  /\ segments r = 1
  /\ ~ (segments r >= ceil_div (FileSize r) (2 ^ FilterBlockBuilder.kFilterBaseLg)).
Proof.
  vm_compute. split; [reflexivity|]. split; [reflexivity|].
  intros H. apply H. reflexivity.
Qed.

Lemma segments_equal_floor_of_offset_witness :
  let r := Flush (run Example.calls new_table) in
  segments r = FileSize r / FilterBlockBuilder.kFilterBase
  /\ segments (run Example.calls new_table)
     = FileSize (run Example.calls new_table) / FilterBlockBuilder.kFilterBase.
Proof.
  apply (segments_equal_floor_of_offset
           Example.crc32c_Value Example.crc32c_Extend Example.no_snappy
           Example.options Example.sink Example.calls).
  - eexists. reflexivity.
  - constructor.
  - vm_compute. reflexivity.
Defined.

Lemma pending_index_entry_means_empty_block_witness :
  let r := Add (Example.key_of "apple") (Example.value_of 1) new_table in
  pending_invariant new_table
  /\ pending_invariant (Add (Example.key_of "banana") (Example.value_of 2) r)
  /\ pending_invariant (Flush r)
  /\ pending_invariant (Finish r).
Proof.
  apply (pending_index_entry_means_empty_block
           Example.crc32c_Value Example.crc32c_Extend Example.no_snappy
           Example.options Example.sink
           (Add (Example.key_of "apple") (Example.value_of 1) new_table)
           (Example.key_of "banana") (Example.value_of 2)).
  unfold pending_invariant. vm_compute. intros H. discriminate H.
Defined.

(** A block of 64 bytes whose compressed form has 56, exactly one eighth
    less, goes out raw, with type none. *)
Lemma snappy_accepted_below_seven_eighths_witness :
  let r := TableBuilder.new Example.snappy_options Example.sink in
  let block :=
    BlockBuilder.Add 16 (Example.key_of "apple") (replicate 48 1)
                     BlockBuilder.new in
  let raw := BlockBuilder.buffer_ (BlockBuilder.Finish block) in
  exists stored type,
    let '(r', handle, _) :=
      TableBuilder.WriteBlock Example.crc32c_Value Example.crc32c_Extend
                              Example.one_eighth_shorter block r in
    WritableFile.appended (file r')
    = WritableFile.appended (file r) ++ stored
      ++ trailer Example.crc32c_Value Example.crc32c_Extend stored type
    /\ BlockHandle.size_ handle = size stored
    /\ ((stored = take 56 raw /\ type = kSnappyCompression)
        <-> size (take 56 raw) < size raw - size raw / 8)
    /\ (~ size (take 56 raw) < size raw - size raw / 8 ->
        stored = raw /\ type = kNoCompression)
    /\ (size (take 56 raw) = size raw - size raw / 8 ->
        stored = raw /\ type = kNoCompression).
Proof.
  apply (snappy_accepted_below_seven_eighths
           Example.crc32c_Value Example.crc32c_Extend Example.one_eighth_shorter
           0
           (BlockBuilder.Add 16 (Example.key_of "apple") (replicate 48 1)
                             BlockBuilder.new)
           (TableBuilder.new Example.snappy_options Example.sink)).
  - unfold io_ok, written. vm_compute. split_and!; try reflexivity.
    + constructor.
    + discriminate.
  - reflexivity.
  - vm_compute. reflexivity.
Defined.

(** C8, where the code leaves its comment "Empty filters do not match
    any keys".  The first data block runs from offset 0 to 5032, over
    window 1; with a policy that answers "maybe" on a filter it cannot
    decode, the filter of window 1 is empty (start = limit = 9) and the
    reader answers true there: the test [start <= limit && limit <=
    offset_ - data_] comes first and holds, so the policy is asked, and
    [else if (start == limit) return false] is not reached. *)
Lemma empty_filter_can_match :
  let table :=
    TableBuilder.Finish Example.crc32c_Value Example.crc32c_Extend Example.no_snappy
      (run Example.calls (TableBuilder.new Example.lenient_options Example.sink)) in
  let reader := FilterBlockReader.new Example.lenient_bloom (filter_contents table) in
  Coding.DecodeFixed32 (FilterBlockReader.data_ reader)
                       (FilterBlockReader.offset_ reader + 1 * 4) = 9
  /\ Coding.DecodeFixed32 (FilterBlockReader.data_ reader)
                          (FilterBlockReader.offset_ reader + 1 * 4 + 4) = 9
  /\ FilterBlockReader.KeyMayMatch Example.shift_out_of_range reader 3000
       (Example.key_of "apple")
     <> false.
Proof. vm_compute. split_and!; [reflexivity|reflexivity|discriminate]. Qed.

Lemma skipped_windows_get_empty_filters_witness :
  FilterBlockReader.KeyMayMatch Example.shift_out_of_range
    (FilterBlockReader.new Example.bloom
       (filter_contents (Finish (run Example.calls new_table))))
    3000 (Example.key_of "apple") = false.
Proof.
  pose proof (skipped_windows_get_empty_filters
                Example.crc32c_Value Example.crc32c_Extend Example.no_snappy
                Example.shift_out_of_range
                Example.bloom (bloom_lawful Example.Hash 10 ltac:(lia))
                Example.options Example.sink
                (take 1 Example.calls) (drop 2 Example.calls)
                (TableBuilder.CallAdd (Example.key_of "banana") (Example.value_of 2))
                3000 (Example.key_of "apple")) as Hskip.
  destruct Hskip as (_ & _ & Hbloom).
  - reflexivity.
  - constructor.
  - vm_compute. reflexivity.
  - vm_compute. reflexivity.
  - vm_compute. reflexivity.
  - vm_compute. split; reflexivity.
  - apply (Hbloom Example.Hash 10). reflexivity.
Defined.

(** In [stray_empty_filter] the pair decoded for window 0 is (7, 7),
    beyond the offset array, which starts at 0: the reader answers false
    although the policy would match everything. *)
Lemma stray_empty_filter_answers_false :
  let r := FilterBlockReader.new Example.match_all Example.stray_empty_filter in
  let index := FilterBlockReader.window_index Example.shift_out_of_range r 0 in
  let start :=
    Coding.DecodeFixed32 (FilterBlockReader.data_ r)
                         (FilterBlockReader.offset_ r + index * 4) in
  let limit :=
    Coding.DecodeFixed32 (FilterBlockReader.data_ r)
                         (FilterBlockReader.offset_ r + index * 4 + 4) in
  index < FilterBlockReader.num_ r
  /\ start = 7 /\ limit = 7 /\ FilterBlockReader.offset_ r = 0
  /\ FilterBlockReader.KeyMayMatch Example.shift_out_of_range r 0
       (Example.key_of "apple")
     <> true.
Proof. vm_compute. split_and!; try reflexivity. discriminate. Qed.

Lemma reader_answers_true_on_errors_witness :
  FilterBlockReader.KeyMayMatch Example.shift_out_of_range
    (FilterBlockReader.new Example.match_all Example.stray_empty_filter)
    5000 (Example.key_of "apple") = true.
Proof.
  pose proof (reader_answers_true_on_errors Example.shift_out_of_range
                Example.match_all Example.stray_empty_filter 5000
                (Example.key_of "apple") ltac:(lia)) as (_ & Hpast & _).
  apply Hpast. vm_compute. discriminate.
Defined.

End Concrete.

(** * More on the bloom policy *)
Module BloomOrderFacts.
Section WithHash.
Variable Hash : list Z -> Z -> Z.

Abbreviation set_bit := Bloom.set_bit.
Abbreviation set_probes := Bloom.set_probes.
Abbreviation add_key := (Bloom.add_key Hash).

Lemma set_bit_commute init p q dst :
  set_bit init p (set_bit init q dst) = set_bit init q (set_bit init p dst).
Proof.
  unfold Bloom.set_bit.
  destruct (decide (Z.to_nat (init + p / 8) = Z.to_nat (init + q / 8))) as [E|N].
  - rewrite E, !list_alter_alter_eq. apply list_alter_ext; [|done].
    intros x _. unfold compose. rewrite <- !Z.lor_assoc. f_equal. apply Z.lor_comm.
  - by apply list_alter_alter_ne.
Qed.

Lemma set_probes_set_bit j h delta bits init q dst :
  set_probes j h delta bits init (set_bit init q dst)
  = set_bit init q (set_probes j h delta bits init dst).
Proof.
  revert h dst. induction j as [|j IH]; intros h dst; [done|].
  cbn [Bloom.set_probes]. by rewrite set_bit_commute, IH.
Qed.

Lemma set_probes_commute j h delta j' h' delta' bits init dst :
  set_probes j h delta bits init (set_probes j' h' delta' bits init dst)
  = set_probes j' h' delta' bits init (set_probes j h delta bits init dst).
Proof.
  revert h dst. induction j as [|j IH]; intros h dst; [done|].
  cbn [Bloom.set_probes]. by rewrite <- set_probes_set_bit, IH.
Qed.

Lemma add_key_commute p bits init k1 k2 dst :
  add_key p bits init (add_key p bits init dst k1) k2
  = add_key p bits init (add_key p bits init dst k2) k1.
Proof. unfold Bloom.add_key. apply set_probes_commute. Qed.

Lemma add_keys_permutation p bits init keys keys' dst :
  keys ≡ₚ keys' ->
  fold_left (add_key p bits init) keys dst
  = fold_left (add_key p bits init) keys' dst.
Proof.
  intros Hperm. revert dst.
  induction Hperm as [|k l l' _ IH|k1 k2 l|l1 l2 l3 _ IH1 _ IH2]; intros dst.
  - done.
  - cbn. apply IH.
  - cbn. by rewrite add_key_commute.
  - by rewrite IH1, IH2.
Qed.

(** The bytes of a filter stay bytes. *)
Lemma set_bit_bytes init pos dst :
  Forall (fun c => 0 <= c < 256) dst ->
  Forall (fun c => 0 <= c < 256) (set_bit init pos dst).
Proof.
  intros Hd. unfold Bloom.set_bit. apply Forall_alter; [done|].
  intros c _ Hc. cbv beta.
  assert (Hm : 0 <= pos mod 8 < 8) by (apply Z.mod_pos_bound; lia).
  assert (Hb : 0 <= Z.shiftl 1 (pos mod 8) < 2 ^ 8).
  { rewrite Z.shiftl_1_l. split; [apply Z.pow_nonneg; lia|].
    apply Z.pow_lt_mono_r; lia. }
  split; [apply Z.lor_nonneg; lia|].
  change 256 with (2 ^ 8).
  destruct (Z.eq_dec (Z.lor c (Z.shiftl 1 (pos mod 8))) 0) as [->|Hnz]; [lia|].
  apply Z.log2_lt_pow2; [pose proof (proj2 (Z.lor_nonneg c (Z.shiftl 1 (pos mod 8)))); lia|].
  rewrite Z.log2_lor by lia.
  apply Z.max_lub_lt.
  - destruct (Z.eq_dec c 0) as [->|]; [cbn; lia|].
    apply Z.log2_lt_pow2; [lia|]. change (2 ^ 8) with 256. lia.
  - rewrite Z.shiftl_1_l, Z.log2_pow2 by lia. lia.
Qed.

Lemma set_probes_bytes j h delta bits init dst :
  Forall (fun c => 0 <= c < 256) dst ->
  Forall (fun c => 0 <= c < 256) (set_probes j h delta bits init dst).
Proof.
  revert h dst. induction j as [|j IH]; intros h dst Hd; [done|].
  cbn [Bloom.set_probes]. apply IH. by apply set_bit_bytes.
Qed.

Lemma add_keys_bytes p bits init keys dst :
  Forall (fun c => 0 <= c < 256) dst ->
  Forall (fun c => 0 <= c < 256) (fold_left (add_key p bits init) keys dst).
Proof.
  revert dst. induction keys as [|k keys IH]; intros dst Hd; [done|].
  cbn. apply IH. unfold Bloom.add_key. by apply set_probes_bytes.
Qed.

(** A filter whose bitmap is all zero answers false. *)
Lemma KeyMayMatch_zero_bitmap key (n : nat) k :
  (0 < n)%nat -> Z.of_nat n * 8 < 2 ^ 32 -> 1 <= k <= 30 ->
  Bloom.KeyMayMatch Hash key (replicate n 0 ++ [k]) = false.
Proof.
  intros Hn Hsmall Hk. unfold Bloom.KeyMayMatch.
  assert (Hsz : size (replicate n 0 ++ [k]) = Z.of_nat n + 1).
  { unfold size. rewrite length_app, length_replicate. cbn. lia. }
  rewrite Hsz. destruct (Z.ltb_spec (Z.of_nat n + 1) 2); [lia|].
  replace (Z.of_nat n + 1 - 1) with (Z.of_nat n) by lia.
  rewrite Nat2Z.id.
  assert (Hlast : (replicate n 0 ++ [k]) !!! n = k).
  { apply list_lookup_total_correct.
    rewrite lookup_app_r by (rewrite length_replicate; lia).
    rewrite length_replicate. by replace (n - n)%nat with 0%nat by lia. }
  rewrite Hlast.
  destruct (Z.gtb_spec k 30); [lia|].
  rewrite wrap64_small by lia.
  destruct (Z.to_nat k) as [|j] eqn:Hj; [lia|].
  cbn [Bloom.probe].
  set (bitpos := wrap32 (Bloom.BloomHash Hash key mod (Z.of_nat n * 8))).
  assert (Hpos : 0 <= bitpos < Z.of_nat n * 8).
  { subst bitpos.
    pose proof (Z.mod_pos_bound (Bloom.BloomHash Hash key) (Z.of_nat n * 8) ltac:(lia)).
    rewrite wrap32_small by lia. lia. }
  assert (Hidx : (Z.to_nat (bitpos / 8) < n)%nat).
  { assert (bitpos / 8 < Z.of_nat n) by (apply Z.div_lt_upper_bound; lia).
    assert (0 <= bitpos / 8) by (apply Z.div_pos; lia). lia. }
  rewrite lookup_total_app_l by (rewrite length_replicate; lia).
  rewrite (list_lookup_total_correct _ _ 0); [|by apply lookup_replicate_2].
  reflexivity.
Qed.

End WithHash.
End BloomOrderFacts.

(** X1. The filter the bloom policy makes from no keys at all is 8 zero
    bytes and the probe count, and KeyMayMatch answers false on it for every
    key. *)
Theorem bloom_filter_of_no_keys_rejects_every_key
        (Hash : list Z -> Z -> Z) (bits_per_key : Z) (dst key : list Z) :
  0 <= bits_per_key < 2 ^ 31 ->
  let policy := Bloom.NewBloomFilterPolicy Hash bits_per_key in
  let filter := drop (length dst) (FilterPolicy.CreateFilter policy [] 0 dst) in
  filter = replicate 8 0 ++ [Z.max 1 (Z.min 30 (bits_per_key * 69 / 100))]
  /\ FilterPolicy.KeyMayMatch policy key filter = false.
Proof.
  intros Hb policy filter.
  pose proof (BloomFacts.new_k_range bits_per_key) as Hk.
  assert (Hkk : Bloom.k_ (Bloom.new_BloomFilterPolicy bits_per_key)
                = Z.max 1 (Z.min 30 (bits_per_key * 69 / 100))).
  { unfold Bloom.new_BloomFilterPolicy. cbn [Bloom.k_].
    rewrite Z.quot_div_nonneg by lia.
    repeat match goal with
           | |- context [Z.ltb ?a ?b] => destruct (Z.ltb_spec a b)
           | |- context [Z.gtb ?a ?b] => destruct (Z.gtb_spec a b)
           end; lia. }
  assert (E : filter = replicate 8 0 ++ [Bloom.k_ (Bloom.new_BloomFilterPolicy bits_per_key)]).
  { subst filter policy. unfold Bloom.NewBloomFilterPolicy.
    cbn [FilterPolicy.CreateFilter]. unfold Bloom.CreateFilter.
    rewrite take_nil. cbn [fold_left].
    assert (Hbytes : Bloom.filter_bytes (Bloom.new_BloomFilterPolicy bits_per_key) 0 = 8)
      by reflexivity.
    rewrite Hbytes, <- app_assoc, drop_app_length.
    rewrite Z.mod_small by lia. reflexivity. }
  split; [by rewrite E, Hkk|].
  rewrite E. subst policy. unfold Bloom.NewBloomFilterPolicy.
  cbn [FilterPolicy.KeyMayMatch].
  apply BloomOrderFacts.KeyMayMatch_zero_bitmap; [lia|reflexivity|lia].
Qed.

Lemma bloom_filter_of_no_keys_rejects_every_key_witness :
  FilterPolicy.KeyMayMatch (Bloom.NewBloomFilterPolicy Example.Hash 10)
    (Example.key_of "apple")
    (drop 3 (FilterPolicy.CreateFilter (Bloom.NewBloomFilterPolicy Example.Hash 10)
               [] 0 [1; 2; 3])) = false.
Proof.
  apply (bloom_filter_of_no_keys_rejects_every_key Example.Hash 10 [1; 2; 3]
           (Example.key_of "apple")).
  lia.
Defined.

(** X2. KeyMayMatch reads the probe count from the filter: a filter made
    with one bits_per_key is answered true, for each of its keys, by a bloom
    policy made with any other bits_per_key. *)
Theorem bloom_filter_read_with_other_parameters
        (Hash : list Z -> Z -> Z) (bits_per_key other_bits_per_key : Z)
        (keys : list (list Z)) (dst key : list Z) :
  0 <= bits_per_key < 2 ^ 31 ->
  size keys < 2 ^ 31 ->
  key ∈ keys ->
  let writer := Bloom.NewBloomFilterPolicy Hash bits_per_key in
  let reader := Bloom.NewBloomFilterPolicy Hash other_bits_per_key in
  let filter :=
    drop (length dst) (FilterPolicy.CreateFilter writer keys (size keys) dst) in
  FilterPolicy.KeyMayMatch reader key filter = true.
Proof.
  intros Hb Hn Hkey writer reader filter. subst writer reader filter.
  unfold Bloom.NewBloomFilterPolicy.
  cbn [FilterPolicy.CreateFilter FilterPolicy.KeyMayMatch].
  destruct (BloomFacts.bloom_create_then_match Hash bits_per_key keys dst Hb Hn)
    as (bitmap & Heq & _ & Hmatch).
  cbv zeta in Heq. rewrite Heq, drop_app_length. by apply Hmatch.
Qed.

Lemma bloom_filter_read_with_other_parameters_witness :
  FilterPolicy.KeyMayMatch (Bloom.NewBloomFilterPolicy Example.Hash 3)
    (Example.key_of "banana")
    (drop 3 (FilterPolicy.CreateFilter (Bloom.NewBloomFilterPolicy Example.Hash 20)
               [Example.key_of "apple"; Example.key_of "banana"] 2 [1; 2; 3]))
  = true.
Proof.
  apply (bloom_filter_read_with_other_parameters Example.Hash 20 3
           [Example.key_of "apple"; Example.key_of "banana"] [1; 2; 3]
           (Example.key_of "banana")).
  - lia.
  - reflexivity.
  - right. left.
Defined.

(** X3. The bloom filter is a function of the keys and not of their order:
    CreateFilter gives the same bytes for a key list and for any
    rearrangement of it. *)
Theorem bloom_filter_ignores_key_order
        (Hash : list Z -> Z -> Z) (bits_per_key : Z)
        (keys keys' : list (list Z)) (dst : list Z) :
  0 <= bits_per_key < 2 ^ 31 ->
  size keys < 2 ^ 31 ->
  keys ≡ₚ keys' ->
  let policy := Bloom.NewBloomFilterPolicy Hash bits_per_key in
  FilterPolicy.CreateFilter policy keys (size keys) dst
  = FilterPolicy.CreateFilter policy keys' (size keys') dst.
Proof.
  intros Hb Hn Hperm policy. subst policy. unfold Bloom.NewBloomFilterPolicy.
  cbn [FilterPolicy.CreateFilter]. unfold Bloom.CreateFilter.
  assert (Hsz : size keys' = size keys).
  { unfold size. by rewrite (Permutation_length Hperm). }
  assert (Ht : forall l : list (list Z), take (Z.to_nat (size l)) l = l).
  { intros l. unfold size. by rewrite Nat2Z.id, firstn_all. }
  rewrite (Ht keys), (Ht keys'), Hsz.
  by apply BloomOrderFacts.add_keys_permutation.
Qed.

Lemma bloom_filter_ignores_key_order_witness :
  FilterPolicy.CreateFilter (Bloom.NewBloomFilterPolicy Example.Hash 10)
    [Example.key_of "apple"; Example.key_of "banana"] 2 [1; 2; 3]
  = FilterPolicy.CreateFilter (Bloom.NewBloomFilterPolicy Example.Hash 10)
      [Example.key_of "banana"; Example.key_of "apple"] 2 [1; 2; 3].
Proof.
  apply (bloom_filter_ignores_key_order Example.Hash 10
           [Example.key_of "apple"; Example.key_of "banana"]
           [Example.key_of "banana"; Example.key_of "apple"] [1; 2; 3]).
  - lia.
  - reflexivity.
  - apply perm_swap.
Defined.

(** X4. CreateFilter of the bloom policy keeps the destination a string
    of bytes: when every element of the destination is in 0..255, so is
    every element of the result (setting a bit never carries out of its
    byte). *)
Theorem bloom_create_filter_keeps_bytes
        (Hash : list Z -> Z -> Z) (bits_per_key n : Z)
        (keys : list (list Z)) (dst : list Z) :
  0 <= bits_per_key < 2 ^ 31 ->
  Forall (fun c => 0 <= c < 256) dst ->
  Forall (fun c => 0 <= c < 256)
         (FilterPolicy.CreateFilter (Bloom.NewBloomFilterPolicy Hash bits_per_key)
                                    keys n dst).
Proof.
  intros Hb Hd. unfold Bloom.NewBloomFilterPolicy.
  cbn [FilterPolicy.CreateFilter]. unfold Bloom.CreateFilter.
  apply BloomOrderFacts.add_keys_bytes.
  apply Forall_app. split; [apply Forall_app; split; [done|]|].
  - apply Forall_replicate. lia.
  - constructor; [|constructor]. apply Z.mod_pos_bound. lia.
Qed.

Lemma bloom_create_filter_keeps_bytes_witness :
  Forall (fun c => 0 <= c < 256)
         (FilterPolicy.CreateFilter (Bloom.NewBloomFilterPolicy Example.Hash 10)
            [Example.key_of "apple"; Example.key_of "banana"] 2 [1; 2; 3]).
Proof.
  apply (bloom_create_filter_keeps_bytes Example.Hash 10 2
           [Example.key_of "apple"; Example.key_of "banana"] [1; 2; 3]).
  - lia.
  - repeat constructor; lia.
Defined.

(** * The filter block builder over any sequence of calls *)
Module FilterBlockCallFacts.
Import FilterBlockView LayoutFacts CodingFacts FilterBlockFacts FilterBlockCalls.

Lemma run_snoc calls c b : run (calls ++ [c]) b = do_call (run calls b) c.
Proof. unfold run. by rewrite fold_left_app. Qed.

Lemma run_app_calls calls more b : run (calls ++ more) b = run more (run calls b).
Proof. unfold run. by rewrite fold_left_app. Qed.

Lemma run_add_keys keys b : run (map CallAddKey keys) b = add_keys keys b.
Proof.
  revert b. induction keys as [|k keys IH]; intros b; [done|]. cbn. apply IH.
Qed.

(** What a run of AddKey leaves in each field. *)
Lemma add_keys_fields keys b :
  FilterBlockBuilder.keys_ (add_keys keys b)
  = FilterBlockBuilder.keys_ b ++ concat keys
  /\ FilterBlockBuilder.start_ (add_keys keys b)
     = FilterBlockBuilder.start_ b
       ++ starts_from (size (FilterBlockBuilder.keys_ b)) keys
  /\ FilterBlockBuilder.result_ (add_keys keys b) = FilterBlockBuilder.result_ b
  /\ FilterBlockBuilder.filter_offsets_ (add_keys keys b)
     = FilterBlockBuilder.filter_offsets_ b
  /\ FilterBlockBuilder.policy_ (add_keys keys b) = FilterBlockBuilder.policy_ b.
Proof.
  revert b. induction keys as [|k keys IH]; intros b.
  - cbn. by rewrite !app_nil_r.
  - cbn [add_keys fold_left]. fold (add_keys keys (FilterBlockBuilder.AddKey k b)).
    destruct (IH (FilterBlockBuilder.AddKey k b)) as (H1 & H2 & H3 & H4 & H5).
    rewrite H1, H2, H3, H4, H5. cbn. rewrite size_app, <- !app_assoc. done.
Qed.

Lemma represents_add_keys b filters pending keys :
  represents b filters pending ->
  represents (add_keys keys b) filters (pending ++ keys).
Proof.
  revert b pending. induction keys as [|k keys IH]; intros b pending Hrep.
  - cbn. by rewrite app_nil_r.
  - cbn [add_keys fold_left]. fold (add_keys keys (FilterBlockBuilder.AddKey k b)).
    rewrite cons_middle, app_assoc. apply IH. by apply represents_AddKey.
Qed.

Lemma represents_start_nil b filters pending :
  represents b filters pending -> FilterBlockBuilder.start_ b = [] -> pending = [].
Proof.
  intros (_ & _ & _ & Hs) E. rewrite E in Hs. by destruct pending.
Qed.

Section WithPolicy.
Context (P : FilterPolicy.t) `{!LawfulPolicy P}.

Lemma CreateFilter_appended keys dst :
  size keys < 2 ^ 31 ->
  FilterPolicy.CreateFilter P keys (size keys) dst
  = dst ++ appended_filter P keys dst.
Proof.
  intros Hn. unfold appended_filter.
  destruct (create_then_match keys dst Hn) as (f & -> & _).
  by rewrite drop_app_length.
Qed.

(** GenerateFilter with keys pending emits the filter of exactly
    those keys. *)
Lemma GenerateFilter_exact b filters pending :
  FilterBlockBuilder.policy_ b = P ->
  represents b filters pending -> pending <> [] -> size pending < 2 ^ 31 ->
  represents (FilterBlockBuilder.GenerateFilter b)
             (filters ++ [appended_filter P pending (concat filters)]) []
  /\ FilterBlockBuilder.policy_ (FilterBlockBuilder.GenerateFilter b) = P.
Proof.
  intros HP Hrep Hne Hn. unfold FilterBlockBuilder.GenerateFilter.
  assert (Hsz : size (starts_from 0 pending) = size pending).
  { unfold size. by rewrite length_starts_from. }
  destruct (size (FilterBlockBuilder.start_ b) =? 0) eqn:Hz.
  { by pose proof (represents_pending_nil _ _ _ Hrep Hz). }
  destruct b as [pol keys start result tmp offs].
  destruct Hrep as (Hr & Ho & Hk & Hs). cbn in *. subst.
  rewrite (rebuild_keys pending).
  rewrite Hsz, to_int32_small by (pose proof (size_nonneg pending); lia).
  split; [|done].
  unfold represents. cbn. rewrite CreateFilter_appended by done.
  rewrite concat_app, <- offsets_snoc. cbn. by rewrite app_nil_r.
Qed.

(** StartBlock into a later window closes the window being filled with
    the filter of its keys, and gives every window skipped an empty
    filter. *)
Lemma StartBlock_exact block_offset b filters pending :
  FilterBlockBuilder.policy_ b = P ->
  represents b filters pending -> pending <> [] -> size pending < 2 ^ 31 ->
  size filters < block_offset / FilterBlockBuilder.kFilterBase ->
  represents (FilterBlockBuilder.StartBlock block_offset b)
    (filters ++ appended_filter P pending (concat filters)
       :: replicate
            (Z.to_nat (block_offset / FilterBlockBuilder.kFilterBase
                       - size filters - 1)) [])
    []
  /\ FilterBlockBuilder.policy_
       (FilterBlockBuilder.StartBlock block_offset b) = P.
Proof.
  intros HP Hrep Hne Hn Hlt. unfold FilterBlockBuilder.StartBlock.
  set (idx := block_offset / FilterBlockBuilder.kFilterBase) in *.
  pose proof (size_nonneg filters) as Hf0.
  destruct (Z.to_nat idx) as [|fuel] eqn:Hfuel; [lia|].
  cbn [FilterBlockBuilder.StartBlock_loop].
  rewrite (represents_offsets _ _ _ Hrep).
  destruct (Z.gtb_spec idx (size filters)); [|lia].
  destruct (GenerateFilter_exact b filters pending HP Hrep Hne Hn) as [Hrep' HP'].
  set (f := appended_filter P pending (concat filters)) in *.
  assert (Hsz : size (filters ++ [f]) = size filters + 1) by (by rewrite size_app).
  pose proof (StartBlock_loop_empties P fuel idx _ _ HP' Hrep' ltac:(lia) ltac:(lia))
    as [Hr HPr].
  rewrite Hsz in Hr. rewrite <- app_assoc in Hr. cbn [app] in Hr.
  replace (idx - size filters - 1) with (idx - (size filters + 1)) by lia.
  done.
Qed.

(** One call keeps the builder a list of filters and a list of pending
    keys, and only adds filters at the end. *)
Lemma do_call_represents c b filters pending :
  FilterBlockBuilder.policy_ b = P ->
  represents b filters pending -> size pending < 2 ^ 31 ->
  exists filters' pending',
    represents (do_call b c) filters' pending'
    /\ FilterBlockBuilder.policy_ (do_call b c) = P
    /\ filters `prefix_of` filters'
    /\ size pending' <= size pending + 1.
Proof.
  intros HP Hrep Hn. destruct c as [block_offset|key]; cbn [do_call].
  - destruct (Z.lt_ge_cases (size filters)
                (block_offset / FilterBlockBuilder.kFilterBase)) as [Hlt|Hge].
    + destruct (StartBlock_skips P block_offset b filters pending HP Hrep Hn Hlt)
        as (f & Hrep' & HP' & _).
      eexists _, []. split_and!; [exact Hrep'|done|by eexists|].
      pose proof (size_nonneg pending). unfold size in *. cbn. lia.
    + unfold FilterBlockBuilder.StartBlock.
      rewrite SegmentFacts.StartBlock_loop_keeps
        by (rewrite (represents_offsets _ _ _ Hrep); lia).
      exists filters, pending. split_and!; [done|done|done|lia].
  - exists filters, (pending ++ [key]). split_and!.
    + by apply represents_AddKey.
    + done.
    + done.
    + rewrite size_app. unfold size at 2. cbn. lia.
Qed.

Lemma run_represents calls b filters pending :
  FilterBlockBuilder.policy_ b = P ->
  represents b filters pending -> size pending + size calls < 2 ^ 31 ->
  exists filters' pending',
    represents (run calls b) filters' pending'
    /\ FilterBlockBuilder.policy_ (run calls b) = P
    /\ filters `prefix_of` filters'
    /\ size pending' <= size pending + size calls.
Proof.
  revert b filters pending.
  induction calls as [|c calls IH]; intros b filters pending HP Hrep Hn.
  - exists filters, pending. cbn. split_and!; try done. unfold size. cbn. lia.
  - assert (Hc : size (c :: calls) = 1 + size calls).
    { unfold size. cbn [length]. lia. }
    pose proof (size_nonneg calls) as Hc0.
    destruct (do_call_represents c b filters pending HP Hrep ltac:(lia))
      as (f1 & p1 & Hrep1 & HP1 & Hpre1 & Hn1).
    destruct (IH _ f1 p1 HP1 Hrep1 ltac:(lia))
      as (f2 & p2 & Hrep2 & HP2 & Hpre2 & Hn2).
    exists f2, p2. cbn [run fold_left]. fold (run calls (do_call b c)).
    split_and!; [done|done|by etrans|lia].
Qed.

(** Finish closes the window being filled, if it holds keys, and
    encodes the filters. *)
Lemma Finish_represents b filters pending :
  FilterBlockBuilder.policy_ b = P ->
  represents b filters pending -> size pending < 2 ^ 31 ->
  exists filters',
    FilterBlockBuilder.result_ (FilterBlockBuilder.Finish b) = contents_of filters'
    /\ size (FilterBlockBuilder.filter_offsets_ (FilterBlockBuilder.Finish b))
       = size filters'
    /\ filters `prefix_of` filters'.
Proof.
  intros HP Hrep Hn. unfold FilterBlockBuilder.Finish.
  destruct (FilterBlockBuilder.start_ b) as [|s0 start] eqn:Hstart.
  - exists filters. cbn [FilterBlockBuilder.result_ FilterBlockBuilder.filter_offsets_].
    split_and!; [by eapply finish_tail|by eapply represents_offsets|done].
  - destruct (GenerateFilter_represents P b filters pending HP Hrep Hn)
      as (f & Hrep' & _).
    exists (filters ++ [f]).
    cbn [FilterBlockBuilder.result_ FilterBlockBuilder.filter_offsets_].
    split_and!; [by eapply finish_tail|by eapply represents_offsets|by eexists].
Qed.

End WithPolicy.
End FilterBlockCallFacts.

(** X5. A filter block builder that was given nothing finishes with the
    five bytes 0 0 0 0 11 (no filter, an empty offset array at 0, the base
    11), and the reader of that block answers true for every block offset
    and key. *)
Theorem empty_filter_block_matches_everything
        (shift_out_of_range : Z -> Z -> Z) (P : FilterPolicy.t)
        (block_offset : Z) (key : list Z) :
  0 <= block_offset ->
  let contents :=
    FilterBlockBuilder.result_ (FilterBlockBuilder.Finish (FilterBlockBuilder.new P)) in
  contents = [0; 0; 0; 0; 11]
  /\ FilterBlockReader.KeyMayMatch shift_out_of_range
       (FilterBlockReader.new P contents) block_offset key = true.
Proof.
  intros Hbo contents.
  assert (E : contents = [0; 0; 0; 0; 11]) by reflexivity.
  split; [exact E|]. rewrite E.
  unfold FilterBlockReader.KeyMayMatch.
  change (FilterBlockReader.num_ (FilterBlockReader.new P [0; 0; 0; 0; 11])) with 0.
  assert (Hidx : 0 <= FilterBlockReader.window_index shift_out_of_range
                        (FilterBlockReader.new P [0; 0; 0; 0; 11]) block_offset).
  { unfold FilterBlockReader.window_index.
    change (FilterBlockReader.base_lg_ (FilterBlockReader.new P [0; 0; 0; 0; 11]))
      with 11.
    cbn [Z.leb Z.ltb Z.compare andb]. by apply Z.shiftr_nonneg. }
  by destruct (Z.ltb_spec
                 (FilterBlockReader.window_index shift_out_of_range
                    (FilterBlockReader.new P [0; 0; 0; 0; 11]) block_offset) 0);
    [lia|].
Qed.

Lemma empty_filter_block_matches_everything_witness :
  FilterBlockReader.KeyMayMatch Example.shift_out_of_range
    (FilterBlockReader.new Example.bloom
       (FilterBlockBuilder.result_
          (FilterBlockBuilder.Finish (FilterBlockBuilder.new Example.bloom))))
    100000 (Example.key_of "foo") = true.
Proof.
  apply (empty_filter_block_matches_everything Example.shift_out_of_range
           Example.bloom 100000 (Example.key_of "foo")).
  lia.
Defined.

(** * The assertion of StartBlock in the table builder *)
Module StartBlockAssertionFacts.
Import TableBuilder TableBuilderView TableBuilderFacts ClaimView.

(** A new filter builder meets the assertion for the StartBlock(0) of
    the table builder's constructor. *)
Lemma new_StartBlock_assertion P :
  FilterBlockCalls.StartBlock_assertion 0 (FilterBlockBuilder.new P) = true.
Proof. reflexivity. Qed.

(** The StartBlock(r->offset) of Flush meets the assertion: the file
    offset only grows, and one filter per window below it was emitted. *)
Lemma Flush_StartBlock_assertion
      crc32c_Value crc32c_Extend Snappy_Compress base r fb :
  io_ok base r -> in_step r ->
  written base (Flush crc32c_Value crc32c_Extend Snappy_Compress r) < 2 ^ 64 ->
  filter_block r = Some fb ->
  FilterBlockCalls.StartBlock_assertion
    (offset (Flush crc32c_Value crc32c_Extend Snappy_Compress r)) fb = true.
Proof.
  intros Hio [Hseg _] Hlt Hfb.
  destruct (Flush_io crc32c_Value crc32c_Extend Snappy_Compress base r Hio)
    as [Hio' Hle].
  pose proof (io_ok_offset base _ Hio' Hlt) as Ho'.
  pose proof (io_ok_offset base _ Hio ltac:(lia)) as Ho.
  unfold FilterBlockCalls.StartBlock_assertion. cbv zeta.
  unfold segments in Hseg. rewrite Hfb in Hseg. rewrite Hseg.
  apply Z.geb_le. apply Z.div_le_mono; [reflexivity|lia].
Qed.

End StartBlockAssertionFacts.

(** X6. StartBlock called as its assertion requires (block_offset / 2048
    not below the number of filters emitted) brings the number of emitted
    filters up to exactly block_offset / 2048, so the loop leaves through
    its test: the offsets already recorded stay as a prefix, the builder is
    untouched when the window is the one already reached, and no key is
    left pending once a filter was emitted. *)
Theorem StartBlock_brings_filters_up_to_window
        (block_offset : Z) (b : FilterBlockBuilder.t) :
  FilterBlockCalls.StartBlock_assertion block_offset b = true ->
  let b' := FilterBlockBuilder.StartBlock block_offset b in
  let count := size (FilterBlockBuilder.filter_offsets_ b) in
  let window := block_offset / FilterBlockBuilder.kFilterBase in
  size (FilterBlockBuilder.filter_offsets_ b') = window
  /\ FilterBlockBuilder.filter_offsets_ b
       `prefix_of` FilterBlockBuilder.filter_offsets_ b'
  /\ (window = count -> b' = b)
  /\ (count < window -> FilterBlockBuilder.start_ b' = []).
Proof.
  intros Hassert b' count window. subst b'.
  assert (Hle : count <= window).
  { unfold FilterBlockCalls.StartBlock_assertion in Hassert. cbv zeta in Hassert.
    fold count window in Hassert. apply Z.geb_le in Hassert. exact Hassert. }
  unfold FilterBlockBuilder.StartBlock. fold window.
  assert (Hloop : forall fuel b0,
    FilterBlockBuilder.filter_offsets_ b0
      `prefix_of` FilterBlockBuilder.filter_offsets_
                    (FilterBlockBuilder.StartBlock_loop fuel window b0)
    /\ (size (FilterBlockBuilder.filter_offsets_ b0) < window -> (0 < fuel)%nat ->
        FilterBlockBuilder.start_
          (FilterBlockBuilder.StartBlock_loop fuel window b0) = [])).
  { induction fuel as [|fuel IH]; intros b0; [split; [done|lia]|].
    cbn [FilterBlockBuilder.StartBlock_loop].
    destruct (Z.gtb_spec window (size (FilterBlockBuilder.filter_offsets_ b0)));
      [|split; [done|lia]].
    destruct (IH (FilterBlockBuilder.GenerateFilter b0)) as [Hpre Hstart].
    assert (Hgen : FilterBlockBuilder.filter_offsets_ b0
                     `prefix_of` FilterBlockBuilder.filter_offsets_
                                   (FilterBlockBuilder.GenerateFilter b0)
                   /\ FilterBlockBuilder.start_ (FilterBlockBuilder.GenerateFilter b0) = []).
    { unfold FilterBlockBuilder.GenerateFilter.
      destruct (Z.eqb_spec (size (FilterBlockBuilder.start_ b0)) 0) as [E|N];
        cbn [FilterBlockBuilder.filter_offsets_ FilterBlockBuilder.start_].
      - split; [by eexists|]. unfold size in E.
        by destruct (FilterBlockBuilder.start_ b0).
      - split; [by eexists|done]. }
    destruct Hgen as [Hg1 Hg2]. split; [by etrans|].
    intros _ _.
    destruct (Z.lt_ge_cases
                (size (FilterBlockBuilder.filter_offsets_
                         (FilterBlockBuilder.GenerateFilter b0))) window) as [Hlt|Hge].
    - destruct fuel as [|fuel'].
      + done.
      + apply Hstart; [done|lia].
    - by rewrite SegmentFacts.StartBlock_loop_keeps. }
  pose proof (size_nonneg (FilterBlockBuilder.filter_offsets_ b)) as Hc0.
  fold count in Hc0.
  destruct (Hloop (Z.to_nat window) b) as [Hpre Hstart].
  split_and!.
  - apply SegmentFacts.StartBlock_loop_count; [done|]. fold count. lia.
  - exact Hpre.
  - intros Heq. apply SegmentFacts.StartBlock_loop_keeps. fold count. lia.
  - intros Hlt. apply Hstart; [done|]. lia.
Qed.

(** A builder with one filter and a key pending, moved to window 3. *)
Lemma StartBlock_brings_filters_up_to_window_witness :
  let b :=
    FilterBlockBuilder.AddKey (Example.key_of "foo")
      (FilterBlockBuilder.StartBlock 2048 (FilterBlockBuilder.new Example.bloom)) in
  let b' := FilterBlockBuilder.StartBlock 7000 b in
  size (FilterBlockBuilder.filter_offsets_ b') = 3
  /\ FilterBlockBuilder.filter_offsets_ b
       `prefix_of` FilterBlockBuilder.filter_offsets_ b'
  /\ FilterBlockBuilder.start_ b' = [].
Proof.
  intros b b'.
  destruct (StartBlock_brings_filters_up_to_window 7000 b) as (H1 & H2 & _ & H4).
  - vm_compute. reflexivity.
  - split_and!; [exact H1|exact H2|]. apply H4. vm_compute. reflexivity.
Defined.

(** X7. The keys given to AddKey since the last filter are flattened into
    one string with their start offsets; GenerateFilter cuts them apart
    again and hands exactly that key list (empty keys included), with its
    length, to the policy's CreateFilter, records the old end of the filter
    data as the offset of the new filter, and leaves no key pending. *)
Theorem GenerateFilter_passes_added_keys
        (keys : list (list Z)) (b : FilterBlockBuilder.t) :
  keys <> [] ->
  size keys < 2 ^ 31 ->
  FilterBlockBuilder.start_ b = [] ->
  FilterBlockBuilder.keys_ b = [] ->
  let b' := FilterBlockBuilder.GenerateFilter (FilterBlockCalls.add_keys keys b) in
  FilterBlockBuilder.result_ b'
  = FilterPolicy.CreateFilter (FilterBlockBuilder.policy_ b) keys (size keys)
                              (FilterBlockBuilder.result_ b)
  /\ FilterBlockBuilder.filter_offsets_ b'
     = FilterBlockBuilder.filter_offsets_ b
       ++ [wrap32 (size (FilterBlockBuilder.result_ b))]
  /\ FilterBlockBuilder.keys_ b' = []
  /\ FilterBlockBuilder.start_ b' = [].
Proof.
  intros Hne Hn Hstart Hkeys b'. subst b'.
  destruct (FilterBlockCallFacts.add_keys_fields keys b) as (Hk & Hs & Hr & Ho & Hp).
  rewrite Hkeys in Hk, Hs. rewrite Hstart in Hs. cbn [app] in Hk, Hs.
  change (size (@nil Z)) with 0 in Hs.
  unfold FilterBlockBuilder.GenerateFilter.
  rewrite Hk, Hs, Hr, Ho, Hp.
  assert (Hsz : size (FilterBlockView.starts_from 0 keys) = size keys).
  { unfold size. by rewrite LayoutFacts.length_starts_from. }
  destruct (Z.eqb_spec (size (FilterBlockView.starts_from 0 keys)) 0) as [E|_].
  { rewrite Hsz in E. destruct keys; [done|]. unfold size in E. cbn in E. lia. }
  cbn [FilterBlockBuilder.result_ FilterBlockBuilder.filter_offsets_
       FilterBlockBuilder.keys_ FilterBlockBuilder.start_].
  rewrite (LayoutFacts.rebuild_keys keys).
  rewrite Hsz, to_int32_small by (pose proof (size_nonneg keys); lia).
  done.
Qed.

Lemma GenerateFilter_passes_added_keys_witness :
  let keys := [Example.key_of "apple"; []; Example.key_of "cherry"] in
  FilterBlockBuilder.result_
    (FilterBlockBuilder.GenerateFilter
       (FilterBlockCalls.add_keys keys (FilterBlockBuilder.new Example.bloom)))
  = FilterPolicy.CreateFilter Example.bloom keys 3 [].
Proof.
  pose proof (GenerateFilter_passes_added_keys
                [Example.key_of "apple"; []; Example.key_of "cherry"]
                (FilterBlockBuilder.new Example.bloom)) as H.
  destruct H as (H & _).
  - discriminate.
  - reflexivity.
  - reflexivity.
  - reflexivity.
  - exact H.
Defined.

(** X8. The reader finds what the builder wrote: for any sequence of
    StartBlock and AddKey calls closed by Finish, with a lawful policy, the
    reader takes the block as its data, reads back the base 11 and as many
    offset entries as filters were emitted, places the offset array right
    after the filters, and answers true for every block offset whose window
    is at or beyond that count. *)
Theorem reader_recovers_the_filter_count
        (shift_out_of_range : Z -> Z -> Z)
        (P : FilterPolicy.t) (HP : LawfulPolicy P)
        (calls : list FilterBlockCalls.call) (block_offset : Z) (key : list Z) :
  size calls < 2 ^ 31 ->
  let b := FilterBlockBuilder.Finish
             (FilterBlockCalls.run calls (FilterBlockBuilder.new P)) in
  let contents := FilterBlockBuilder.result_ b in
  let count := size (FilterBlockBuilder.filter_offsets_ b) in
  size contents < 2 ^ 32 ->
  let reader := FilterBlockReader.new P contents in
  FilterBlockReader.data_ reader = contents
  /\ FilterBlockReader.num_ reader = count
  /\ FilterBlockReader.base_lg_ reader = FilterBlockBuilder.kFilterBaseLg
  /\ FilterBlockReader.offset_ reader = size contents - 5 - 4 * count
  /\ (count <= block_offset / FilterBlockBuilder.kFilterBase ->
      FilterBlockReader.KeyMayMatch shift_out_of_range reader block_offset key
      = true).
Proof.
  intros Hcalls b contents count Hsmall reader.
  destruct (FilterBlockCallFacts.run_represents P calls (FilterBlockBuilder.new P)
              [] [] eq_refl (FilterBlockFacts.represents_new P))
    as (filters & pending & Hrep & Hpol & _ & Hn).
  { change (size (@nil (list Z))) with 0. lia. }
  change (size (@nil (list Z))) with 0 in Hn.
  destruct (FilterBlockCallFacts.Finish_represents P _ filters pending Hpol Hrep
              ltac:(lia)) as (filters' & Hres & Hcount & _).
  fold b in Hres, Hcount. fold contents in Hres. fold count in Hcount.
  assert (Hf : size (concat filters') < 2 ^ 32).
  { rewrite Hres, FilterBlockReaderFacts.size_contents_of in Hsmall.
    pose proof (size_nonneg filters'). lia. }
  subst reader. rewrite Hres.
  rewrite FilterBlockReaderFacts.new_contents_of by done.
  cbn [FilterBlockReader.data_ FilterBlockReader.num_ FilterBlockReader.base_lg_
       FilterBlockReader.offset_].
  split_and!; [done|done|done| |].
  - rewrite FilterBlockReaderFacts.size_contents_of, Hcount. lia.
  - intros Hge.
    pose proof (size_nonneg filters') as Hf0.
    assert (Hbo : 0 <= block_offset).
    { destruct (Z.le_gt_cases 0 block_offset) as [|Hneg]; [done|].
      assert (block_offset / FilterBlockBuilder.kFilterBase < 0); [|lia].
      apply Z.div_lt_upper_bound; [reflexivity|lia]. }
    rewrite <- (FilterBlockReaderFacts.new_contents_of P) by done.
    rewrite FilterBlockReaderFacts.KeyMayMatch_contents_of by done.
    rewrite (proj2 (lookup_ge_None filters' _)); [done|].
    unfold size in *. lia.
Qed.

Lemma reader_recovers_the_filter_count_witness :
  let calls :=
    [ FilterBlockCalls.CallStartBlock 0;
      FilterBlockCalls.CallAddKey (Example.key_of "apple");
      FilterBlockCalls.CallStartBlock 5000;
      FilterBlockCalls.CallAddKey (Example.key_of "banana") ] in
  FilterBlockReader.num_
    (FilterBlockReader.new Example.bloom
       (FilterBlockBuilder.result_
          (FilterBlockBuilder.Finish
             (FilterBlockCalls.run calls (FilterBlockBuilder.new Example.bloom)))))
  = 3.
Proof.
  pose proof (reader_recovers_the_filter_count Example.shift_out_of_range
                Example.bloom (bloom_lawful Example.Hash 10 ltac:(lia))
                [ FilterBlockCalls.CallStartBlock 0;
                  FilterBlockCalls.CallAddKey (Example.key_of "apple");
                  FilterBlockCalls.CallStartBlock 5000;
                  FilterBlockCalls.CallAddKey (Example.key_of "banana") ]
                0 []) as H.
  destruct H as (_ & H & _).
  - reflexivity.
  - vm_compute. reflexivity.
  - exact H.
Defined.

(** X9. The filter of a window is made of the keys of that window and of
    nothing else: when keys are added with no key pending, and a later
    StartBlock moves on to a further window, then whatever calls follow, the
    reader of the finished block answers, at every block offset in the
    window those keys were added for, what the policy's KeyMayMatch answers
    on the filter its CreateFilter appends for exactly those keys. *)
Theorem window_filter_is_made_of_its_keys
        (shift_out_of_range : Z -> Z -> Z)
        (P : FilterPolicy.t) (HP : LawfulPolicy P)
        (before after : list FilterBlockCalls.call) (keys : list (list Z))
        (next_offset block_offset : Z) (key : list Z) :
  let b0 := FilterBlockCalls.run before (FilterBlockBuilder.new P) in
  let window := size (FilterBlockBuilder.filter_offsets_ b0) in
  let calls :=
    before ++ map FilterBlockCalls.CallAddKey keys
           ++ FilterBlockCalls.CallStartBlock next_offset :: after in
  let contents :=
    FilterBlockBuilder.result_
      (FilterBlockBuilder.Finish
         (FilterBlockCalls.run calls (FilterBlockBuilder.new P))) in
  FilterBlockBuilder.start_ b0 = [] ->
  keys <> [] ->
  window < next_offset / FilterBlockBuilder.kFilterBase ->
  size calls < 2 ^ 31 ->
  size contents < 2 ^ 32 ->
  0 <= block_offset ->
  block_offset / FilterBlockBuilder.kFilterBase = window ->
  FilterBlockReader.KeyMayMatch shift_out_of_range
    (FilterBlockReader.new P contents) block_offset key
  = FilterPolicy.KeyMayMatch P key
      (drop (length (FilterBlockBuilder.result_ b0))
            (FilterPolicy.CreateFilter P keys (size keys)
                                       (FilterBlockBuilder.result_ b0))).
Proof.
  intros b0 window calls contents Hstart Hne Hnext Hcalls Hsmall Hbo Hwin.
  assert (Hsz : size calls = size before + size keys + 1 + size after).
  { subst calls. rewrite !size_app. unfold size. cbn [length].
    rewrite length_map. lia. }
  pose proof (size_nonneg before) as H1. pose proof (size_nonneg keys) as H2.
  pose proof (size_nonneg after) as H3.
  (* up to the keys *)
  destruct (FilterBlockCallFacts.run_represents P before (FilterBlockBuilder.new P)
              [] [] eq_refl (FilterBlockFacts.represents_new P))
    as (filters & pending & Hrep & Hpol & _ & Hn).
  { change (size (@nil (list Z))) with 0. lia. }
  fold b0 in Hrep, Hpol.
  pose proof (FilterBlockCallFacts.represents_start_nil _ _ _ Hrep Hstart) as ->.
  assert (Hw : window = size filters).
  { subst window. by eapply FilterBlockFacts.represents_offsets. }
  assert (Hres0 : FilterBlockBuilder.result_ b0 = concat filters) by apply Hrep.
  (* the keys, then the StartBlock that closes their window *)
  pose proof (FilterBlockCallFacts.represents_add_keys b0 filters [] keys Hrep) as Hrep1.
  cbn [app] in Hrep1.
  assert (Hpol1 : FilterBlockBuilder.policy_ (FilterBlockCalls.add_keys keys b0) = P).
  { destruct (FilterBlockCallFacts.add_keys_fields keys b0) as (_ & _ & _ & _ & ->).
    done. }
  destruct (FilterBlockCallFacts.StartBlock_exact P next_offset _ filters keys
              Hpol1 Hrep1 Hne ltac:(lia) ltac:(lia)) as [Hrep2 Hpol2].
  set (f := FilterBlockCalls.appended_filter P keys (concat filters)) in *.
  (* whatever follows *)
  destruct (FilterBlockCallFacts.run_represents P after _ _ [] Hpol2 Hrep2)
    as (filters3 & pending3 & Hrep3 & Hpol3 & Hpre3 & Hn3).
  { change (size (@nil (list Z))) with 0. lia. }
  change (size (@nil (list Z))) with 0 in Hn3.
  destruct (FilterBlockCallFacts.Finish_represents P _ filters3 pending3 Hpol3 Hrep3
              ltac:(lia)) as (filters4 & Hres & _ & Hpre4).
  assert (Hrun : FilterBlockCalls.run calls (FilterBlockBuilder.new P)
                 = FilterBlockCalls.run after
                     (FilterBlockBuilder.StartBlock next_offset
                        (FilterBlockCalls.add_keys keys b0))).
  { subst calls b0.
    rewrite !FilterBlockCallFacts.run_app_calls, FilterBlockCallFacts.run_add_keys.
    reflexivity. }
  subst contents. rewrite Hrun, Hres in *.
  assert (Hf : size (concat filters4) < 2 ^ 32).
  { rewrite FilterBlockReaderFacts.size_contents_of in Hsmall.
    pose proof (size_nonneg filters4). lia. }
  rewrite FilterBlockReaderFacts.KeyMayMatch_contents_of by done.
  assert (Hlook : filters4 !! Z.to_nat (block_offset / FilterBlockBuilder.kFilterBase)
                  = Some f).
  { destruct Hpre3 as [k3 ->]. destruct Hpre4 as [k4 ->].
    rewrite Hwin, Hw. unfold size. rewrite Nat2Z.id.
    rewrite <- !app_assoc. by apply list_lookup_middle. }
  rewrite Hlook, Hres0. reflexivity.
Qed.

Lemma window_filter_is_made_of_its_keys_witness :
  let before := [FilterBlockCalls.CallStartBlock 0] in
  let keys := [Example.key_of "apple"; Example.key_of "banana"] in
  let after :=
    [ FilterBlockCalls.CallAddKey (Example.key_of "cherry");
      FilterBlockCalls.CallStartBlock 9000 ] in
  let calls :=
    before ++ map FilterBlockCalls.CallAddKey keys
           ++ FilterBlockCalls.CallStartBlock 5000 :: after in
  FilterBlockReader.KeyMayMatch Example.shift_out_of_range
    (FilterBlockReader.new Example.bloom
       (FilterBlockBuilder.result_
          (FilterBlockBuilder.Finish
             (FilterBlockCalls.run calls (FilterBlockBuilder.new Example.bloom)))))
    100 (Example.key_of "cherry")
  = FilterPolicy.KeyMayMatch Example.bloom (Example.key_of "cherry")
      (drop 0 (FilterPolicy.CreateFilter Example.bloom keys 2 [])).
Proof.
  apply (window_filter_is_made_of_its_keys Example.shift_out_of_range
           Example.bloom (bloom_lawful Example.Hash 10 ltac:(lia))
           [FilterBlockCalls.CallStartBlock 0]
           [ FilterBlockCalls.CallAddKey (Example.key_of "cherry");
             FilterBlockCalls.CallStartBlock 9000 ]
           [Example.key_of "apple"; Example.key_of "banana"]
           5000 100 (Example.key_of "cherry")).
  - reflexivity.
  - discriminate.
  - vm_compute. reflexivity.
  - reflexivity.
  - vm_compute. reflexivity.
  - lia.
  - reflexivity.
Defined.

(** * More on the table builder *)
Module TableBuilderMoreFacts.
Import TableBuilder TableBuilderView TableBuilderFacts.

Section WithPort.
Variable crc32c_Value : list Z -> Z.
Variable crc32c_Extend : Z -> list Z -> Z.
Variable Snappy_Compress : list Z -> option (list Z).

Abbreviation WriteRawBlock := (WriteRawBlock crc32c_Value crc32c_Extend).
Abbreviation WriteBlock := (WriteBlock crc32c_Value crc32c_Extend Snappy_Compress).
Abbreviation Flush := (Flush crc32c_Value crc32c_Extend Snappy_Compress).
Abbreviation Add := (Add crc32c_Value crc32c_Extend Snappy_Compress).
Abbreviation Finish := (Finish crc32c_Value crc32c_Extend Snappy_Compress).
Abbreviation run := (run crc32c_Value crc32c_Extend Snappy_Compress).
Abbreviation do_call := (do_call crc32c_Value crc32c_Extend Snappy_Compress).
Abbreviation trailer := (trailer crc32c_Value crc32c_Extend).

(** Whatever the sink answers, writing a block changes the file, the
    status and the offset, and nothing else. *)
Lemma WriteRawBlock_fields c t r :
  exists f s o,
    (WriteRawBlock c t r).1 = set_offset o (set_status s (set_file f r)).
Proof.
  unfold TableBuilder.WriteRawBlock.
  destruct (WritableFile.Append c (file r)) as [f s]. simpl_rep.
  destruct (ok s); [|by exists f, s, (offset r)].
  match goal with
  | |- context [WritableFile.Append ?d f] =>
      destruct (WritableFile.Append d f) as [f2 s2]
  end.
  simpl_rep. destruct (ok s2); cbn [fst]; by eexists f2, s2, _.
Qed.

Lemma WriteBlock_fields block r :
  exists f s o,
    (WriteBlock block r).1.1 = set_offset o (set_status s (set_file f r)).
Proof.
  unfold TableBuilder.WriteBlock.
  match goal with
  | |- context [match ?e with (_, _) => _ end] => destruct e as [c t]
  end.
  destruct (WriteRawBlock_fields c t r) as (f & s & o & E).
  destruct (WriteRawBlock c t r) as [r' h]. cbn in *. by exists f, s, o.
Qed.

(** Flush leaves the entry count and the options alone, and a Flush
    that finds entries leaves an empty data block, whatever the sink
    answers. *)
Lemma Flush_frame r :
  num_entries (Flush r) = num_entries r
  /\ options (Flush r) = options r
  /\ (status r = OK -> BlockBuilder.empty (data_block r) = false ->
      data_block (Flush r) = BlockBuilder.new).
Proof.
  unfold TableBuilder.Flush.
  destruct (status r) eqn:Hst; cbn [ok negb]; [|by split_and!].
  destruct (BlockBuilder.empty (data_block r)) eqn:He; [by split_and!|].
  destruct (WriteBlock_fields (data_block r) r) as (f & s & o & E).
  pose proof (PendingFacts.WriteBlock_keeps crc32c_Value crc32c_Extend Snappy_Compress
                (data_block r) r) as (_ & _ & Hb).
  destruct (WriteBlock (data_block r) r) as [[r' h] b].
  cbn [fst snd] in E, Hb. subst r' b. simpl_rep.
  destruct (ok s); simpl_rep.
  - destruct (WritableFile.Flush f) as [f' s']. simpl_rep.
    destruct (filter_block r); by split_and!.
  - destruct (filter_block r); by split_and!.
Qed.

(** Add on a builder without error: the entry goes in, and the data
    block is flushed exactly when its size estimate has reached
    block_size. *)
Lemma Add_steps key value r :
  status r = OK ->
  exists r_mid,
    status r_mid = OK
    /\ options r_mid = options r
    /\ num_entries r_mid = num_entries r + 1
    /\ data_block r_mid
       = BlockBuilder.Add (block_restart_interval (options r)) key value
                          (data_block r)
    /\ ((BlockBuilder.CurrentSizeEstimate (data_block r_mid)
           < block_size (options r)
         /\ Add key value r = r_mid)
        \/ (block_size (options r)
              <= BlockBuilder.CurrentSizeEstimate (data_block r_mid)
            /\ Add key value r = Flush r_mid)).
Proof.
  intros Hst. unfold TableBuilder.Add. rewrite Hst. cbn [ok negb].
  match goal with
  | |- context [if ?c then TableBuilder.Flush _ _ _ ?m else _] =>
      exists m; destruct c eqn:Hc
  end.
  all: destruct (pending_index_entry r) eqn:Hp;
    destruct (filter_block r) eqn:Hfb; simpl_rep; rewrite ?Hfb, ?Hp in *; simpl_rep;
    split_and!; try done.
  all: try (right; split; [lia|done]).
  all: left; split; [lia|done].
Qed.

Lemma Flush_index_block_options r :
  index_block_options (Flush r) = index_block_options r.
Proof.
  unfold TableBuilder.Flush.
  destruct (negb (ok (status r))); [done|].
  destruct (BlockBuilder.empty (data_block r)); [done|].
  destruct (WriteBlock_fields (data_block r) r) as (f & s & o & E).
  destruct (WriteBlock (data_block r) r) as [[r' h] b].
  cbn [fst snd] in E. subst r'. simpl_rep.
  destruct (ok s); simpl_rep.
  - destruct (WritableFile.Flush f) as [f' s']. simpl_rep.
    by destruct (filter_block r).
  - by destruct (filter_block r).
Qed.

Lemma Finish_num_entries r : num_entries (Finish r) = num_entries r.
Proof.
  unfold TableBuilder.Finish.
  destruct (Flush_frame r) as (Hn1 & _).
  set (r1 := Flush r) in *. clearbody r1.
  assert (Hn2 : num_entries (set_closed true r1) = num_entries r) by done.
  set (r2 := set_closed true r1) in *. clearbody r2.
  match goal with
  | |- context [match ?e with (_, _) => _ end] =>
      destruct e as [r3 filter_block_handle] eqn:E3
  end.
  assert (Hn3 : num_entries r3 = num_entries r).
  { destruct (filter_block r2) as [fb|]; [destruct (ok (status r2))|].
    - match type of E3 with
      | TableBuilder.WriteRawBlock _ _ ?c ?t ?r0 = _ =>
          destruct (WriteRawBlock_fields c t r0) as (f & s & o & E);
          rewrite E3 in E
      end.
      cbn [fst] in E. by subst r3.
    - by injection E3 as <- <-.
    - by injection E3 as <- <-. }
  clear E3.
  match goal with
  | |- context [match ?e with (_, _) => _ end] =>
      destruct e as [r4 metaindex_block_handle] eqn:E4
  end.
  assert (Hn4 : num_entries r4 = num_entries r).
  { destruct (ok (status r3)); [|by injection E4 as <- <-].
    match type of E4 with
    | context [TableBuilder.WriteBlock _ _ _ ?b ?r0] =>
        destruct (WriteBlock_fields b r0) as (f & s & o & E);
        destruct (WriteBlock b r0) as [[r' h'] b']
    end.
    injection E4 as <- <-. cbn [fst] in E. by subst r'. }
  clear E4.
  match goal with
  | |- context [match ?e with (_, _) => _ end] =>
      destruct e as [r5 index_block_handle] eqn:E5
  end.
  assert (Hn5 : num_entries r5 = num_entries r).
  { destruct (ok (status r4)); [|by injection E5 as <- <-].
    match type of E5 with
    | context [TableBuilder.WriteBlock _ _ _ ?b ?r0] =>
        assert (Hr : num_entries r0 = num_entries r4)
          by (destruct (pending_index_entry r4); done);
        set (rr := r0) in *; clearbody rr;
        destruct (WriteBlock_fields (index_block rr) rr) as (f & s & o & E);
        destruct (WriteBlock (index_block rr) rr) as [[r' h'] b']
    end.
    injection E5 as <- <-. cbn [fst] in E. subst r'. simpl_rep. congruence. }
  clear E5.
  destruct (ok (status r5)); [|done].
  match goal with
  | |- context [WritableFile.Append ?d (file r5)] =>
      destruct (WritableFile.Append d (file r5)) as [f s]
  end.
  simpl_rep. by destruct (ok s).
Qed.

Lemma run_options calls r : options (run calls r) = options r.
Proof.
  revert r. induction calls as [|c calls IH]; intros r; [done|].
  rewrite run_cons, IH. destruct c as [key value|]; cbn [TableBuilder.do_call].
  - destruct (status r) eqn:Hst.
    + destruct (Add_steps key value r Hst)
        as (r_mid & _ & Ho & _ & _ & [[_ ->] | [_ ->]]); [done|].
      destruct (Flush_frame r_mid) as (_ & -> & _). done.
    + unfold TableBuilder.Add. by rewrite Hst.
  - by destruct (Flush_frame r) as (_ & -> & _).
Qed.

(** A builder in error stays as it is. *)
Lemma run_error calls r : status r <> OK -> run calls r = r.
Proof.
  intros Hst. induction calls as [|c calls IH]; [done|].
  rewrite run_cons.
  assert (E : do_call r c = r); [|by rewrite E].
  destruct (status r) eqn:Hs; [done|].
  destruct c; cbn [TableBuilder.do_call];
    unfold TableBuilder.Add, TableBuilder.Flush; by rewrite Hs.
Qed.

(** WriteRawBlock on a sink without errors, as an equation. *)
Lemma WriteRawBlock_eq base c t r :
  io_ok base r ->
  exists f',
    WritableFile.appended f' = WritableFile.appended (file r) ++ c ++ trailer c t
    /\ io_ok base (set_offset (wrap64 (offset r + (size c + kBlockTrailerSize)))
                              (set_status OK (set_file f' r)))
    /\ WriteRawBlock c t r
       = (set_offset (wrap64 (offset r + (size c + kBlockTrailerSize)))
                     (set_status OK (set_file f' r)),
          {| BlockHandle.offset_ := offset r; BlockHandle.size_ := size c |}).
Proof.
  intros Hio. pose proof Hio as (Hst & Hres & Hw0 & Hoff).
  destruct (WriteRawBlock_ok crc32c_Value crc32c_Extend base c t r Hio)
    as (r' & E & Hio' & _).
  revert E. unfold TableBuilder.WriteRawBlock.
  destruct (Append_ok c (file r) Hres) as (f1 & -> & Ha1 & Hr1).
  cbn [status set_status set_file file ok].
  destruct (Append_ok (trailer c t) f1 Hr1) as (f2 & E2 & Ha2 & Hr2).
  unfold TableBuilderView.trailer in E2. rewrite E2.
  cbn [status set_status set_file file ok]. intros E.
  exists f2. split; [by rewrite Ha2, Ha1, app_assoc|].
  injection E as <-. split; [exact Hio'|reflexivity].
Qed.

(** WriteBlock without compression on a sink without errors. *)
Lemma WriteBlock_none base block r :
  io_ok base r -> compression (options r) = kNoCompression ->
  let raw := BlockBuilder.buffer_ (BlockBuilder.Finish block) in
  exists f',
    WritableFile.appended f'
    = WritableFile.appended (file r) ++ raw ++ trailer raw kNoCompression
    /\ io_ok base (set_offset (wrap64 (offset r + (size raw + kBlockTrailerSize)))
                              (set_status OK (set_file f' r)))
    /\ WriteBlock block r
       = (set_offset (wrap64 (offset r + (size raw + kBlockTrailerSize)))
                     (set_status OK (set_file f' r)),
          {| BlockHandle.offset_ := offset r; BlockHandle.size_ := size raw |},
          BlockBuilder.new).
Proof.
  intros Hio Hc raw. unfold TableBuilder.WriteBlock. rewrite Hc. fold raw.
  destruct (WriteRawBlock_eq base raw kNoCompression r Hio) as (f' & Ha & Hio' & ->).
  by exists f'.
Qed.

Lemma io_ok_written base r r' w :
  io_ok base r -> status r' = OK ->
  Forall (eq OK) (WritableFile.results (file r')) ->
  WritableFile.appended (file r') = WritableFile.appended (file r) ++ w ->
  offset r' = wrap64 (offset r + size w) ->
  io_ok base r'.
Proof.
  intros (Hst & Hres & Hw0 & Hoff) Hst' Hres' Happ Hoff'.
  unfold io_ok, written in *. rewrite Happ, size_app.
  pose proof (size_nonneg w). split_and!; [done|done|lia|].
  rewrite Hoff', Hoff, wrap64_add_l. f_equal. lia.
Qed.

End WithPort.
End TableBuilderMoreFacts.

Section TableBuilderProperties.
Variable crc32c_Value : list Z -> Z.
Variable crc32c_Extend : Z -> list Z -> Z.
Variable Snappy_Compress : list Z -> option (list Z).

Import TableBuilder TableBuilderView TableBuilderFacts TableBuilderMoreFacts.

Abbreviation WriteRawBlock := (WriteRawBlock crc32c_Value crc32c_Extend).
Abbreviation WriteBlock := (WriteBlock crc32c_Value crc32c_Extend Snappy_Compress).
Abbreviation Flush := (Flush crc32c_Value crc32c_Extend Snappy_Compress).
Abbreviation Add := (Add crc32c_Value crc32c_Extend Snappy_Compress).
Abbreviation Finish := (Finish crc32c_Value crc32c_Extend Snappy_Compress).
Abbreviation run := (run crc32c_Value crc32c_Extend Snappy_Compress).
Abbreviation do_call := (do_call crc32c_Value crc32c_Extend Snappy_Compress).
Abbreviation trailer := (trailer crc32c_Value crc32c_Extend).

(** X10. On a sink without errors NumEntries is the number of Add calls
    made so far: Flush does not change it, and neither does Finish. *)
Theorem num_entries_counts_the_adds
        (opt : Options) (f : WritableFile.t) (calls : list call) :
  Forall (eq OK) (WritableFile.results f) ->
  size calls < 2 ^ 63 ->
  let r := run calls (new opt f) in
  NumEntries r = size (TableCalls.added calls)
  /\ NumEntries (Finish r) = size (TableCalls.added calls).
Proof.
  intros Hres _ r. unfold NumEntries.
  assert (Hrun : forall calls r0,
             io_ok (size (WritableFile.appended f)) r0 ->
             num_entries (run calls r0)
             = num_entries r0 + size (TableCalls.added calls)).
  { clear. induction calls as [|c calls IH]; intros r0 Hio.
    - cbn. change (size (@nil (list Z * list Z))) with 0. lia.
    - rewrite run_cons.
      destruct (do_call_io crc32c_Value crc32c_Extend Snappy_Compress _ r0 c Hio)
        as [Hio' _].
      rewrite (IH _ Hio'). pose proof Hio as (Hst & _).
      destruct c as [key value|]; cbn [TableBuilder.do_call TableCalls.added flat_map].
      + destruct (Add_steps crc32c_Value crc32c_Extend Snappy_Compress key value r0 Hst)
          as (r_mid & _ & _ & Hn & _ & [[_ ->] | [_ ->]]).
        * rewrite Hn, size_app. change (size [(key, value)]) with 1.
          fold (TableCalls.added calls). lia.
        * destruct (Flush_frame crc32c_Value crc32c_Extend Snappy_Compress r_mid)
            as (-> & _).
          rewrite Hn, size_app. change (size [(key, value)]) with 1.
          fold (TableCalls.added calls). lia.
      + destruct (Flush_frame crc32c_Value crc32c_Extend Snappy_Compress r0)
          as (-> & _).
        cbn [app]. fold (TableCalls.added calls). lia. }
  assert (H0 : num_entries (new opt f) = 0).
  { unfold new, new_Rep. cbn [filter_block]. by destruct (filter_policy opt). }
  assert (E : num_entries r = size (TableCalls.added calls)).
  { subst r. rewrite Hrun by (by apply new_io_ok). lia. }
  split; [exact E|].
  by rewrite Finish_num_entries.
Qed.

(** X11. An error is latched: once the status is not OK, Add and Flush
    leave the builder exactly as it is, so does any sequence of them, and
    Finish does what Abandon does: it marks the builder closed, hands
    nothing to the sink and returns the status it found. *)
Theorem error_latches_the_builder
        (r : Rep) (key value : list Z) (calls : list call) :
  status r <> OK ->
  Add key value r = r
  /\ Flush r = r
  /\ run calls r = r
  /\ Finish r = Abandon r
  /\ status (Finish r) = status r
  /\ file (Finish r) = file r.
Proof.
  intros Hst. destruct (status r) eqn:Hs; [done|].
  assert (HA : Add key value r = r) by (unfold TableBuilder.Add; by rewrite Hs).
  assert (HF : Flush r = r) by (unfold TableBuilder.Flush; by rewrite Hs).
  assert (HFin : Finish r = Abandon r).
  { unfold TableBuilder.Finish. rewrite HF. unfold Abandon.
    destruct (filter_block r) eqn:Hfb;
      repeat (progress (simpl_rep; rewrite ?Hs, ?Hfb; cbn [ok]; cbv beta iota zeta));
      reflexivity. }
  split_and!; [done|done| |done| |].
  - apply run_error. by rewrite Hs.
  - by rewrite HFin.
  - by rewrite HFin.
Qed.

(** X12. The data block being built never stays at or above block_size:
    after any sequence of Add and Flush calls on a new builder, whatever
    the sink answers, the data block is empty or its size estimate is below
    block_size. *)
Theorem data_block_is_flushed_at_block_size
        (opt : Options) (f : WritableFile.t) (calls : list call) :
  let r := run calls (new opt f) in
  BlockBuilder.empty (data_block r) = true
  \/ BlockBuilder.CurrentSizeEstimate (data_block r) < block_size opt.
Proof.
  intros r. subst r.
  set (inv := fun r : Rep =>
         options r = opt
         /\ (BlockBuilder.empty (data_block r) = true
             \/ BlockBuilder.CurrentSizeEstimate (data_block r) < block_size opt)).
  assert (Hflush : forall r, inv r -> inv (Flush r)).
  { intros r [Ho Hd].
    destruct (Flush_frame crc32c_Value crc32c_Extend Snappy_Compress r)
      as (_ & Ho' & Hnew).
    split; [congruence|].
    destruct (status r) eqn:Hst;
      [|unfold TableBuilder.Flush; rewrite Hst; exact Hd].
    destruct (BlockBuilder.empty (data_block r)) eqn:He.
    - unfold TableBuilder.Flush. rewrite Hst, He. cbn [ok negb]. by left.
    - left. by rewrite Hnew. }
  assert (Hadd : forall key value r, inv r -> inv (Add key value r)).
  { intros key value r [Ho Hd].
    destruct (status r) eqn:Hst;
      [|unfold TableBuilder.Add; rewrite Hst; by split].
    destruct (Add_steps crc32c_Value crc32c_Extend Snappy_Compress key value r Hst)
      as (r_mid & Hs & Hom & _ & Hdm & [[Hlt ->] | [Hge ->]]).
    - split; [congruence|]. right. by rewrite <- Ho.
    - destruct (Flush_frame crc32c_Value crc32c_Extend Snappy_Compress r_mid)
        as (_ & Ho' & Hnew).
      split; [congruence|]. left. rewrite Hnew; [done|done|].
      rewrite Hdm. apply BlockBuilder_Add_nonempty. }
  assert (Hrun : forall calls r, inv r -> inv (run calls r)).
  { clear -Hflush Hadd. induction calls as [|c calls IH]; intros r Hr; [done|].
    rewrite run_cons. apply IH. destruct c; cbn; auto. }
  apply Hrun. split.
  - unfold new, new_Rep. cbn [filter_block]. by destruct (filter_policy opt).
  - left. unfold new, new_Rep. cbn [filter_block]. by destruct (filter_policy opt).
Qed.

(** X13. The handle WriteRawBlock fills in locates the block: on a sink
    without errors the block contents lie in the file at the handle's
    offset (counted from where the table starts) with the handle's size,
    the five trailer bytes (type, masked CRC) follow at once and end the
    file, and FileSize moves to just past the trailer. *)
Theorem WriteRawBlock_handle_locates_the_block
        (base : Z) (block_contents : list Z) (type : CompressionType) (r : Rep) :
  io_ok base r ->
  written base r < 2 ^ 64 ->
  let '(r', handle) := WriteRawBlock block_contents type r in
  let bytes := WritableFile.appended (file r') in
  slice bytes (base + BlockHandle.offset_ handle) (BlockHandle.size_ handle)
  = block_contents
  /\ slice bytes (base + BlockHandle.offset_ handle + BlockHandle.size_ handle)
           kBlockTrailerSize
     = trailer block_contents type
  /\ size bytes
     = base + BlockHandle.offset_ handle + BlockHandle.size_ handle + kBlockTrailerSize
  /\ status r' = OK
  /\ FileSize r'
     = wrap64 (BlockHandle.offset_ handle + BlockHandle.size_ handle
               + kBlockTrailerSize).
Proof.
  intros Hio Hlt.
  destruct (WriteRawBlock_eq crc32c_Value crc32c_Extend base block_contents type r Hio)
    as (f' & Ha & Hio' & ->).
  cbv zeta. simpl_rep. cbn [BlockHandle.offset_ BlockHandle.size_].
  pose proof (io_ok_offset base r Hio Hlt) as Ho.
  assert (Hstart : base + offset r = size (WritableFile.appended (file r))).
  { rewrite Ho. unfold written. lia. }
  rewrite Ha, Hstart.
  split_and!.
  - unfold slice, size. rewrite !Nat2Z.id, drop_app_length. apply take_app_length.
  - unfold slice. rewrite <- size_app. unfold size at 1. rewrite Nat2Z.id.
    rewrite app_assoc, drop_app_length. reflexivity.
  - rewrite !size_app, size_trailer. lia.
  - done.
  - unfold FileSize. simpl_rep. f_equal. lia.
Qed.

(** X14. Flush with entries in the data block, no compression and a sink
    without errors: the finished data block goes to the file followed by its
    trailer, the pending handle records where it went (the old offset, the
    block's size), the index entry becomes pending, the data block is reset,
    FileSize moves past the trailer, and the filter builder is told the new
    offset. *)
Theorem Flush_writes_the_data_block (base : Z) (r : Rep) :
  io_ok base r ->
  BlockBuilder.empty (data_block r) = false ->
  compression (options r) = kNoCompression ->
  let block := BlockBuilder.buffer_ (BlockBuilder.Finish (data_block r)) in
  let r' := Flush r in
  WritableFile.appended (file r')
  = WritableFile.appended (file r) ++ block ++ trailer block kNoCompression
  /\ pending_handle r'
     = {| BlockHandle.offset_ := FileSize r; BlockHandle.size_ := size block |}
  /\ pending_index_entry r' = true
  /\ data_block r' = BlockBuilder.new
  /\ status r' = OK
  /\ FileSize r' = wrap64 (FileSize r + (size block + kBlockTrailerSize))
  /\ filter_block r'
     = FilterBlockBuilder.StartBlock (FileSize r') <$> filter_block r.
Proof.
  intros Hio He Hc block r'. subst r'. pose proof Hio as (Hst & _).
  unfold FileSize, TableBuilder.Flush. rewrite Hst, He. cbn [ok negb].
  destruct (WriteBlock_none crc32c_Value crc32c_Extend Snappy_Compress base
              (data_block r) r Hio Hc) as (f' & Ha & Hio' & ->).
  fold block. cbv beta iota zeta. simpl_rep. cbn [ok]. simpl_rep.
  destruct Hio' as (_ & Hres' & _). simpl_rep.
  destruct (Flush_file_ok f' Hres') as (f2 & -> & Ha2 & Hr2).
  simpl_rep.
  destruct (filter_block r) as [fb|] eqn:Hfb; simpl_rep;
    cbn [fmap option_fmap option_map]; rewrite Ha2, Ha; by split_and!.
Qed.

(** X15. Finish on a sink without errors, with a filter policy and no
    compression: after the closing Flush the file receives, in this order,
    the filter block, the metaindex block, the index block (each followed
    by its trailer) and the footer.  The metaindex block holds one entry,
    keyed "filter." and the policy's name, whose value is the encoded
    handle of the filter block; the index block first receives the entry
    that was pending; the footer holds the handles of the metaindex and
    index blocks, each giving the offset and size at which that block was
    written.  The builder ends closed, without error and with no index entry
    pending, and FileSize is past the footer. *)
Theorem Finish_writes_filter_metaindex_index_footer
        (base : Z) (r : Rep) (P : FilterPolicy.t) (fb : FilterBlockBuilder.t) :
  let r1 := Flush r in
  io_ok base r ->
  compression (options r) = kNoCompression ->
  filter_policy (options r) = Some P ->
  filter_block r1 = Some fb ->
  let filter := FilterBlockBuilder.result_ (FilterBlockBuilder.Finish fb) in
  let filter_handle :=
    {| BlockHandle.offset_ := FileSize r1; BlockHandle.size_ := size filter |} in
  let metaindex :=
    BlockBuilder.buffer_
      (BlockBuilder.Finish
         (BlockBuilder.Add (block_restart_interval (options r))
            (bytes_of_string "filter." ++ FilterPolicy.Name P)
            (BlockHandle.EncodeTo filter_handle []) BlockBuilder.new)) in
  let metaindex_handle :=
    {| BlockHandle.offset_ := wrap64 (FileSize r1 + (size filter + kBlockTrailerSize));
       BlockHandle.size_ := size metaindex |} in
  let index_builder :=
    if pending_index_entry r1 then
      BlockBuilder.Add (block_restart_interval (index_block_options r))
        (FindShortSuccessor (comparator (options r)) (last_key r1))
        (BlockHandle.EncodeTo (pending_handle r1) []) (index_block r1)
    else index_block r1 in
  let index := BlockBuilder.buffer_ (BlockBuilder.Finish index_builder) in
  let index_handle :=
    {| BlockHandle.offset_ :=
         wrap64 (BlockHandle.offset_ metaindex_handle
                 + (size metaindex + kBlockTrailerSize));
       BlockHandle.size_ := size index |} in
  let footer :=
    Footer.EncodeTo {| Footer.metaindex_handle_ := metaindex_handle;
                       Footer.index_handle_ := index_handle |} [] in
  let table := Finish r in
  WritableFile.appended (file table)
  = WritableFile.appended (file r1)
    ++ (filter ++ trailer filter kNoCompression)
    ++ (metaindex ++ trailer metaindex kNoCompression)
    ++ (index ++ trailer index kNoCompression)
    ++ footer
  /\ status table = OK
  /\ closed table = true
  /\ pending_index_entry table = false
  /\ FileSize table
     = wrap64 (BlockHandle.offset_ index_handle + (size index + kBlockTrailerSize)
               + size footer).
Proof.
  intros r1 Hio Hc HP Hfb. cbv zeta.
  destruct (Flush_io crc32c_Value crc32c_Extend Snappy_Compress base r Hio) as [Hio1 _].
  fold r1 in Hio1.
  assert (Hopt : options r1 = options r)
    by apply (Flush_frame crc32c_Value crc32c_Extend Snappy_Compress r).
  assert (Hidx : index_block_options r1 = index_block_options r)
    by apply (Flush_index_block_options crc32c_Value crc32c_Extend Snappy_Compress r).
  rewrite <- Hopt in Hc, HP. rewrite <- Hopt, <- Hidx. clear Hopt Hidx.
  unfold FileSize in *.
  set (table := Finish r).
  assert (Et : table = Finish r) by reflexivity.
  clearbody table. unfold TableBuilder.Finish in Et. fold r1 in Et. clearbody r1.
  set (filter := FilterBlockBuilder.result_ (FilterBlockBuilder.Finish fb)) in *.
  set (filter_handle :=
         {| BlockHandle.offset_ := offset r1; BlockHandle.size_ := size filter |}) in *.
  set (metaindex :=
         BlockBuilder.buffer_
           (BlockBuilder.Finish
              (BlockBuilder.Add (block_restart_interval (options r1))
                 (bytes_of_string "filter." ++ FilterPolicy.Name P)
                 (BlockHandle.EncodeTo filter_handle []) BlockBuilder.new))) in *.
  set (metaindex_handle :=
         {| BlockHandle.offset_ := wrap64 (offset r1 + (size filter + kBlockTrailerSize));
            BlockHandle.size_ := size metaindex |}) in *.
  set (index_builder :=
         if pending_index_entry r1 then
           BlockBuilder.Add (block_restart_interval (index_block_options r1))
             (FindShortSuccessor (comparator (options r1)) (last_key r1))
             (BlockHandle.EncodeTo (pending_handle r1) []) (index_block r1)
         else index_block r1) in *.
  set (index := BlockBuilder.buffer_ (BlockBuilder.Finish index_builder)) in *.
  set (index_handle :=
         {| BlockHandle.offset_ :=
              wrap64 (BlockHandle.offset_ metaindex_handle
                      + (size metaindex + kBlockTrailerSize));
            BlockHandle.size_ := size index |}) in *.
  set (footer :=
         Footer.EncodeTo {| Footer.metaindex_handle_ := metaindex_handle;
                            Footer.index_handle_ := index_handle |} []) in *.
  assert (Hih : index_handle
                = {| BlockHandle.offset_ :=
                       wrap64 (wrap64 (offset r1 + (size filter + kBlockTrailerSize))
                               + (size metaindex + kBlockTrailerSize));
                     BlockHandle.size_ := size index |}) by reflexivity.
  pose proof Hio1 as (Hst1 & _).
  (* the filter block *)
  simpl_rep. rewrite Hfb, Hst1 in Et. cbn [ok] in Et.
  assert (Hio2 : io_ok base (set_filter_block (Some (FilterBlockBuilder.Finish fb))
                                              (set_closed true r1)))
    by (by eapply io_ok_same).
  destruct (WriteRawBlock_eq crc32c_Value crc32c_Extend base filter kNoCompression
              _ Hio2) as (f3 & Ha3 & Hio3 & E3).
  fold filter in Et. rewrite E3 in Et. clear E3.
  cbv beta iota zeta in Et. simpl_rep. cbn [ok] in Et. rewrite HP in Et.
  (* the metaindex block *)
  fold filter_handle in Et.
  match type of Et with
  | context [TableBuilder.WriteBlock _ _ _ ?b ?r0] =>
      destruct (WriteBlock_none crc32c_Value crc32c_Extend Snappy_Compress base
                  b r0 Hio3 Hc) as (f4 & Ha4 & Hio4 & E4)
  end.
  fold metaindex in Ha4, Hio4, E4. rewrite E4 in Et. clear E4.
  cbv beta iota zeta in Et. simpl_rep. cbn [ok] in Et.
  fold metaindex_handle in Et.
  (* the index block *)
  subst index_builder.
  destruct (pending_index_entry r1) eqn:Hp.
  all: match type of Et with
       | context [TableBuilder.WriteBlock _ _ _ ?b ?r0] =>
           assert (Hio5 : io_ok base r0)
             by (eapply io_ok_same; [exact Hio4|done..]);
           assert (Hc5 : compression (options r0) = kNoCompression) by exact Hc;
           destruct (WriteBlock_none crc32c_Value crc32c_Extend Snappy_Compress base
                       b r0 Hio5 Hc5) as (f5 & Ha5 & Hio5' & E5)
       end.
  all: simpl_rep; fold index in Ha5, Hio5', E5.
  all: rewrite E5 in Et; clear E5; cbv beta iota zeta in Et; simpl_rep;
    cbn [ok] in Et; rewrite <- Hih in Et; fold footer in Et.
  all: destruct Hio5' as (_ & Hres5 & _); simpl_rep.
  all: destruct (Append_ok footer f5 Hres5) as (f6 & E6 & Ha6 & Hr6).
  all: rewrite E6 in Et; cbn [ok] in Et; subst table; simpl_rep.
  all: split_and!; try done.
  all: try (rewrite Ha6, Ha5, Ha4, Ha3; simpl_rep; by rewrite <- !app_assoc).
  all: rewrite Hih; cbn [BlockHandle.offset_]; by rewrite wrap64_add_l.
Qed.

(** X16. Finish on a sink without errors when the builder has no filter
    block: no filter block is written; the metaindex block is the block
    with no entry (one restart at 0 and the count 1), and it is followed by
    the index block and the footer as in X15. *)
Theorem Finish_without_filter_block (base : Z) (r : Rep) :
  let r1 := Flush r in
  io_ok base r ->
  compression (options r) = kNoCompression ->
  filter_block r1 = None ->
  let metaindex := [0; 0; 0; 0; 1; 0; 0; 0] in
  let metaindex_handle :=
    {| BlockHandle.offset_ := FileSize r1; BlockHandle.size_ := 8 |} in
  let index_builder :=
    if pending_index_entry r1 then
      BlockBuilder.Add (block_restart_interval (index_block_options r))
        (FindShortSuccessor (comparator (options r)) (last_key r1))
        (BlockHandle.EncodeTo (pending_handle r1) []) (index_block r1)
    else index_block r1 in
  let index := BlockBuilder.buffer_ (BlockBuilder.Finish index_builder) in
  let index_handle :=
    {| BlockHandle.offset_ := wrap64 (FileSize r1 + (8 + kBlockTrailerSize));
       BlockHandle.size_ := size index |} in
  let footer :=
    Footer.EncodeTo {| Footer.metaindex_handle_ := metaindex_handle;
                       Footer.index_handle_ := index_handle |} [] in
  let table := Finish r in
  WritableFile.appended (file table)
  = WritableFile.appended (file r1)
    ++ (metaindex ++ trailer metaindex kNoCompression)
    ++ (index ++ trailer index kNoCompression)
    ++ footer
  /\ status table = OK
  /\ closed table = true
  /\ filter_block table = None
  /\ FileSize table
     = wrap64 (BlockHandle.offset_ index_handle + (size index + kBlockTrailerSize)
               + size footer).
Proof.
  intros r1 Hio Hc Hfb. cbv zeta.
  destruct (Flush_io crc32c_Value crc32c_Extend Snappy_Compress base r Hio) as [Hio1 _].
  fold r1 in Hio1.
  assert (Hopt : options r1 = options r)
    by apply (Flush_frame crc32c_Value crc32c_Extend Snappy_Compress r).
  assert (Hidx : index_block_options r1 = index_block_options r)
    by apply (Flush_index_block_options crc32c_Value crc32c_Extend Snappy_Compress r).
  rewrite <- Hopt in Hc. rewrite <- Hopt, <- Hidx. clear Hopt Hidx.
  unfold FileSize in *.
  set (table := Finish r).
  assert (Et : table = Finish r) by reflexivity.
  clearbody table. unfold TableBuilder.Finish in Et. fold r1 in Et. clearbody r1.
  set (metaindex := [0; 0; 0; 0; 1; 0; 0; 0]) in *.
  set (metaindex_handle :=
         {| BlockHandle.offset_ := offset r1; BlockHandle.size_ := 8 |}) in *.
  set (index_builder :=
         if pending_index_entry r1 then
           BlockBuilder.Add (block_restart_interval (index_block_options r1))
             (FindShortSuccessor (comparator (options r1)) (last_key r1))
             (BlockHandle.EncodeTo (pending_handle r1) []) (index_block r1)
         else index_block r1) in *.
  set (index := BlockBuilder.buffer_ (BlockBuilder.Finish index_builder)) in *.
  set (index_handle :=
         {| BlockHandle.offset_ := wrap64 (offset r1 + (8 + kBlockTrailerSize));
            BlockHandle.size_ := size index |}) in *.
  set (footer :=
         Footer.EncodeTo {| Footer.metaindex_handle_ := metaindex_handle;
                            Footer.index_handle_ := index_handle |} []) in *.
  pose proof Hio1 as (Hst1 & _).
  (* no filter block *)
  simpl_rep. rewrite Hfb in Et. cbv beta iota zeta in Et. simpl_rep.
  rewrite Hst1, Hfb in Et. cbn [ok] in Et.
  (* the metaindex block *)
  assert (Hio2 : io_ok base (set_closed true r1)) by (by eapply io_ok_same).
  destruct (WriteBlock_none crc32c_Value crc32c_Extend Snappy_Compress base
              BlockBuilder.new (set_closed true r1) Hio2 Hc)
    as (f4 & Ha4 & Hio4 & E4).
  change (BlockBuilder.buffer_ (BlockBuilder.Finish BlockBuilder.new))
    with metaindex in Ha4, Hio4, E4.
  change (size metaindex) with 8 in Hio4, E4.
  rewrite E4 in Et. clear E4.
  cbv beta iota zeta in Et. simpl_rep. cbn [ok] in Et.
  fold metaindex_handle in Et.
  (* the index block *)
  subst index_builder.
  destruct (pending_index_entry r1) eqn:Hp.
  all: match type of Et with
       | context [TableBuilder.WriteBlock _ _ _ ?b ?r0] =>
           assert (Hio5 : io_ok base r0)
             by (eapply io_ok_same; [exact Hio4|done..]);
           assert (Hc5 : compression (options r0) = kNoCompression) by exact Hc;
           destruct (WriteBlock_none crc32c_Value crc32c_Extend Snappy_Compress base
                       b r0 Hio5 Hc5) as (f5 & Ha5 & Hio5' & E5)
       end.
  all: simpl_rep; fold index in Ha5, Hio5', E5.
  all: rewrite E5 in Et; clear E5; cbv beta iota zeta in Et; simpl_rep;
    cbn [ok] in Et; fold index_handle in Et; fold footer in Et.
  all: destruct Hio5' as (_ & Hres5 & _); simpl_rep.
  all: destruct (Append_ok footer f5 Hres5) as (f6 & E6 & Ha6 & Hr6).
  all: rewrite E6 in Et; cbn [ok] in Et; subst table; simpl_rep.
  all: split_and!; try done.
  all: try (rewrite Ha6, Ha5, Ha4; simpl_rep; by rewrite <- !app_assoc).
  all: subst index_handle; cbn [BlockHandle.offset_]; by rewrite wrap64_add_l.
Qed.

End TableBuilderProperties.

(** * The table builder on concrete inputs *)
Module TableExamples.
Import TableBuilder TableBuilderView.

Lemma WriteRawBlock_handle_locates_the_block_witness :
  let w :=
    TableBuilder.WriteRawBlock Example.crc32c_Value Example.crc32c_Extend
      [7; 8; 9] kNoCompression (TableBuilder.new Example.options Example.sink) in
  slice (WritableFile.appended (file w.1))
        (0 + BlockHandle.offset_ w.2) (BlockHandle.size_ w.2)
  = [7; 8; 9].
Proof.
  pose proof (WriteRawBlock_handle_locates_the_block
                Example.crc32c_Value Example.crc32c_Extend
                0 [7; 8; 9] kNoCompression
                (TableBuilder.new Example.options Example.sink)) as H.
  cbv zeta.
  destruct (TableBuilder.WriteRawBlock Example.crc32c_Value Example.crc32c_Extend
              [7; 8; 9] kNoCompression (TableBuilder.new Example.options Example.sink))
    as [r' handle].
  apply H.
  - apply (TableBuilderFacts.new_io_ok Example.options Example.sink). constructor.
  - vm_compute. reflexivity.
Defined.

Lemma num_entries_counts_the_adds_witness :
  NumEntries
    (TableBuilder.run Example.crc32c_Value Example.crc32c_Extend Example.no_snappy
       Example.calls (TableBuilder.new Example.options Example.sink))
  = 4.
Proof.
  apply (num_entries_counts_the_adds
           Example.crc32c_Value Example.crc32c_Extend Example.no_snappy
           Example.options Example.sink Example.calls).
  - constructor.
  - reflexivity.
Defined.

(** A sink that fails its first call. *)
Lemma error_latches_the_builder_witness :
  let broken :=
    TableBuilder.Flush Example.crc32c_Value Example.crc32c_Extend Example.no_snappy
      (TableBuilder.Add Example.crc32c_Value Example.crc32c_Extend Example.no_snappy
         (Example.key_of "apple") [1]
         (TableBuilder.new Example.options
            {| WritableFile.appended := []; WritableFile.results := [IOError] |})) in
  TableBuilder.Finish Example.crc32c_Value Example.crc32c_Extend Example.no_snappy broken
  = Abandon broken.
Proof.
  cbv zeta.
  apply (error_latches_the_builder
           Example.crc32c_Value Example.crc32c_Extend Example.no_snappy
           _ [] [] []).
  vm_compute. discriminate.
Defined.

Abbreviation Add := (TableBuilder.Add Example.crc32c_Value Example.crc32c_Extend Example.no_snappy).
Abbreviation Flush := (TableBuilder.Flush Example.crc32c_Value Example.crc32c_Extend Example.no_snappy).
Abbreviation Finish := (TableBuilder.Finish Example.crc32c_Value Example.crc32c_Extend Example.no_snappy).
Abbreviation run := (TableBuilder.run Example.crc32c_Value Example.crc32c_Extend Example.no_snappy).

Lemma example_io_ok calls :
  io_ok 0 (run calls (TableBuilder.new Example.options Example.sink)).
Proof.
  apply (TableBuilderFacts.run_io _ _ _ 0).
  apply (TableBuilderFacts.new_io_ok Example.options Example.sink). constructor.
Qed.

Lemma Flush_writes_the_data_block_witness :
  let r := Add (Example.key_of "apple") [1; 2]
               (TableBuilder.new Example.options Example.sink) in
  pending_handle (Flush r)
  = {| BlockHandle.offset_ := 0; BlockHandle.size_ := 18 |}.
Proof.
  pose proof (Flush_writes_the_data_block
                Example.crc32c_Value Example.crc32c_Extend Example.no_snappy 0
                (Add (Example.key_of "apple") [1; 2]
                     (TableBuilder.new Example.options Example.sink))) as H.
  destruct H as (_ & H & _).
  - apply (example_io_ok [CallAdd (Example.key_of "apple") [1; 2]]).
  - reflexivity.
  - reflexivity.
  - exact H.
Defined.

Lemma Finish_writes_filter_metaindex_index_footer_witness :
  let table := Finish (TableBuilder.new Example.options Example.sink) in
  status table = OK /\ closed table = true /\ pending_index_entry table = false.
Proof.
  pose proof (Finish_writes_filter_metaindex_index_footer
                Example.crc32c_Value Example.crc32c_Extend Example.no_snappy 0
                (TableBuilder.new Example.options Example.sink)
                Example.bloom (FilterBlockBuilder.new Example.bloom)) as H.
  cbv zeta in H. destruct H as (_ & H1 & H2 & H3 & _).
  - apply (example_io_ok []).
  - reflexivity.
  - reflexivity.
  - reflexivity.
  - by split_and!.
Defined.

Lemma Finish_without_filter_block_witness :
  let table :=
    Finish (Add (Example.key_of "a") [1]
                (TableBuilder.new ExampleMore.plain_options Example.sink)) in
  status table = OK /\ closed table = true.
Proof.
  pose proof (Finish_without_filter_block
                Example.crc32c_Value Example.crc32c_Extend Example.no_snappy 0
                (Add (Example.key_of "a") [1]
                     (TableBuilder.new ExampleMore.plain_options Example.sink))) as H.
  cbv zeta in H. destruct H as (_ & H1 & H2 & _).
  - apply (TableBuilderFacts.run_io _ _ _ 0 [CallAdd (Example.key_of "a") [1]]).
    apply (TableBuilderFacts.new_io_ok ExampleMore.plain_options Example.sink). constructor.
  - reflexivity.
  - reflexivity.
  - by split.
Defined.

End TableExamples.

(** * The block builder *)
Module BlockBuilderFacts.
Import BlockView.

Lemma shared_prefix_range a b :
  0 <= BlockBuilder.shared_prefix a b
  /\ BlockBuilder.shared_prefix a b <= size a
  /\ BlockBuilder.shared_prefix a b <= size b.
Proof.
  revert b. induction a as [|x a IH]; intros [|y b]; cbn [BlockBuilder.shared_prefix];
    unfold size in *; cbn [length]; try lia.
  destruct (x =? y); [|lia]. specialize (IH b). lia.
Qed.

Lemma shared_prefix_take a b :
  take (Z.to_nat (BlockBuilder.shared_prefix a b)) a
  = take (Z.to_nat (BlockBuilder.shared_prefix a b)) b.
Proof.
  revert b. induction a as [|x a IH]; intros [|y b]; cbn [BlockBuilder.shared_prefix];
    try done.
  destruct (Z.eqb_spec x y) as [->|]; [|done].
  pose proof (shared_prefix_range a b) as (H0 & _).
  replace (Z.to_nat (1 + BlockBuilder.shared_prefix a b))
    with (S (Z.to_nat (BlockBuilder.shared_prefix a b))) by lia.
  cbn [take]. by rewrite IH.
Qed.

Lemma shared_prefix_stops a b :
  a !! Z.to_nat (BlockBuilder.shared_prefix a b)
  = b !! Z.to_nat (BlockBuilder.shared_prefix a b) ->
  BlockBuilder.shared_prefix a b = size a
  \/ BlockBuilder.shared_prefix a b = size b.
Proof.
  revert b. induction a as [|x a IH]; intros [|y b]; cbn [BlockBuilder.shared_prefix];
    try (by left); try (by right).
  destruct (Z.eqb_spec x y) as [->|N].
  - pose proof (shared_prefix_range a b) as (H0 & _).
    replace (Z.to_nat (1 + BlockBuilder.shared_prefix a b))
      with (S (Z.to_nat (BlockBuilder.shared_prefix a b))) by lia.
    cbn [lookup list_lookup]. intros E. destruct (IH b E) as [H|H].
    + left. unfold size in *. cbn [length]. lia.
    + right. unfold size in *. cbn [length]. lia.
  - cbn. intros [= E]. done.
Qed.

Lemma shared_of_range interval key b :
  0 <= shared_of interval key b <= size key.
Proof.
  unfold shared_of. destruct (BlockBuilder.counter_ b <? interval).
  - pose proof (shared_prefix_range (BlockBuilder.last_key_ b) key). lia.
  - pose proof (size_nonneg key). lia.
Qed.

Lemma slice_suffix (key : list Z) shared :
  0 <= shared <= size key ->
  slice key shared (size key - shared) = drop (Z.to_nat shared) key.
Proof.
  intros H. unfold slice. apply firstn_all2. rewrite length_drop.
  unfold size in *. lia.
Qed.

(** One Add, field by field. *)
Lemma Add_fields interval key value b :
  let shared := shared_of interval key b in
  let suffix := drop (Z.to_nat shared) key in
  BlockBuilder.buffer_ (BlockBuilder.Add interval key value b)
  = BlockBuilder.buffer_ b ++ ClaimView.entry shared suffix value
  /\ BlockBuilder.last_key_ (BlockBuilder.Add interval key value b)
     = take (Z.to_nat shared) (BlockBuilder.last_key_ b) ++ suffix
  /\ BlockBuilder.restarts_ (BlockBuilder.Add interval key value b)
     = (if BlockBuilder.counter_ b <? interval
        then BlockBuilder.restarts_ b
        else BlockBuilder.restarts_ b ++ [wrap32 (size (BlockBuilder.buffer_ b))])
  /\ BlockBuilder.counter_ (BlockBuilder.Add interval key value b)
     = (if BlockBuilder.counter_ b <? interval
        then BlockBuilder.counter_ b else 0) + 1
  /\ BlockBuilder.finished_ (BlockBuilder.Add interval key value b)
     = BlockBuilder.finished_ b.
Proof.
  intros shared suffix.
  pose proof (shared_of_range interval key b) as Hr. fold shared in Hr.
  assert (Hs : slice key shared (size key - shared) = suffix)
    by (by apply slice_suffix).
  assert (Hsz : size suffix = size key - shared).
  { subst suffix. unfold size in *. rewrite length_drop. lia. }
  subst shared. unfold shared_of in *. unfold BlockBuilder.Add.
  destruct (BlockBuilder.counter_ b <? interval);
    cbn [BlockBuilder.buffer_ BlockBuilder.last_key_ BlockBuilder.restarts_
         BlockBuilder.counter_ BlockBuilder.finished_];
    rewrite Hs; unfold Coding.PutVarint32, ClaimView.entry; rewrite Hsz;
    rewrite <- !app_assoc; by split_and!.
Qed.

Lemma take_drop_key (a key : list Z) (n : nat) :
  take n a = take n key -> take n a ++ drop n key = key.
Proof. intros ->. apply take_drop. Qed.

Lemma Add_last_key interval key value b :
  BlockBuilder.last_key_ (BlockBuilder.Add interval key value b) = key.
Proof.
  destruct (Add_fields interval key value b) as (_ & -> & _).
  apply take_drop_key. unfold shared_of.
  destruct (BlockBuilder.counter_ b <? interval); [|done].
  apply shared_prefix_take.
Qed.

(** Arithmetic of the restart counter. *)
Lemma mod_step_restart R i :
  1 <= R -> 1 <= i -> ((i - 1) mod R + 1 <? R) = false -> i mod R = 0.
Proof.
  intros HR Hi Hc. apply Z.ltb_ge in Hc.
  pose proof (Z.mod_pos_bound (i - 1) R ltac:(lia)) as Hm.
  pose proof (Z.div_mod (i - 1) R ltac:(lia)) as Hd.
  symmetry. apply (Z.mod_unique i R ((i - 1) / R + 1) 0); [lia|]. nia.
Qed.

Lemma mod_step_share R i :
  1 <= R -> 1 <= i -> ((i - 1) mod R + 1 <? R) = true ->
  i mod R = (i - 1) mod R + 1.
Proof.
  intros HR Hi Hc. apply Z.ltb_lt in Hc.
  pose proof (Z.mod_pos_bound (i - 1) R ltac:(lia)) as Hm.
  pose proof (Z.div_mod (i - 1) R ltac:(lia)) as Hd.
  symmetry. apply (Z.mod_unique i R ((i - 1) / R) ((i - 1) mod R + 1)); [lia|]. nia.
Qed.

Lemma div_step_restart R i :
  1 <= R -> 1 <= i -> i mod R = 0 -> i / R = (i - 1) / R + 1.
Proof.
  intros HR Hi Hm.
  pose proof (Z.div_mod i R ltac:(lia)) as Hd. rewrite Hm in Hd.
  symmetry. replace (i - 1) with ((i / R - 1) * R + (R - 1)) by nia.
  rewrite Z.div_add_l by lia. rewrite (Z.div_small (R - 1) R) by lia. lia.
Qed.

Lemma div_step_share R i :
  1 <= R -> 1 <= i -> i mod R <> 0 -> i / R = (i - 1) / R.
Proof.
  intros HR Hi Hm.
  pose proof (Z.div_mod i R ltac:(lia)) as Hd.
  pose proof (Z.mod_pos_bound i R ltac:(lia)) as Hb.
  apply (Z.div_unique (i - 1) R (i / R) (i mod R - 1)); lia.
Qed.

Lemma add_all_cons interval key value kvs b :
  add_all interval ((key, value) :: kvs) b
  = add_all interval kvs (BlockBuilder.Add interval key value b).
Proof. reflexivity. Qed.

(** The entries after the first: [i] entries are in the block. *)
Lemma add_all_layout interval kvs b i :
  1 <= interval -> 1 <= i ->
  BlockBuilder.counter_ b = (i - 1) mod interval + 1 ->
  let entries := block_entries interval i (BlockBuilder.last_key_ b) kvs in
  let b' := add_all interval kvs b in
  BlockBuilder.buffer_ b' = BlockBuilder.buffer_ b ++ concat entries
  /\ BlockBuilder.restarts_ b'
     = BlockBuilder.restarts_ b
       ++ restart_points interval i (size (BlockBuilder.buffer_ b)) entries
  /\ BlockBuilder.counter_ b' = (i + size kvs - 1) mod interval + 1
  /\ size (BlockBuilder.restarts_ b') - size (BlockBuilder.restarts_ b)
     = (i + size kvs - 1) / interval - (i - 1) / interval.
Proof.
  intros HR. revert b i. induction kvs as [|[key value] kvs IH]; intros b i Hi Hc.
  - cbn. rewrite !app_nil_r. change (size (@nil (list Z * list Z))) with 0.
    rewrite Z.add_0_r. split_and!; [done|done|done|lia].
  - cbv zeta. rewrite add_all_cons. cbn [block_entries restart_points concat].
    destruct (Add_fields interval key value b) as (Hbuf & _ & Hres & Hcnt & _).
    pose proof (Add_last_key interval key value b) as Hlast.
    unfold shared_of in Hbuf. rewrite Hc in Hbuf, Hres, Hcnt.
    assert (Hsz : size ((key, value) :: kvs) = 1 + size kvs).
    { unfold size. cbn [length]. lia. }
    destruct ((i - 1) mod interval + 1 <? interval) eqn:Hlt.
    + pose proof (mod_step_share interval i HR Hi Hlt) as Hm.
      assert (Hnz : i mod interval <> 0).
      { pose proof (Z.mod_pos_bound (i - 1) interval ltac:(lia)). lia. }
      destruct (Z.eqb_spec (i mod interval) 0) as [|_]; [done|].
      destruct (IH (BlockBuilder.Add interval key value b) (i + 1) ltac:(lia))
        as (H1 & H2 & H3 & H4).
      { rewrite Hcnt. replace (i + 1 - 1) with i by lia. lia. }
      rewrite Hlast in H1, H2.
      split_and!.
      * by rewrite H1, Hbuf, <- app_assoc.
      * by rewrite H2, Hres, Hbuf, size_app.
      * rewrite H3, Hsz. f_equal; f_equal; lia.
      * rewrite Hres in H4. rewrite Hsz.
        replace (i + 1 + size kvs - 1) with (i + (1 + size kvs) - 1) in H4 by lia.
        replace (i + 1 - 1) with i in H4 by lia.
        rewrite (div_step_share interval i HR Hi Hnz) in H4. lia.
    + pose proof (mod_step_restart interval i HR Hi Hlt) as Hm.
      destruct (Z.eqb_spec (i mod interval) 0) as [_|]; [|done].
      destruct (IH (BlockBuilder.Add interval key value b) (i + 1) ltac:(lia))
        as (H1 & H2 & H3 & H4).
      { rewrite Hcnt. replace (i + 1 - 1) with i by lia. lia. }
      rewrite Hlast in H1, H2.
      split_and!.
      * by rewrite H1, Hbuf, <- app_assoc.
      * by rewrite H2, Hres, Hbuf, size_app, <- app_assoc.
      * rewrite H3, Hsz. f_equal; f_equal; lia.
      * rewrite Hres, size_app in H4. rewrite Hsz.
        change (size [wrap32 (size (BlockBuilder.buffer_ b))]) with 1 in H4.
        replace (i + 1 + size kvs - 1) with (i + (1 + size kvs) - 1) in H4 by lia.
        replace (i + 1 - 1) with i in H4 by lia.
        rewrite (div_step_restart interval i HR Hi Hm) in H4. lia.
Qed.

End BlockBuilderFacts.

(** X17. The loop of Add that computes [shared] stops at the longest
    common prefix of the previous key and the new key: the two keys agree on
    their first [shared] bytes, [shared] exceeds neither length, and unless
    one key is exhausted the bytes at position [shared] differ. *)
Theorem shared_prefix_is_the_longest_common_prefix (last_key key : list Z) :
  let shared := BlockBuilder.shared_prefix last_key key in
  0 <= shared <= Z.min (size last_key) (size key)
  /\ take (Z.to_nat shared) last_key = take (Z.to_nat shared) key
  /\ (shared < Z.min (size last_key) (size key) ->
      last_key !! Z.to_nat shared <> key !! Z.to_nat shared).
Proof.
  intros shared. subst shared.
  pose proof (BlockBuilderFacts.shared_prefix_range last_key key) as (H0 & H1 & H2).
  split_and!; [lia|lia|apply BlockBuilderFacts.shared_prefix_take|].
  intros Hlt E.
  destruct (BlockBuilderFacts.shared_prefix_stops last_key key E); lia.
Qed.

(** X18. Add appends one entry (shared, non_shared, value length, key
    suffix, value) from which the key can be rebuilt: the first [shared]
    bytes of the previous key followed by the stored suffix are the key, and
    the builder remembers the key as its last key (the assertion at the end
    of Add), whatever the state of the builder and the restart interval. *)
Theorem Add_stores_a_rebuildable_key
        (interval : Z) (key value : list Z) (b : BlockBuilder.t) :
  let shared :=
    if BlockBuilder.counter_ b <? interval
    then BlockBuilder.shared_prefix (BlockBuilder.last_key_ b) key else 0 in
  let suffix := drop (Z.to_nat shared) key in
  let b' := BlockBuilder.Add interval key value b in
  BlockBuilder.buffer_ b'
  = BlockBuilder.buffer_ b ++ ClaimView.entry shared suffix value
  /\ take (Z.to_nat shared) (BlockBuilder.last_key_ b) ++ suffix = key
  /\ BlockBuilder.last_key_ b' = key.
Proof.
  intros shared suffix b'.
  destruct (BlockBuilderFacts.Add_fields interval key value b) as (Hbuf & Hlast & _).
  pose proof (BlockBuilderFacts.Add_last_key interval key value b) as Hkey.
  unfold BlockView.shared_of in Hbuf, Hlast.
  split_and!; [exact Hbuf| |exact Hkey].
  subst shared suffix. rewrite <- Hlast. exact Hkey.
Qed.

(** X19. Restart points come exactly every [block_restart_interval]
    entries, for every list of entries added to a new builder: the buffer is
    the entries in order, where entry i shares nothing when i is a multiple
    of the interval and otherwise shares the longest prefix common with the
    key before; the restart array holds the offsets of the entries at the
    multiples of the interval (and [0] when the block is empty), so it has
    max(1, ceil(n / interval)) elements; and the counter never exceeds the
    interval (the assertion at the head of Add). *)
Theorem restart_points_every_interval
        (interval : Z) (kvs : list (list Z * list Z)) :
  1 <= interval < 2 ^ 31 ->
  let b := BlockView.add_all interval kvs BlockBuilder.new in
  let entries := BlockView.block_entries interval 0 [] kvs in
  BlockBuilder.buffer_ b = concat entries
  /\ BlockBuilder.restarts_ b
     = match kvs with
       | [] => [0]
       | _ => BlockView.restart_points interval 0 0 entries
       end
  /\ size (BlockBuilder.restarts_ b)
     = Z.max 1 ((size kvs + interval - 1) / interval)
  /\ 0 <= BlockBuilder.counter_ b <= interval.
Proof.
  intros HR b entries. subst b entries.
  destruct kvs as [|[key value] kvs].
  - cbn. change (size (@nil (list Z * list Z))) with 0. change (size [0]) with 1.
    split_and!; [done|done| |lia|lia].
    rewrite Z.add_0_l. rewrite Z.div_small by lia. lia.
  - rewrite BlockBuilderFacts.add_all_cons.
    cbn [BlockView.block_entries BlockView.restart_points concat].
    rewrite Z.mod_0_l by lia. cbn [Z.eqb].
    destruct (BlockBuilderFacts.Add_fields interval key value BlockBuilder.new)
      as (Hbuf & _ & Hres & Hcnt & _).
    pose proof (BlockBuilderFacts.Add_last_key interval key value BlockBuilder.new)
      as Hlast.
    unfold BlockView.shared_of in Hbuf.
    cbn [BlockBuilder.counter_ BlockBuilder.new BlockBuilder.buffer_
         BlockBuilder.restarts_ BlockBuilder.last_key_] in Hbuf, Hres, Hcnt.
    destruct (Z.ltb_spec 0 interval) as [_|]; [|lia].
    cbn [BlockBuilder.shared_prefix app] in Hbuf.
    destruct (BlockBuilderFacts.add_all_layout interval kvs
                (BlockBuilder.Add interval key value BlockBuilder.new) 1
                ltac:(lia) ltac:(lia)) as (H1 & H2 & H3 & H4).
    { rewrite Hcnt. rewrite Z.sub_diag, Z.mod_0_l by lia. lia. }
    rewrite Hlast in H1, H2. rewrite Hbuf in H1, H2. rewrite Hres in H2, H4.
    assert (Hsz : size ((key, value) :: kvs) = 1 + size kvs).
    { unfold size. cbn [length]. lia. }
    pose proof (size_nonneg kvs) as Hn.
    split_and!.
    + exact H1.
    + rewrite H2. change (wrap32 0) with 0. by rewrite Z.add_0_l.
    + change (size [0]) with 1 in H4.
      rewrite Z.sub_diag, Z.div_0_l in H4 by lia.
      rewrite Hsz.
      replace (1 + size kvs + interval - 1) with ((1 + size kvs - 1) + 1 * interval) by lia.
      rewrite Z.div_add by lia.
      assert (0 <= (1 + size kvs - 1) / interval) by (apply Z.div_pos; lia).
      lia.
    + rewrite H3.
      pose proof (Z.mod_pos_bound (1 + size kvs - 1) interval ltac:(lia)). lia.
    + rewrite H3.
      pose proof (Z.mod_pos_bound (1 + size kvs - 1) interval ltac:(lia)). lia.
Qed.

Lemma restart_points_every_interval_witness :
  let kvs := [ (Example.key_of "aa", [1]); (Example.key_of "ab", [2]);
               (Example.key_of "ac", [3]); (Example.key_of "ad", [4]);
               (Example.key_of "ae", [5]) ] in
  size (BlockBuilder.restarts_ (BlockView.add_all 2 kvs BlockBuilder.new)) = 3.
Proof.
  pose proof (restart_points_every_interval 2
                [ (Example.key_of "aa", [1]); (Example.key_of "ab", [2]);
                  (Example.key_of "ac", [3]); (Example.key_of "ad", [4]);
                  (Example.key_of "ae", [5]) ]) as H.
  destruct H as (_ & _ & H & _); [lia|]. exact H.
Defined.

(** X20. [empty] says whether entries were added since the last Reset:
    after Reset and any list of Adds it is true exactly when the list is
    empty. *)
Theorem empty_iff_no_entry_was_added
        (interval : Z) (kvs : list (list Z * list Z)) (b : BlockBuilder.t) :
  BlockBuilder.empty (BlockView.add_all interval kvs (BlockBuilder.Reset b)) = true
  <-> kvs = [].
Proof.
  split.
  - intros He. destruct kvs as [|kv kvs] using rev_ind; [done|].
    unfold BlockView.add_all in He. rewrite fold_left_app in He. cbn in He.
    by rewrite TableBuilderFacts.BlockBuilder_Add_nonempty in He.
  - by intros ->.
Qed.

(** * Varints and entries read back *)
Module BlockReadFacts.

Lemma read_at (pre l : list Z) (k : Z) :
  0 <= k -> (pre ++ l) !!! Z.to_nat (size pre + k) = l !!! Z.to_nat k.
Proof.
  intros Hk. unfold size.
  replace (Z.to_nat (Z.of_nat (length pre) + k))
    with (length pre + Z.to_nat k)%nat by lia.
  apply CodingFacts.lookup_total_app_add.
Qed.

Lemma read_at_0 (pre l : list Z) :
  (pre ++ l) !!! Z.to_nat (size pre) = l !!! 0%nat.
Proof.
  pose proof (read_at pre l 0 ltac:(lia)) as H. by rewrite Z.add_0_r in H.
Qed.

Lemma lor_lt_pow2 a b n :
  0 <= a -> 0 <= b -> 0 <= n ->
  (Z.lor a b < 2 ^ n <-> a < 2 ^ n /\ b < 2 ^ n).
Proof.
  intros Ha Hb Hn.
  destruct (Z.eq_dec a 0) as [->|Ha0].
  { rewrite Z.lor_0_l. pose proof (Z.pow_pos_nonneg 2 n). lia. }
  destruct (Z.eq_dec b 0) as [->|Hb0].
  { rewrite Z.lor_0_r. pose proof (Z.pow_pos_nonneg 2 n). lia. }
  assert (Hl : 0 < Z.lor a b).
  { pose proof (proj2 (Z.lor_nonneg a b) (conj Ha Hb)).
    destruct (Z.eq_dec (Z.lor a b) 0) as [E|]; [|lia].
    apply Z.lor_eq_0_iff in E. lia. }
  rewrite !Z.log2_lt_pow2 by lia. rewrite Z.log2_lor by lia. lia.
Qed.

(** The encoder, one byte at a time. *)
Lemma EncodeVarint_small m v :
  v < 128 -> Coding.EncodeVarint (S m) v = [v].
Proof. intros H. cbn. by destruct (Z.ltb_spec v 128); [|lia]. Qed.

Lemma EncodeVarint_big m v :
  128 <= v ->
  Coding.EncodeVarint (S m) v = (v mod 128 + 128) :: Coding.EncodeVarint m (v / 128).
Proof. intros H. cbn. by destruct (Z.ltb_spec v 128); [lia|]. Qed.

Lemma pow128_S (m : nat) : 128 ^ Z.of_nat (S m) = 128 * 128 ^ Z.of_nat m.
Proof. rewrite Nat2Z.inj_succ, Z.pow_succ_r by lia. done. Qed.

(** Decoding gives back what was encoded, and stops where the
    encoding ends. *)
Lemma GetVarint_EncodeVarint (m : nat) v pre post limit :
  (1 <= m)%nat -> 0 <= v < 128 ^ Z.of_nat m ->
  let e := Coding.EncodeVarint m v in
  size pre + size e <= limit ->
  Block.GetVarint m (pre ++ e ++ post) (size pre) limit
  = Some (size pre + size e, v)
  /\ 1 <= size e <= Z.of_nat m.
Proof.
  revert v pre. induction m as [|m IH]; intros v pre Hm Hv e Hlim; [lia|].
  subst e. destruct (Z.lt_ge_cases v 128) as [Hs|Hb].
  - rewrite EncodeVarint_small in * by done.
    change (size [v]) with 1 in *.
    cbn [Block.GetVarint]. destruct (Z.ltb_spec (size pre) limit); [|lia].
    rewrite read_at_0. cbn [app lookup_total list_lookup_total].
    rewrite Z.mod_small by lia.
    destruct (Z.ltb_spec v 128); [|lia]. split; [done|lia].
  - rewrite EncodeVarint_big in * by done.
    rewrite pow128_S in Hv.
    assert (Hm' : (1 <= m)%nat).
    { destruct m; [|lia]. cbn in Hv. lia. }
    assert (Hq : 0 <= v / 128 < 128 ^ Z.of_nat m).
    { split; [apply Z.div_pos; lia|]. apply Z.div_lt_upper_bound; lia. }
    pose proof (Z.mod_pos_bound v 128 ltac:(lia)) as Hr.
    set (x := v mod 128 + 128) in *.
    set (e' := Coding.EncodeVarint m (v / 128)) in *.
    assert (Hsz : size (x :: e') = 1 + size e').
    { unfold size. cbn [length]. lia. }
    rewrite Hsz in Hlim.
    destruct (IH (v / 128) (pre ++ [x]) Hm' Hq) as [Hdec Hlen].
    { fold e'. rewrite size_app. change (size [x]) with 1. lia. }
    fold e' in Hdec, Hlen.
    cbn [Block.GetVarint]. destruct (Z.ltb_spec (size pre) limit); [|lia].
    rewrite read_at_0. cbn [app lookup_total list_lookup_total].
    rewrite (Z.mod_small x 256) by (subst x; lia).
    destruct (Z.ltb_spec x 128); [subst x; lia|].
    rewrite size_app in Hdec. change (size [x]) with 1 in Hdec.
    rewrite <- app_assoc in Hdec. cbn [app] in Hdec. rewrite Hdec.
    split; [|rewrite Hsz; lia].
    f_equal. f_equal; [rewrite Hsz; lia|].
    subst x. pose proof (Z.div_mod v 128 ltac:(lia)). lia.
Qed.

(** A varint that decodes lies before [limit], takes between 1 and
    [m] bytes and is not negative. *)
Lemma GetVarint_bounds (m : nat) s p limit p' v :
  Block.GetVarint m s p limit = Some (p', v) ->
  p < p' <= p + Z.of_nat m /\ p' <= limit /\ 0 <= v.
Proof.
  revert p p' v. induction m as [|m IH]; intros p p' v H; [done|].
  cbn [Block.GetVarint] in H.
  destruct (Z.ltb_spec p limit); [|done].
  pose proof (Z.mod_pos_bound (s !!! Z.to_nat p) 256 ltac:(lia)) as Hb.
  destruct (Z.ltb_spec ((s !!! Z.to_nat p) mod 256) 128).
  - injection H as <- <-. lia.
  - destruct (Block.GetVarint m s (p + 1) limit) as [[q w]|] eqn:E; [|done].
    injection H as <- <-. destruct (IH _ _ _ E) as (I1 & I2 & I3). lia.
Qed.

Lemma GetVarint32Ptr_bounds s p limit p' v :
  Block.GetVarint32Ptr s p limit = Some (p', v) ->
  p < p' <= p + 5 /\ p' <= limit /\ 0 <= v < 2 ^ 32.
Proof.
  unfold Block.GetVarint32Ptr.
  destruct (Block.GetVarint 5 s p limit) as [[q w]|] eqn:E; [|done].
  intros [= <- <-]. destruct (GetVarint_bounds _ _ _ _ _ _ E) as (H1 & H2 & _).
  pose proof (wrap32_range w). lia.
Qed.

Lemma GetVarint32Ptr_EncodeVarint v pre post limit :
  0 <= v < 2 ^ 32 ->
  let e := Coding.EncodeVarint 5 v in
  size pre + size e <= limit ->
  Block.GetVarint32Ptr (pre ++ e ++ post) (size pre) limit
  = Some (size pre + size e, v)
  /\ 1 <= size e <= 5.
Proof.
  intros Hv e Hlim. subst e. unfold Block.GetVarint32Ptr.
  destruct (GetVarint_EncodeVarint 5 v pre post limit ltac:(lia)) as [-> Hlen];
    [change (128 ^ Z.of_nat 5) with (2 ^ 35); lia|exact Hlim|].
  by rewrite wrap32_small.
Qed.

(** The first byte of a varint tells whether it is the only one. *)
Lemma EncodeVarint_head v :
  0 <= v ->
  exists x rest,
    Coding.EncodeVarint 5 v = x :: rest
    /\ 0 <= x < 256
    /\ (v < 128 -> x = v /\ rest = [])
    /\ (128 <= v -> 128 <= x).
Proof.
  intros Hv. destruct (Z.lt_ge_cases v 128).
  - exists v, []. rewrite EncodeVarint_small by done. split_and!; [done|lia|lia|done|lia].
  - pose proof (Z.mod_pos_bound v 128 ltac:(lia)).
    exists (v mod 128 + 128), (Coding.EncodeVarint 4 (v / 128)).
    rewrite EncodeVarint_big by done. split_and!; [done|lia|lia|lia|lia].
Qed.

(** DecodeEntry at the start of an entry. *)
Lemma DecodeEntry_entry
        (pre post key_suffix value : list Z) (shared limit : Z) :
  0 <= shared < 2 ^ 32 ->
  size key_suffix + size value < 2 ^ 32 ->
  let e := ClaimView.entry shared key_suffix value in
  let s := pre ++ e ++ post in
  let p := size pre in
  p + size e <= limit ->
  limit - p < 2 ^ 32 ->
  exists header,
    Block.DecodeEntry s p limit
    = Some (p + header, shared, size key_suffix, size value)
    /\ 3 <= header <= 15
    /\ slice s (p + header) (size key_suffix) = key_suffix
    /\ slice s (p + header + size key_suffix) (size value) = value
    /\ header + size key_suffix + size value = size e.
Proof.
  intros Hsh Hsum e s p Hlim Hsmall.
  pose proof (size_nonneg key_suffix) as Hk0. pose proof (size_nonneg value) as Hv0.
  pose proof (size_nonneg pre) as Hp0.
  set (h1 := Coding.EncodeVarint 5 shared).
  set (h2 := Coding.EncodeVarint 5 (size key_suffix)).
  set (h3 := Coding.EncodeVarint 5 (size value)).
  assert (He : e = h1 ++ h2 ++ h3 ++ key_suffix ++ value).
  { subst e h1 h2 h3. unfold ClaimView.entry. by rewrite !wrap32_small by lia. }
  assert (Hs : s = pre ++ h1 ++ (h2 ++ h3 ++ key_suffix ++ value ++ post)).
  { subst s. rewrite He. by rewrite <- !app_assoc. }
  assert (Hsz : size e = size h1 + size h2 + size h3 + size key_suffix + size value).
  { rewrite He, !size_app. lia. }
  (* the three varints, one after the other *)
  destruct (GetVarint32Ptr_EncodeVarint shared pre
              (h2 ++ h3 ++ key_suffix ++ value ++ post) limit Hsh)
    as [D1 L1].
  { fold h1. pose proof (size_nonneg h2). pose proof (size_nonneg h3). lia. }
  fold h1 in D1, L1. rewrite <- Hs in D1.
  destruct (GetVarint32Ptr_EncodeVarint (size key_suffix) (pre ++ h1)
              (h3 ++ key_suffix ++ value ++ post) limit ltac:(lia))
    as [D2 L2].
  { fold h2. rewrite size_app. pose proof (size_nonneg h3). lia. }
  fold h2 in D2, L2. rewrite size_app in D2.
  replace ((pre ++ h1) ++ h2 ++ h3 ++ key_suffix ++ value ++ post) with s in D2
    by (rewrite Hs; by rewrite <- !app_assoc).
  destruct (GetVarint32Ptr_EncodeVarint (size value) (pre ++ h1 ++ h2)
              (key_suffix ++ value ++ post) limit ltac:(lia))
    as [D3 L3].
  { fold h3. rewrite !size_app. lia. }
  fold h3 in D3, L3. rewrite !size_app in D3.
  replace ((pre ++ h1 ++ h2) ++ h3 ++ key_suffix ++ value ++ post) with s in D3
    by (rewrite Hs; by rewrite <- !app_assoc).
  rewrite Z.add_assoc in D3.
  (* where the suffix and the value lie *)
  assert (Hslices : forall header, header = size h1 + size h2 + size h3 ->
            slice s (p + header) (size key_suffix) = key_suffix
            /\ slice s (p + header + size key_suffix) (size value) = value).
  { intros header ->. subst p.
    replace s with ((pre ++ h1 ++ h2 ++ h3) ++ key_suffix ++ value ++ post)
      by (rewrite Hs; by rewrite <- !app_assoc).
    split.
    - unfold slice.
      replace (Z.to_nat (size pre + (size h1 + size h2 + size h3)))
        with (length (pre ++ h1 ++ h2 ++ h3))
        by (rewrite !length_app; unfold size; lia).
      rewrite drop_app_length. unfold size. rewrite Nat2Z.id.
      apply take_app_length.
    - unfold slice.
      replace (Z.to_nat (size pre + (size h1 + size h2 + size h3) + size key_suffix))
        with (length ((pre ++ h1 ++ h2 ++ h3) ++ key_suffix))
        by (rewrite !length_app; unfold size; lia).
      rewrite (app_assoc _ key_suffix), drop_app_length. unfold size.
      rewrite Nat2Z.id. apply take_app_length. }
  (* the first three bytes decide the path *)
  destruct (EncodeVarint_head shared ltac:(lia))
    as (x1 & r1 & E1 & Hx1 & Hs1 & Hb1).
  destruct (EncodeVarint_head (size key_suffix) ltac:(lia))
    as (x2 & r2 & E2 & Hx2 & Hs2 & Hb2).
  destruct (EncodeVarint_head (size value) ltac:(lia))
    as (x3 & r3 & E3 & Hx3 & Hs3 & Hb3).
  fold h1 in E1. fold h2 in E2. fold h3 in E3.
  unfold Block.DecodeEntry.
  destruct (Z.ltb_spec (limit - p) 3); [lia|].
  set (b0 := (s !!! Z.to_nat p) mod 256).
  set (b1 := (s !!! Z.to_nat (p + 1)) mod 256).
  set (b2 := (s !!! Z.to_nat (p + 2)) mod 256).
  assert (Hb0 : 0 <= b0 < 256) by (apply Z.mod_pos_bound; lia).
  assert (Hb1' : 0 <= b1 < 256) by (apply Z.mod_pos_bound; lia).
  assert (Hb2' : 0 <= b2 < 256) by (apply Z.mod_pos_bound; lia).
  assert (Hr0 : b0 = x1).
  { subst b0 p. rewrite Hs, read_at_0, E1.
    cbn [app lookup_total list_lookup_total]. apply Z.mod_small. lia. }
  assert (Hr1 : shared < 128 -> b1 = x2).
  { intros Hlt. destruct (Hs1 Hlt) as [-> ->]. subst b1 p.
    rewrite Hs, read_at by lia. rewrite E1, E2.
    cbn [app lookup_total list_lookup_total Z.to_nat Pos.to_nat Pos.iter_op Nat.add].
    apply Z.mod_small. lia. }
  assert (Hr2 : shared < 128 -> size key_suffix < 128 -> b2 = x3).
  { intros Hlt Hlt2. destruct (Hs1 Hlt) as [-> ->]. destruct (Hs2 Hlt2) as [-> ->].
    subst b2 p. rewrite Hs, read_at by lia. rewrite E1, E2, E3.
    cbn [app lookup_total list_lookup_total Z.to_nat Pos.to_nat Pos.iter_op Nat.add].
    apply Z.mod_small. lia. }
  assert (Hlor : Z.lor (Z.lor b0 b1) b2 < 128 <-> b0 < 128 /\ b1 < 128 /\ b2 < 128).
  { change 128 with (2 ^ 7).
    rewrite lor_lt_pow2 by (try apply Z.lor_nonneg; lia).
    rewrite lor_lt_pow2 by lia. tauto. }
  destruct (Z.ltb_spec (Z.lor (Z.lor b0 b1) b2) 128) as [Hfast|Hslow].
  - (* fast path *)
    apply Hlor in Hfast as (F0 & F1 & F2).
    assert (S1 : shared < 128) by (destruct (Z.lt_ge_cases shared 128); [done|];
                                    specialize (Hb1 ltac:(lia)); lia).
    assert (S2 : size key_suffix < 128).
    { destruct (Z.lt_ge_cases (size key_suffix) 128); [done|].
      specialize (Hb2 ltac:(lia)). rewrite (Hr1 S1) in F1. lia. }
    assert (S3 : size value < 128).
    { destruct (Z.lt_ge_cases (size value) 128); [done|].
      specialize (Hb3 ltac:(lia)). rewrite (Hr2 S1 S2) in F2. lia. }
    destruct (Hs1 S1) as [Ex1 Er1]. destruct (Hs2 S2) as [Ex2 Er2].
    destruct (Hs3 S3) as [Ex3 Er3].
    assert (Hh : size h1 + size h2 + size h3 = 3).
    { rewrite E1, E2, E3, Er1, Er2, Er3. reflexivity. }
    rewrite Hr0, (Hr1 S1), (Hr2 S1 S2), Ex1, Ex2, Ex3.
    rewrite !wrap32_small by lia.
    destruct (Z.ltb_spec (limit - (p + 3)) (size key_suffix + size value)); [lia|].
    exists 3. destruct (Hslices 3 ltac:(lia)) as [Hk Hv].
    split_and!; [done|lia|lia|done|done|lia].
  - (* the varint path *)
    fold p in D1, D2, D3. rewrite D1, D2, D3.
    rewrite !wrap32_small by lia.
    destruct (Z.ltb_spec (limit - (p + size h1 + size h2 + size h3))
                (size key_suffix + size value)); [lia|].
    exists (size h1 + size h2 + size h3).
    destruct (Hslices (size h1 + size h2 + size h3) eq_refl) as [Hk Hv].
    rewrite !Z.add_assoc in Hk, Hv |- *.
    split_and!; [done|lia|lia|done|done|lia].
Qed.

End BlockReadFacts.

(** X21. DecodeEntry reads back what the block builder writes: at the
    start of an entry laid out as shared | non_shared | value length | key
    suffix | value (three varint32s), it returns the three numbers and the
    position of the key suffix, which is 3 to 15 bytes past the start; the
    suffix and then the value lie there, and the entry ends where the value
    ends.  This holds on the fast path (all three numbers below 128) and on
    the varint path alike. *)
Theorem DecodeEntry_reads_back_an_entry
        (pre post key_suffix value : list Z) (shared limit : Z) :
  0 <= shared < 2 ^ 32 ->
  size key_suffix + size value < 2 ^ 32 ->
  let e := ClaimView.entry shared key_suffix value in
  let s := pre ++ e ++ post in
  let p := size pre in
  p + size e <= limit ->
  limit - p < 2 ^ 32 ->
  exists header,
    Block.DecodeEntry s p limit
    = Some (p + header, shared, size key_suffix, size value)
    /\ 3 <= header <= 15
    /\ slice s (p + header) (size key_suffix) = key_suffix
    /\ slice s (p + header + size key_suffix) (size value) = value
    /\ header + size key_suffix + size value = size e.
Proof.
  intros Hsh Hsum e s p Hlim Hsmall.
  destruct (BlockReadFacts.DecodeEntry_entry pre post key_suffix value shared limit
              Hsh Hsum Hlim Hsmall) as (header & Hdec & Hhdr & Hkey & Hval & Hend).
  exists header. split_and!; [exact Hdec|lia|lia|exact Hkey|exact Hval|exact Hend].
Qed.

Lemma DecodeEntry_reads_back_an_entry_witness :
  let value := replicate 300 7 in
  let s := [9; 9] ++ ClaimView.entry 2 (Example.key_of "cd") value ++ [0; 0; 0; 0] in
  exists header,
    Block.DecodeEntry s (size [9; 9]) 309
    = Some (size [9; 9] + header, 2, size (Example.key_of "cd"), size value)
    /\ 3 <= header <= 15
    /\ slice s (size [9; 9] + header) (size (Example.key_of "cd"))
       = Example.key_of "cd"
    /\ slice s (size [9; 9] + header + size (Example.key_of "cd")) (size value)
       = value
    /\ header + size (Example.key_of "cd") + size value
       = size (ClaimView.entry 2 (Example.key_of "cd") value).
Proof.
  apply (DecodeEntry_reads_back_an_entry [9; 9] [0; 0; 0; 0]
           (Example.key_of "cd") (replicate 300 7) 2 309).
  - lia.
  - vm_compute. reflexivity.
  - vm_compute. discriminate.
  - vm_compute. reflexivity.
Defined.

(** X22. DecodeEntry never points outside the block: when it returns a
    position, that position is 3 to 15 bytes past the start and not beyond
    [limit], the three values are 32-bit, and, provided the sum of
    non_shared and value_length does not wrap around 2^32, the key suffix
    and the value end at or before [limit].  With fewer than 3 bytes left it
    returns nothing. *)
Theorem DecodeEntry_stays_inside_the_block
        (s : list Z) (p limit : Z) :
  0 <= limit - p < 2 ^ 32 ->
  match Block.DecodeEntry s p limit with
  | None => True
  | Some (p', shared, non_shared, value_length) =>
      p + 3 <= p' <= p + 15
      /\ p' <= limit
      /\ 0 <= shared < 2 ^ 32
      /\ 0 <= non_shared < 2 ^ 32
      /\ 0 <= value_length < 2 ^ 32
      /\ (non_shared + value_length < 2 ^ 32 ->
          p' + non_shared + value_length <= limit)
  end
  /\ (limit - p < 3 -> Block.DecodeEntry s p limit = None).
Proof.
  intros Hlim. unfold Block.DecodeEntry.
  destruct (Z.ltb_spec (limit - p) 3) as [Hshort|Hlong]; [done|].
  split; [|lia].
  set (b0 := (s !!! Z.to_nat p) mod 256).
  set (b1 := (s !!! Z.to_nat (p + 1)) mod 256).
  set (b2 := (s !!! Z.to_nat (p + 2)) mod 256).
  assert (Hb0 : 0 <= b0 < 256) by (apply Z.mod_pos_bound; lia).
  assert (Hb1 : 0 <= b1 < 256) by (apply Z.mod_pos_bound; lia).
  assert (Hb2 : 0 <= b2 < 256) by (apply Z.mod_pos_bound; lia).
  assert (Hcheck : forall p' sh ns vl,
    p + 3 <= p' <= p + 15 -> p' <= limit ->
    0 <= sh < 2 ^ 32 -> 0 <= ns < 2 ^ 32 -> 0 <= vl < 2 ^ 32 ->
    match
      (if wrap32 (limit - p') <? wrap32 (ns + vl) then None
       else Some (p', sh, ns, vl))
    with
    | None => True
    | Some (p', shared, non_shared, value_length) =>
        p + 3 <= p' <= p + 15
        /\ p' <= limit
        /\ 0 <= shared < 2 ^ 32
        /\ 0 <= non_shared < 2 ^ 32
        /\ 0 <= value_length < 2 ^ 32
        /\ (non_shared + value_length < 2 ^ 32 ->
            p' + non_shared + value_length <= limit)
    end).
  { intros p' sh ns vl H1 H2 H3 H4 H5.
    destruct (Z.ltb_spec (wrap32 (limit - p')) (wrap32 (ns + vl))) as [|Hge]; [done|].
    split_and!; try lia. intros Hnw.
    rewrite !wrap32_small in Hge by lia. lia. }
  destruct (Z.lor (Z.lor b0 b1) b2 <? 128).
  - apply Hcheck; lia.
  - destruct (Block.GetVarint32Ptr s p limit) as [[p1 sh]|] eqn:E1; [|done].
    destruct (BlockReadFacts.GetVarint32Ptr_bounds _ _ _ _ _ E1) as (A1 & B1 & C1).
    destruct (Block.GetVarint32Ptr s p1 limit) as [[p2 ns]|] eqn:E2; [|done].
    destruct (BlockReadFacts.GetVarint32Ptr_bounds _ _ _ _ _ E2) as (A2 & B2 & C2).
    destruct (Block.GetVarint32Ptr s p2 limit) as [[p3 vl]|] eqn:E3; [|done].
    destruct (BlockReadFacts.GetVarint32Ptr_bounds _ _ _ _ _ E3) as (A3 & B3 & C3).
    apply Hcheck; lia.
Qed.

Lemma DecodeEntry_stays_inside_the_block_witness :
  Block.DecodeEntry [200; 1; 2] 0 2 = None.
Proof.
  apply (DecodeEntry_stays_inside_the_block [200; 1; 2] 0 2); lia.
Defined.

(** * The block iterator *)
Module BlockIterFacts.

(** The restart loop touches restart_index_ only. *)
Lemma advance_restart_index_fields fuel it :
  let it' := Block.advance_restart_index fuel it in
  Block.data_ it' = Block.data_ it
  /\ Block.restarts_ it' = Block.restarts_ it
  /\ Block.num_restarts_ it' = Block.num_restarts_ it
  /\ Block.current_ it' = Block.current_ it
  /\ Block.key_ it' = Block.key_ it
  /\ Block.value_ it' = Block.value_ it.
Proof.
  revert it. induction fuel as [|fuel IH]; intros it; cbn [Block.advance_restart_index].
  - done.
  - destruct (_ && _); [|done].
    specialize (IH (Block.set_restart_index (wrap32 (Block.restart_index_ it + 1)) it)).
    cbn in IH. exact IH.
Qed.

(** With fuel for every restart point left, the loop stops at its own
    exit test. *)
Lemma advance_restart_index_exit fuel it :
  Block.num_restarts_ it < 2 ^ 32 ->
  Block.num_restarts_ it - wrap32 (Block.restart_index_ it + 1) <= Z.of_nat fuel ->
  let it' := Block.advance_restart_index fuel it in
  (wrap32 (Block.restart_index_ it' + 1) <? Block.num_restarts_ it')
  && (Block.GetRestartPoint it' (wrap32 (Block.restart_index_ it' + 1))
      <? Block.current_ it') = false.
Proof.
  revert it. induction fuel as [|fuel IH]; intros it Hn Hfuel;
    cbn [Block.advance_restart_index].
  - cbn zeta. apply andb_false_iff. left. apply Z.ltb_ge. lia.
  - destruct ((wrap32 (Block.restart_index_ it + 1) <? Block.num_restarts_ it)
              && (Block.GetRestartPoint it (wrap32 (Block.restart_index_ it + 1))
                  <? Block.current_ it)) eqn:E; [|exact E].
    apply andb_true_iff in E as [E1 _]. apply Z.ltb_lt in E1.
    apply IH; cbn [Block.set_restart_index Block.num_restarts_ Block.restart_index_].
    + exact Hn.
    + pose proof (wrap32_range (Block.restart_index_ it + 1)).
      rewrite (wrap32_small (wrap32 (Block.restart_index_ it + 1) + 1)) by lia. lia.
Qed.

(** ParseNextKey on the entry one Add wrote. *)
Lemma ParseNextKey_Add
        (CorruptionError : Block.Iter -> Block.Iter) (it : Block.Iter)
        (interval : Z) (key value rest : list Z) (b : BlockBuilder.t) :
  let b' := BlockBuilder.Add interval key value b in
  Block.data_ it = BlockBuilder.buffer_ b' ++ rest ->
  Block.NextEntryOffset it = size (BlockBuilder.buffer_ b) ->
  (BlockBuilder.counter_ b < interval ->
   Block.key_ it = BlockBuilder.last_key_ b) ->
  size (BlockBuilder.buffer_ b') <= Block.restarts_ it < 2 ^ 32 ->
  Block.num_restarts_ it < 2 ^ 32 ->
  size key + size value < 2 ^ 32 ->
  let it' := fst (Block.ParseNextKey CorruptionError it) in
  snd (Block.ParseNextKey CorruptionError it) = true
  /\ Block.key_ it' = key
  /\ slice (Block.data_ it') (fst (Block.value_ it')) (snd (Block.value_ it')) = value
  /\ Block.current_ it' = size (BlockBuilder.buffer_ b)
  /\ Block.NextEntryOffset it' = size (BlockBuilder.buffer_ b')
  /\ Block.data_ it' = Block.data_ it
  /\ Block.restarts_ it' = Block.restarts_ it
  /\ Block.num_restarts_ it' = Block.num_restarts_ it
  /\ (wrap32 (Block.restart_index_ it' + 1) <? Block.num_restarts_ it')
     && (Block.GetRestartPoint it' (wrap32 (Block.restart_index_ it' + 1))
         <? Block.current_ it') = false.
Proof.
  intros b' Hdata Hnext Hkey Hrestarts Hnum Hsize.
  destruct (BlockBuilderFacts.Add_fields interval key value b) as (Hbuf & _).
  pose proof (BlockBuilderFacts.shared_of_range interval key b) as Hsh.
  set (shared := BlockView.shared_of interval key b) in *.
  set (suffix := drop (Z.to_nat shared) key) in *.
  fold b' in Hbuf.
  pose proof (size_nonneg key) as Hk0. pose proof (size_nonneg value) as Hv0.
  pose proof (size_nonneg (BlockBuilder.buffer_ b)) as Hb0.
  assert (Hsuf : size suffix = size key - shared).
  { subst suffix. unfold size in *. rewrite length_drop. lia. }
  assert (Hb' : size (BlockBuilder.buffer_ b')
                = size (BlockBuilder.buffer_ b)
                  + size (ClaimView.entry shared suffix value)).
  { rewrite Hbuf. unfold size. rewrite length_app. lia. }
  assert (He0 : 0 <= size (ClaimView.entry shared suffix value)) by apply size_nonneg.
  destruct (BlockReadFacts.DecodeEntry_entry
              (BlockBuilder.buffer_ b) rest suffix value shared (Block.restarts_ it))
    as (header & Hdec & Hhdr & Hks & Hvs & Hend); [lia|lia|lia|lia|].
  assert (Hd : Block.data_ it
               = BlockBuilder.buffer_ b ++ ClaimView.entry shared suffix value ++ rest).
  { rewrite Hdata, Hbuf. by rewrite <- app_assoc. }
  rewrite <- Hd in Hdec, Hks, Hvs.
  (* the shared part is a prefix of the key the iterator holds *)
  assert (Hprefix : shared <= size (Block.key_ it)
                    /\ take (Z.to_nat shared) (Block.key_ it) ++ suffix = key).
  { subst shared suffix. unfold BlockView.shared_of in *.
    destruct (Z.ltb_spec (BlockBuilder.counter_ b) interval) as [Hc|Hc].
    - rewrite (Hkey Hc).
      pose proof (BlockBuilderFacts.shared_prefix_range (BlockBuilder.last_key_ b) key).
      split; [lia|].
      apply BlockBuilderFacts.take_drop_key, BlockBuilderFacts.shared_prefix_take.
    - pose proof (size_nonneg (Block.key_ it)). split; [lia|done]. }
  destruct Hprefix as [Hle Hwhole].
  (* run ParseNextKey *)
  assert (Hrun : Block.ParseNextKey CorruptionError it
                 = (Block.advance_restart_index (Z.to_nat (Block.num_restarts_ it))
                      {| Block.data_ := Block.data_ it;
                         Block.restarts_ := Block.restarts_ it;
                         Block.num_restarts_ := Block.num_restarts_ it;
                         Block.current_ := size (BlockBuilder.buffer_ b);
                         Block.restart_index_ := Block.restart_index_ it;
                         Block.key_ := key;
                         Block.value_ :=
                           (size (BlockBuilder.buffer_ b) + header + size suffix,
                            size value) |}, true)).
  { unfold Block.ParseNextKey. cbv zeta.
    cbn [Block.data_ Block.restarts_ Block.num_restarts_ Block.current_
         Block.restart_index_ Block.key_ Block.value_].
    rewrite Hnext.
    destruct (Z.geb_spec (size (BlockBuilder.buffer_ b)) (Block.restarts_ it)); [lia|].
    rewrite Hdec.
    destruct (Z.ltb_spec (size (Block.key_ it)) shared); [lia|].
    by rewrite Hks, Hwhole. }
  rewrite Hrun. cbn [fst snd].
  match goal with
  | |- context [Block.advance_restart_index ?f ?i] =>
      pose proof (advance_restart_index_fields f i) as HF;
      pose proof (advance_restart_index_exit f i) as HE;
      set (it1 := i) in *
  end.
  cbv zeta in HF, HE.
  destruct HF as (F1 & F2 & F3 & F4 & F5 & F6).
  split_and!.
  - done.
  - by rewrite F5.
  - rewrite F1, F6. subst it1. cbn [Block.data_ Block.value_ fst snd]. exact Hvs.
  - by rewrite F4.
  - unfold Block.NextEntryOffset. rewrite F6. subst it1. cbn [Block.value_ fst snd].
    rewrite wrap32_small by lia. lia.
  - by rewrite F1.
  - by rewrite F2.
  - by rewrite F3.
  - apply HE; subst it1; cbn [Block.num_restarts_ Block.restart_index_]; [exact Hnum|].
    pose proof (wrap32_range (Block.restart_index_ it + 1)). lia.
Qed.

Lemma add_all_buffer interval kvs b :
  exists more,
    BlockBuilder.buffer_ (BlockView.add_all interval kvs b)
    = BlockBuilder.buffer_ b ++ more.
Proof.
  revert b. induction kvs as [|[key value] kvs IH]; intros b.
  - exists []. cbn. by rewrite app_nil_r.
  - rewrite BlockBuilderFacts.add_all_cons.
    destruct (IH (BlockBuilder.Add interval key value b)) as [more ->].
    destruct (BlockBuilderFacts.Add_fields interval key value b) as (-> & _).
    rewrite <- app_assoc. by eexists.
Qed.

(** A scan over the entries a run of Adds wrote, from the end of the
    entries before them. *)
Lemma read_entries_add_all CorruptionError interval rest kvs :
  forall b it fuel,
    Block.data_ it
    = BlockBuilder.buffer_ (BlockView.add_all interval kvs b) ++ rest ->
    Block.NextEntryOffset it = size (BlockBuilder.buffer_ b) ->
    (BlockBuilder.counter_ b < interval ->
     Block.key_ it = BlockBuilder.last_key_ b) ->
    Block.restarts_ it
    = size (BlockBuilder.buffer_ (BlockView.add_all interval kvs b)) ->
    Block.restarts_ it < 2 ^ 32 ->
    Block.num_restarts_ it < 2 ^ 32 ->
    Forall (fun kv => size (fst kv) + size (snd kv) < 2 ^ 32) kvs ->
    (length kvs < fuel)%nat ->
    BlockScan.read_entries CorruptionError fuel it = kvs.
Proof.
  induction kvs as [|[key value] kvs IH];
    intros b it fuel Hdata Hnext Hkey Hres Hlim Hnum Hsizes Hfuel.
  - destruct fuel as [|fuel]; [cbn in Hfuel; lia|].
    cbn [BlockScan.read_entries]. cbn in Hres.
    unfold Block.ParseNextKey. cbv zeta.
    cbn [Block.data_ Block.restarts_ Block.num_restarts_ Block.current_
         Block.restart_index_ Block.key_ Block.value_].
    rewrite Hnext, Hres.
    destruct (Z.geb_spec (size (BlockBuilder.buffer_ b))
                (size (BlockBuilder.buffer_ b))); [done|lia].
  - destruct fuel as [|fuel]; [cbn in Hfuel; lia|].
    cbn [BlockScan.read_entries].
    rewrite BlockBuilderFacts.add_all_cons in Hdata, Hres.
    apply Forall_cons in Hsizes as [Hkv Hsizes]. cbn [fst snd] in Hkv.
    destruct (add_all_buffer interval kvs (BlockBuilder.Add interval key value b))
      as [more Hmore].
    assert (Hd : Block.data_ it
                 = BlockBuilder.buffer_ (BlockBuilder.Add interval key value b)
                   ++ (more ++ rest)).
    { rewrite Hdata, Hmore. by rewrite <- app_assoc. }
    assert (Hle : size (BlockBuilder.buffer_ (BlockBuilder.Add interval key value b))
                  <= Block.restarts_ it).
    { rewrite Hres, Hmore. unfold size. rewrite length_app. lia. }
    destruct (ParseNextKey_Add CorruptionError it interval key value (more ++ rest) b
                Hd Hnext Hkey ltac:(lia) Hnum Hkv)
      as (Hok & Hk & Hv & _ & Hn' & Hd' & Hr' & Hnr' & _).
    rewrite Hok. unfold BlockScan.value. rewrite Hk, Hv. f_equal.
    apply (IH (BlockBuilder.Add interval key value b)).
    + by rewrite Hd'.
    + exact Hn'.
    + intros _. rewrite Hk. symmetry. apply BlockBuilderFacts.Add_last_key.
    + by rewrite Hr'.
    + by rewrite Hr'.
    + by rewrite Hnr'.
    + exact Hsizes.
    + cbn [length] in Hfuel. lia.
Qed.

End BlockIterFacts.

(** X23. ParseNextKey reads the entry Add wrote: an iterator that stands
    at the end of the entries written before an Add, holding the key added
    before whenever the new entry shares a prefix with it, is moved by
    ParseNextKey onto the added entry.  It answers true, its key is the
    whole added key, its value slice is the added value, its current_ is
    the offset the entry was written at, the next entry offset is the end
    of the builder's buffer, and the restart loop has stopped at its exit
    test. *)
Theorem ParseNextKey_reads_the_entry_Add_wrote
        (CorruptionError : Block.Iter -> Block.Iter) (it : Block.Iter)
        (interval : Z) (key value rest : list Z) (b : BlockBuilder.t) :
  let b' := BlockBuilder.Add interval key value b in
  Block.data_ it = BlockBuilder.buffer_ b' ++ rest ->
  Block.NextEntryOffset it = size (BlockBuilder.buffer_ b) ->
  (BlockBuilder.counter_ b < interval ->
   Block.key_ it = BlockBuilder.last_key_ b) ->
  size (BlockBuilder.buffer_ b') <= Block.restarts_ it < 2 ^ 32 ->
  Block.num_restarts_ it < 2 ^ 32 ->
  size key + size value < 2 ^ 32 ->
  let it' := fst (Block.ParseNextKey CorruptionError it) in
  snd (Block.ParseNextKey CorruptionError it) = true
  /\ Block.key_ it' = key
  /\ slice (Block.data_ it') (fst (Block.value_ it')) (snd (Block.value_ it')) = value
  /\ Block.current_ it' = size (BlockBuilder.buffer_ b)
  /\ Block.NextEntryOffset it' = size (BlockBuilder.buffer_ b')
  /\ Block.data_ it' = Block.data_ it
  /\ Block.restarts_ it' = Block.restarts_ it
  /\ (wrap32 (Block.restart_index_ it' + 1) <? Block.num_restarts_ it')
     && (Block.GetRestartPoint it' (wrap32 (Block.restart_index_ it' + 1))
         <? Block.current_ it') = false.
Proof.
  intros b' Hdata Hnext Hkey Hrestarts Hnum Hsize it'.
  destruct (BlockIterFacts.ParseNextKey_Add CorruptionError it interval key value rest b
              Hdata Hnext Hkey Hrestarts Hnum Hsize)
    as (H1 & H2 & H3 & H4 & H5 & H6 & H7 & _ & H9).
  subst it'. split_and!; assumption.
Qed.

(** A block of one entry, read from its start. *)
Lemma ParseNextKey_reads_the_entry_Add_wrote_witness :
  let b := BlockBuilder.new in
  let b' := BlockBuilder.Add 16 [107; 49] [118] b in
  let it := {| Block.data_ := BlockBuilder.buffer_ b' ++ [0; 0; 0; 0; 1; 0; 0; 0];
               Block.restarts_ := 6; Block.num_restarts_ := 1;
               Block.current_ := 6; Block.restart_index_ := 1;
               Block.key_ := []; Block.value_ := (0, 0) |} in
  let it' := fst (Block.ParseNextKey (fun i => i) it) in
  snd (Block.ParseNextKey (fun i => i) it) = true
  /\ Block.key_ it' = [107; 49]
  /\ slice (Block.data_ it') (fst (Block.value_ it')) (snd (Block.value_ it')) = [118]
  /\ Block.current_ it' = size (BlockBuilder.buffer_ b)
  /\ Block.NextEntryOffset it' = size (BlockBuilder.buffer_ b')
  /\ Block.data_ it' = Block.data_ it
  /\ Block.restarts_ it' = Block.restarts_ it
  /\ (wrap32 (Block.restart_index_ it' + 1) <? Block.num_restarts_ it')
     && (Block.GetRestartPoint it' (wrap32 (Block.restart_index_ it' + 1))
         <? Block.current_ it') = false.
Proof.
  intros b b' it.
  apply (ParseNextKey_reads_the_entry_Add_wrote (fun i => i) it 16 [107; 49] [118]
           [0; 0; 0; 0; 1; 0; 0; 0] b).
  - reflexivity.
  - reflexivity.
  - intros _. reflexivity.
  - vm_compute. split; [discriminate | reflexivity].
  - reflexivity.
  - reflexivity.
Defined.

(** X24. A block is read back as it was written: over the entries that
    a run of Adds put into a new builder, with the restart array starting
    right after them, ParseNextKey answers true once for each Add, showing
    the added key and the added value in the order of the Adds, and then
    answers false. *)
Theorem scan_reads_back_what_Add_wrote
        (CorruptionError : Block.Iter -> Block.Iter) (it : Block.Iter)
        (interval : Z) (kvs : list (list Z * list Z)) (rest : list Z) (fuel : nat) :
  let b := BlockView.add_all interval kvs BlockBuilder.new in
  Block.data_ it = BlockBuilder.buffer_ b ++ rest ->
  Block.NextEntryOffset it = 0 ->
  Block.key_ it = [] ->
  Block.restarts_ it = size (BlockBuilder.buffer_ b) ->
  Block.restarts_ it < 2 ^ 32 ->
  Block.num_restarts_ it < 2 ^ 32 ->
  Forall (fun kv => size (fst kv) + size (snd kv) < 2 ^ 32) kvs ->
  (length kvs < fuel)%nat ->
  BlockScan.read_entries CorruptionError fuel it = kvs.
Proof.
  intros b Hdata Hnext Hkey Hres Hlim Hnum Hsizes Hfuel.
  apply (BlockIterFacts.read_entries_add_all CorruptionError interval rest kvs
           BlockBuilder.new); try assumption.
  intros _. exact Hkey.
Qed.

(** Three entries with a restart interval of 2, the restart array after
    them. *)
Lemma scan_reads_back_what_Add_wrote_witness :
  let kvs := [([97], [1]); ([97; 98], [2; 3]); ([98], [])] in
  let b := BlockView.add_all 2 kvs BlockBuilder.new in
  let it := {| Block.data_ := BlockBuilder.buffer_ b
                              ++ [0; 0; 0; 0; 11; 0; 0; 0; 2; 0; 0; 0];
               Block.restarts_ := size (BlockBuilder.buffer_ b);
               Block.num_restarts_ := 2;
               Block.current_ := 0; Block.restart_index_ := 0;
               Block.key_ := []; Block.value_ := (0, 0) |} in
  BlockScan.read_entries (fun i => i) 4 it = kvs.
Proof.
  intros kvs b it.
  apply (scan_reads_back_what_Add_wrote (fun i => i) it 2 kvs
           [0; 0; 0; 0; 11; 0; 0; 0; 2; 0; 0; 0] 4).
  - reflexivity.
  - reflexivity.
  - reflexivity.
  - reflexivity.
  - vm_compute. reflexivity.
  - reflexivity.
  - repeat constructor.
  - cbn. lia.
Defined.

(** * The layout of the table file *)
Module TableLayoutFacts.
Import TableBuilder TableBuilderView TableBuilderFacts.

Lemma framed_size_app a b :
  TableLayout.framed_size (a ++ b)
  = TableLayout.framed_size a + TableLayout.framed_size b.
Proof.
  induction a as [|x a IH]; cbn [app TableLayout.framed_size fold_right]; [done|].
  fold (TableLayout.framed_size (a ++ b)). fold (TableLayout.framed_size a). lia.
Qed.

Lemma framed_size_nonneg a : 0 <= TableLayout.framed_size a.
Proof.
  induction a as [|x a IH]; cbn [TableLayout.framed_size fold_right]; [done|].
  fold (TableLayout.framed_size a). pose proof (size_nonneg (fst x)).
  unfold kBlockTrailerSize. lia.
Qed.

Lemma framed_size_one x :
  TableLayout.framed_size [x] = size (fst x) + kBlockTrailerSize.
Proof. cbn. lia. Qed.

(** The footer takes 48 bytes whatever the handles. *)
Lemma size_footer ft : size (Footer.EncodeTo ft []) = 48.
Proof.
  unfold Footer.EncodeTo, Coding.PutFixed32. cbv zeta.
  rewrite !size_app, !CodingFacts.size_EncodeFixed32.
  unfold size. rewrite length_take, length_app, length_replicate. lia.
Qed.

Lemma file_new opt f : file (new opt f) = f.
Proof. unfold new, new_Rep. cbn [filter_block]. by destruct (filter_policy opt). Qed.

Section WithPort.
Variable crc32c_Value : list Z -> Z.
Variable crc32c_Extend : Z -> list Z -> Z.
Variable Snappy_Compress : list Z -> option (list Z).

Abbreviation WriteRawBlock := (WriteRawBlock crc32c_Value crc32c_Extend).
Abbreviation WriteBlock := (WriteBlock crc32c_Value crc32c_Extend Snappy_Compress).
Abbreviation Flush := (Flush crc32c_Value crc32c_Extend Snappy_Compress).
Abbreviation Add := (Add crc32c_Value crc32c_Extend Snappy_Compress).
Abbreviation Finish := (Finish crc32c_Value crc32c_Extend Snappy_Compress).
Abbreviation run := (run crc32c_Value crc32c_Extend Snappy_Compress).
Abbreviation do_call := (do_call crc32c_Value crc32c_Extend Snappy_Compress).
Abbreviation trailer := (trailer crc32c_Value crc32c_Extend).
Abbreviation frame := (TableLayout.frame crc32c_Value crc32c_Extend).
Abbreviation frames := (TableLayout.frames crc32c_Value crc32c_Extend).

Lemma frames_app a b : frames (a ++ b) = frames a ++ frames b.
Proof. unfold TableLayout.frames. by rewrite map_app, concat_app. Qed.

Lemma frames_one c t : frames [(c, t)] = c ++ trailer c t.
Proof. unfold TableLayout.frames, TableLayout.frame. cbn. by rewrite app_nil_r. Qed.

Lemma size_frames blocks : size (frames blocks) = TableLayout.framed_size blocks.
Proof.
  induction blocks as [|x blocks IH]; [done|].
  change (frames (x :: blocks)) with (frame x ++ frames blocks).
  cbn [TableLayout.framed_size fold_right]. fold (TableLayout.framed_size blocks).
  unfold TableLayout.frame.
  rewrite !size_app, IH, (size_trailer crc32c_Value crc32c_Extend). lia.
Qed.

(** WriteRawBlock on a sink that takes the two appends. *)
Lemma WriteRawBlock_sink block_contents type r :
  Forall (eq OK) (WritableFile.results (file r)) ->
  let r' := fst (WriteRawBlock block_contents type r) in
  status r' = OK
  /\ WritableFile.appended (file r')
     = WritableFile.appended (file r) ++ block_contents
       ++ trailer block_contents type
  /\ offset r' = wrap64 (offset r + (size block_contents + kBlockTrailerSize))
  /\ Forall (eq OK) (WritableFile.results (file r')).
Proof.
  intros Hres. unfold TableBuilder.WriteRawBlock.
  destruct (Append_ok block_contents (file r) Hres) as (f1 & -> & Ha1 & Hr1).
  cbn [status set_status set_file file ok].
  destruct (Append_ok (trailer block_contents type) f1 Hr1) as (f2 & E2 & Ha2 & Hr2).
  unfold TableBuilderView.trailer in E2. rewrite E2.
  cbn [status set_status set_file file ok fst].
  split_and!; cbn; [done| |done|done].
  by rewrite Ha2, Ha1, <- app_assoc.
Qed.

(** The offset after blocks have gone out. *)
Lemma offset_after base r r' blocks :
  io_ok base r -> io_ok base r' ->
  WritableFile.appended (file r')
  = WritableFile.appended (file r) ++ frames blocks ->
  offset r' = wrap64 (offset r + TableLayout.framed_size blocks).
Proof.
  intros (_ & _ & _ & Ho) (_ & _ & _ & Ho') Happ.
  rewrite Ho', Ho, wrap64_add_l. f_equal.
  rewrite (written_app base r r' _ Happ). by rewrite size_frames.
Qed.

(** Flush appends whole blocks only. *)
Lemma Flush_frames base r :
  io_ok base r ->
  exists more,
    WritableFile.appended (file (Flush r))
    = WritableFile.appended (file r) ++ frames more.
Proof.
  intros Hio. pose proof Hio as (Hst & _). unfold TableBuilder.Flush.
  rewrite Hst. cbn [ok negb].
  destruct (BlockBuilder.empty (data_block r)) eqn:He.
  { exists []. cbn. by rewrite app_nil_r. }
  destruct (WriteBlock_ok crc32c_Value crc32c_Extend Snappy_Compress
              base (data_block r) r Hio)
    as (r' & c & t & -> & Hio' & Happ & _).
  simpl_rep.
  pose proof Hio' as (Hst' & Hres' & _).
  rewrite Hst'. cbn [ok]. simpl_rep.
  destruct (Flush_file_ok (file r') Hres') as (f' & -> & Ha' & _).
  exists [(c, t)]. rewrite frames_one.
  simpl_rep. destruct (filter_block r'); simpl_rep; by rewrite Ha', Happ.
Qed.

Lemma Add_frames base key value r :
  io_ok base r ->
  exists more,
    WritableFile.appended (file (Add key value r))
    = WritableFile.appended (file r) ++ frames more.
Proof.
  intros Hio. pose proof Hio as (Hst & _).
  destruct (Add_cases crc32c_Value crc32c_Extend Snappy_Compress key value r Hst)
    as (r_mid & Hcase & Hf & Hs & Ho & _).
  assert (Hmid : io_ok base r_mid) by (eapply io_ok_same; eauto; congruence).
  destruct Hcase as [-> | ->].
  - exists []. rewrite Hf. cbn. by rewrite app_nil_r.
  - rewrite <- Hf. exact (Flush_frames base r_mid Hmid).
Qed.

Lemma run_frames base calls r :
  io_ok base r ->
  exists blocks,
    WritableFile.appended (file (run calls r))
    = WritableFile.appended (file r) ++ frames blocks.
Proof.
  revert r. induction calls as [|c calls IH]; intros r Hio.
  - exists []. cbn. by rewrite app_nil_r.
  - rewrite (run_cons crc32c_Value crc32c_Extend Snappy_Compress).
    destruct (do_call_io crc32c_Value crc32c_Extend Snappy_Compress base r c Hio)
      as [Hio' _].
    destruct (IH _ Hio') as [blocks Hb].
    assert (Hc : exists more,
               WritableFile.appended (file (do_call r c))
               = WritableFile.appended (file r) ++ frames more).
    { destruct c; cbn; [exact (Add_frames base _ _ r Hio) | exact (Flush_frames base r Hio)]. }
    destruct Hc as [more Hm].
    exists (more ++ blocks). by rewrite Hb, Hm, frames_app, app_assoc.
Qed.

(** Finish: the blocks still to go out, the metaindex block, the index
    block, and the footer that holds where the last two went. *)
Lemma Finish_frames base r :
  io_ok base r ->
  exists blocks metaindex index,
    WritableFile.appended (file (Finish r))
    = WritableFile.appended (file r)
      ++ frames (blocks ++ [metaindex; index])
      ++ Footer.EncodeTo
           {| Footer.metaindex_handle_ :=
                {| BlockHandle.offset_ :=
                     wrap64 (offset r + TableLayout.framed_size blocks);
                   BlockHandle.size_ := size (fst metaindex) |};
              Footer.index_handle_ :=
                {| BlockHandle.offset_ :=
                     wrap64 (offset r
                             + TableLayout.framed_size (blocks ++ [metaindex]));
                   BlockHandle.size_ := size (fst index) |} |} [].
Proof.
  intros Hio. unfold TableBuilder.Finish.
  destruct (Flush_io crc32c_Value crc32c_Extend Snappy_Compress base r Hio)
    as [Hio1 _].
  destruct (Flush_frames base r Hio) as [bs1 Hb1].
  set (r1 := Flush r) in *. clearbody r1.
  assert (Hio2 : io_ok base (set_closed true r1)) by (by eapply io_ok_same).
  assert (Hb2 : WritableFile.appended (file (set_closed true r1))
                = WritableFile.appended (file r) ++ frames bs1) by done.
  set (r2 := set_closed true r1) in *. clearbody r2. clear Hio1 Hb1.
  (* the filter block *)
  match goal with
  | |- context [match ?e with (_, _) => _ end] =>
      destruct e as [r3 filter_block_handle] eqn:E3
  end.
  assert (H3 : io_ok base r3
               /\ exists bs3, WritableFile.appended (file r3)
                              = WritableFile.appended (file r) ++ frames bs3).
  { destruct (filter_block r2) as [fb|] eqn:Hfb.
    - pose proof Hio2 as (Hst & _). rewrite Hst in E3. cbn [ok] in E3.
      assert (Hio2' : io_ok base (set_filter_block
                                    (Some (FilterBlockBuilder.Finish fb)) r2))
        by (by eapply io_ok_same).
      destruct (WriteRawBlock_ok crc32c_Value crc32c_Extend base
                  (FilterBlockBuilder.result_ (FilterBlockBuilder.Finish fb))
                  kNoCompression _ Hio2')
        as (r' & E & Hio' & Happ & _).
      rewrite E in E3. injection E3 as <- <-.
      split; [done|].
      exists (bs1 ++ [(FilterBlockBuilder.result_ (FilterBlockBuilder.Finish fb),
                       kNoCompression)]).
      rewrite Happ. simpl_rep. by rewrite Hb2, frames_app, frames_one, <- app_assoc.
    - injection E3 as <- <-. split; [done|]. by exists bs1. }
  destruct H3 as (Hio3 & bs3 & Hb3). clear E3.
  pose proof (offset_after base r r3 bs3 Hio Hio3 Hb3) as Ho3.
  (* the metaindex block *)
  match goal with
  | |- context [match ?e with (_, _) => _ end] =>
      destruct e as [r4 metaindex_block_handle] eqn:E4
  end.
  assert (H4 : exists c4 t4,
             io_ok base r4
             /\ metaindex_block_handle
                = {| BlockHandle.offset_ := offset r3; BlockHandle.size_ := size c4 |}
             /\ WritableFile.appended (file r4)
                = WritableFile.appended (file r) ++ frames (bs3 ++ [(c4, t4)])).
  { pose proof Hio3 as (Hst & _). rewrite Hst in E4. cbn [ok] in E4.
    match type of E4 with
    | context [TableBuilder.WriteBlock _ _ _ ?b ?r0] =>
        destruct (WriteBlock_ok crc32c_Value crc32c_Extend Snappy_Compress
                    base b r0 Hio3)
          as (r' & c & t & E & Hio' & Happ & _)
    end.
    rewrite E in E4. injection E4 as <- <-.
    exists c, t. split_and!; [done|done|].
    by rewrite Happ, Hb3, frames_app, frames_one, <- app_assoc. }
  destruct H4 as (c4 & t4 & Hio4 & Hh4 & Hb4). clear E4.
  pose proof (offset_after base r r4 _ Hio Hio4 Hb4) as Ho4.
  (* the index block *)
  match goal with
  | |- context [match ?e with (_, _) => _ end] =>
      destruct e as [r5 index_block_handle] eqn:E5
  end.
  assert (H5 : exists c5 t5,
             io_ok base r5
             /\ index_block_handle
                = {| BlockHandle.offset_ := offset r4; BlockHandle.size_ := size c5 |}
             /\ WritableFile.appended (file r5)
                = WritableFile.appended (file r)
                  ++ frames (bs3 ++ [(c4, t4); (c5, t5)])).
  { pose proof Hio4 as (Hst & _). rewrite Hst in E5. cbn [ok] in E5.
    match type of E5 with
    | context [TableBuilder.WriteBlock _ _ _ ?b ?r0] =>
        assert (Hior : io_ok base r0 /\ file r0 = file r4 /\ offset r0 = offset r4)
          by (destruct (pending_index_entry r4);
              (split; [by eapply io_ok_same|done]));
        destruct Hior as (Hior & Hfr & Hor);
        destruct (WriteBlock_ok crc32c_Value crc32c_Extend Snappy_Compress
                    base b r0 Hior)
          as (r' & c & t & E & Hio' & Happ & _)
    end.
    rewrite E in E5. injection E5 as <- <-.
    exists c, t. split_and!.
    - by eapply io_ok_same.
    - f_equal. exact Hor.
    - simpl_rep. rewrite Happ, Hfr, Hb4.
      change [(c4, t4); (c, t)] with ([(c4, t4)] ++ [(c, t)]).
      by rewrite (app_assoc bs3), (frames_app (bs3 ++ [(c4, t4)])), frames_one,
                 <- app_assoc. }
  destruct H5 as (c5 & t5 & Hio5 & Hh5 & Hb5). clear E5.
  (* the footer *)
  pose proof Hio5 as (Hst5 & Hres5 & _). rewrite Hst5. cbn [ok].
  match goal with
  | |- context [WritableFile.Append ?d (file r5)] =>
      destruct (Append_ok d (file r5) Hres5) as (f' & -> & Ha' & _)
  end.
  simpl_rep. cbn [ok]. simpl_rep.
  exists bs3, (c4, t4), (c5, t5). cbn [fst].
  rewrite Ha', Hb5, Hh4, Hh5, Ho3, Ho4. by rewrite <- app_assoc.
Qed.

End WithPort.

End TableLayoutFacts.

Section TableFileProperties.
Variable crc32c_Value : list Z -> Z.
Variable crc32c_Extend : Z -> list Z -> Z.
Variable Snappy_Compress : list Z -> option (list Z).

Import TableBuilder TableBuilderView TableBuilderFacts TableLayoutFacts.

(** C4. On a sink without errors, after any sequence of Add and Flush
    calls closed by Finish, FileSize is the number of bytes handed to
    Append since the builder was created (file below 2^64 bytes), and the
    status Finish returns is OK.  The bytes are accounted for write by
    write: every WriteRawBlock, in any state of the builder on such a sink,
    appends the block contents and the 5-byte trailer and advances the
    offset by the two lengths; and
    the file of the finished table is, after what the sink held before,
    blocks each followed by its trailer, the last two being the metaindex
    and the index block, and then the 48-byte footer that holds where those
    two went, with nothing else; FileSize is the sum of contents + 5 over
    the blocks plus the length of the footer. *)
Theorem file_size_counts_appended_bytes
        (opt : Options) (f : WritableFile.t) (calls : list call) :
  Forall (eq OK) (WritableFile.results f) ->
  let table :=
    Finish crc32c_Value crc32c_Extend Snappy_Compress
      (run crc32c_Value crc32c_Extend Snappy_Compress calls (new opt f)) in
  size (WritableFile.appended (file table)) - size (WritableFile.appended f) < 2 ^ 64 ->
  FileSize table
  = size (WritableFile.appended (file table)) - size (WritableFile.appended f)
  /\ status table = OK
  /\ (forall (r : Rep) (block_contents : list Z) (type : CompressionType),
         Forall (eq OK) (WritableFile.results (file r)) ->
         let r' := fst (WriteRawBlock crc32c_Value crc32c_Extend block_contents type r) in
         status r' = OK
         /\ WritableFile.appended (file r')
            = WritableFile.appended (file r) ++ block_contents
              ++ trailer crc32c_Value crc32c_Extend block_contents type
         /\ size (trailer crc32c_Value crc32c_Extend block_contents type) = 5
         /\ offset r' = wrap64 (offset r + (size block_contents + 5)))
  /\ exists blocks metaindex index,
       let footer :=
         Footer.EncodeTo
           {| Footer.metaindex_handle_ :=
                {| BlockHandle.offset_ := TableLayout.framed_size blocks;
                   BlockHandle.size_ := size (fst metaindex) |};
              Footer.index_handle_ :=
                {| BlockHandle.offset_ :=
                     TableLayout.framed_size (blocks ++ [metaindex]);
                   BlockHandle.size_ := size (fst index) |} |} [] in
       WritableFile.appended (file table)
       = WritableFile.appended f
         ++ TableLayout.frames crc32c_Value crc32c_Extend (blocks ++ [metaindex; index])
         ++ footer
       /\ size footer = 48
       /\ FileSize table
          = TableLayout.framed_size (blocks ++ [metaindex; index]) + size footer.
Proof.
  intros Hres table Hlt.
  pose proof (new_io_ok opt f Hres) as Hio0.
  destruct (run_io crc32c_Value crc32c_Extend Snappy_Compress _ calls _ Hio0)
    as [Hio1 _].
  destruct (Finish_ok crc32c_Value crc32c_Extend Snappy_Compress _ _ Hio1)
    as (Hiof & _).
  assert (Hsize : FileSize table
                  = size (WritableFile.appended (file table))
                    - size (WritableFile.appended f)).
  { apply (io_ok_offset _ _ Hiof). exact Hlt. }
  split; [exact Hsize|]. split; [apply Hiof|]. split.
  - intros r block_contents type Hsink r'. subst r'.
    destruct (WriteRawBlock_sink crc32c_Value crc32c_Extend block_contents type r Hsink)
      as (Hst & Happ & Hoff & _).
    split_and!; [exact Hst|exact Happ|reflexivity|exact Hoff].
  - destruct (run_frames crc32c_Value crc32c_Extend Snappy_Compress _ calls _ Hio0)
      as [bs0 Hb0].
    rewrite file_new in Hb0.
    destruct (Finish_frames crc32c_Value crc32c_Extend Snappy_Compress _ _ Hio1)
      as (bs & mi & ix & Hfin).
    fold table in Hfin.
    pose proof (offset_after crc32c_Value crc32c_Extend _ _ _ bs0 Hio0 Hio1) as Ho.
    rewrite file_new in Ho. specialize (Ho Hb0).
    assert (Hnew : offset (new opt f) = 0).
    { unfold new, new_Rep. cbn [filter_block]. by destruct (filter_policy opt). }
    rewrite Hnew, Z.add_0_l in Ho.
    set (r1 := run crc32c_Value crc32c_Extend Snappy_Compress calls (new opt f)) in *.
    rewrite Ho, !wrap64_add_l in Hfin. rewrite Hb0 in Hfin.
    rewrite <- !framed_size_app in Hfin.
    (* sizes: nothing wraps *)
    pose proof (framed_size_nonneg (bs0 ++ bs)) as Hn0.
    pose proof (framed_size_nonneg [mi]) as Hn1.
    pose proof (framed_size_nonneg [ix]) as Hn2.
    assert (Htotal : size (WritableFile.appended (file table))
                     = size (WritableFile.appended f)
                       + TableLayout.framed_size ((bs0 ++ bs) ++ [mi; ix]) + 48).
    { rewrite Hfin, !size_app, !(size_frames crc32c_Value crc32c_Extend), size_footer.
      rewrite !framed_size_app. lia. }
    assert (Hsplit : TableLayout.framed_size ((bs0 ++ bs) ++ [mi; ix])
                     = TableLayout.framed_size (bs0 ++ bs)
                       + TableLayout.framed_size [mi] + TableLayout.framed_size [ix]).
    { change [mi; ix] with ([mi] ++ [ix]). rewrite !framed_size_app. lia. }
    exists (bs0 ++ bs), mi, ix. cbv zeta.
    rewrite size_footer. split_and!.
    + rewrite Hfin.
      rewrite (wrap64_small (TableLayout.framed_size (bs0 ++ bs))) by lia.
      rewrite (wrap64_small (TableLayout.framed_size (bs0 ++ bs ++ [mi])))
        by (rewrite app_assoc, framed_size_app; lia).
      rewrite <- !app_assoc.
      rewrite (frames_app crc32c_Value crc32c_Extend bs0).
      rewrite <- !app_assoc. reflexivity.
    + reflexivity.
    + rewrite Hsize, Htotal. lia.
Qed.

End TableFileProperties.

Module TableLayoutExamples.
Import TableBuilder TableBuilderView.

Lemma file_size_counts_appended_bytes_witness :
  let table :=
    Finish Example.crc32c_Value Example.crc32c_Extend Example.no_snappy
      (run Example.crc32c_Value Example.crc32c_Extend Example.no_snappy
         Example.calls (new Example.options Example.sink)) in
  FileSize table
  = size (WritableFile.appended (file table))
    - size (WritableFile.appended Example.sink)
  /\ status table = OK.
Proof.
  intros table.
  destruct (file_size_counts_appended_bytes
              Example.crc32c_Value Example.crc32c_Extend Example.no_snappy
              Example.options Example.sink Example.calls) as (H1 & H2 & _).
  - constructor.
  - vm_compute. reflexivity.
  - split; [exact H1|exact H2].
Defined.

End TableLayoutExamples.

(** * Restart points of a block *)
Module BlockLayoutFacts.

(** The block a list of Adds builds from a new builder. *)
Lemma new_block_layout (interval : Z) (kvs : list (list Z * list Z)) :
  1 <= interval < 2 ^ 31 ->
  let b := BlockView.add_all interval kvs BlockBuilder.new in
  let entries := BlockView.block_entries interval 0 [] kvs in
  BlockBuilder.buffer_ b = concat entries
  /\ BlockBuilder.restarts_ b
     = match kvs with
       | [] => [0]
       | _ => BlockView.restart_points interval 0 0 entries
       end
  /\ size (BlockBuilder.restarts_ b)
     = Z.max 1 ((size kvs + interval - 1) / interval)
  /\ 0 <= BlockBuilder.counter_ b <= interval.
Proof.
  intros HR b entries. subst b entries.
  destruct kvs as [|[key value] kvs].
  - cbn. change (size (@nil (list Z * list Z))) with 0. change (size [0]) with 1.
    split_and!; [done|done| |lia|lia].
    rewrite Z.add_0_l. rewrite Z.div_small by lia. lia.
  - rewrite BlockBuilderFacts.add_all_cons.
    cbn [BlockView.block_entries BlockView.restart_points concat].
    rewrite Z.mod_0_l by lia. cbn [Z.eqb].
    destruct (BlockBuilderFacts.Add_fields interval key value BlockBuilder.new)
      as (Hbuf & _ & Hres & Hcnt & _).
    pose proof (BlockBuilderFacts.Add_last_key interval key value BlockBuilder.new)
      as Hlast.
    unfold BlockView.shared_of in Hbuf.
    cbn [BlockBuilder.counter_ BlockBuilder.new BlockBuilder.buffer_
         BlockBuilder.restarts_ BlockBuilder.last_key_] in Hbuf, Hres, Hcnt.
    destruct (Z.ltb_spec 0 interval) as [_|]; [|lia].
    cbn [BlockBuilder.shared_prefix app] in Hbuf.
    destruct (BlockBuilderFacts.add_all_layout interval kvs
                (BlockBuilder.Add interval key value BlockBuilder.new) 1
                ltac:(lia) ltac:(lia)) as (H1 & H2 & H3 & H4).
    { rewrite Hcnt. rewrite Z.sub_diag, Z.mod_0_l by lia. lia. }
    rewrite Hlast in H1, H2. rewrite Hbuf in H1, H2. rewrite Hres in H2, H4.
    assert (Hsz : size ((key, value) :: kvs) = 1 + size kvs).
    { unfold size. cbn [length]. lia. }
    pose proof (size_nonneg kvs) as Hn.
    split_and!.
    + exact H1.
    + rewrite H2. change (wrap32 0) with 0. by rewrite Z.add_0_l.
    + change (size [0]) with 1 in H4.
      rewrite Z.sub_diag, Z.div_0_l in H4 by lia.
      rewrite Hsz.
      replace (1 + size kvs + interval - 1) with ((1 + size kvs - 1) + 1 * interval) by lia.
      rewrite Z.div_add by lia.
      assert (0 <= (1 + size kvs - 1) / interval) by (apply Z.div_pos; lia).
      lia.
    + rewrite H3.
      pose proof (Z.mod_pos_bound (1 + size kvs - 1) interval ltac:(lia)). lia.
    + rewrite H3.
      pose proof (Z.mod_pos_bound (1 + size kvs - 1) interval ltac:(lia)). lia.
Qed.

End BlockLayoutFacts.

(** C7. The block builder restarts prefix compression exactly every
    block_restart_interval entries, for every interval R >= 1 and every
    list of entries added to a new builder: entry i is encoded with
    shared = 0 and its full key when i is a multiple of R, and otherwise
    with the length of the longest prefix it has in common with the key
    before and the rest of its key; the restart array holds the offsets of
    the entries at the multiples of R, so ceil(n / R) of them for n >= 1
    entries; and Finish appends the restart array and its length as
    fixed32s.  For R = 3 and the keys aa, ab, ac, ad this gives shared =
    0, 1, 1, 0 and a restart array of two entries. *)
Theorem restart_every_interval_entries
        (interval : Z) (kvs : list (list Z * list Z)) :
  1 <= interval < 2 ^ 31 ->
  let b := BlockView.add_all interval kvs BlockBuilder.new in
  let entries := BlockView.block_entries interval 0 [] kvs in
  let restarts :=
    match kvs with
    | [] => [0]
    | _ => BlockView.restart_points interval 0 0 entries
    end in
  BlockBuilder.buffer_ b = concat entries
  /\ BlockBuilder.restarts_ b = restarts
  /\ size restarts = Z.max 1 ((size kvs + interval - 1) / interval)
  /\ BlockBuilder.buffer_ (BlockBuilder.Finish b)
     = concat entries
       ++ concat (map Coding.EncodeFixed32 restarts)
       ++ Coding.EncodeFixed32 (wrap32 (size restarts)).
Proof.
  intros HR b entries restarts.
  destruct (BlockLayoutFacts.new_block_layout interval kvs HR) as (H1 & H2 & H3 & _).
  fold b entries in H1, H2, H3. fold restarts in H2.
  split_and!; [exact H1|exact H2|by rewrite <- H2| ].
  unfold BlockBuilder.Finish. cbn [BlockBuilder.buffer_].
  rewrite CodingFacts.fold_PutFixed32. unfold Coding.PutFixed32.
  rewrite H1, H2. by rewrite <- app_assoc.
Qed.

(** The keys aa, ab, ac, ad with a restart interval of 3. *)
Lemma restart_every_interval_entries_witness :
  let aa := Example.key_of "aa" in
  let ab := Example.key_of "ab" in
  let ac := Example.key_of "ac" in
  let ad := Example.key_of "ad" in
  let b :=
    BlockBuilder.Add 3 ad [4]
      (BlockBuilder.Add 3 ac [3]
         (BlockBuilder.Add 3 ab [2] (BlockBuilder.Add 3 aa [1] BlockBuilder.new))) in
  let e0 := ClaimView.entry 0 aa [1] in
  let e1 := ClaimView.entry 1 (Example.key_of "b") [2] in
  let e2 := ClaimView.entry 1 (Example.key_of "c") [3] in
  let e3 := ClaimView.entry 0 ad [4] in
  BlockBuilder.buffer_ b = e0 ++ e1 ++ e2 ++ e3
  /\ BlockBuilder.restarts_ b = [0; size (e0 ++ e1 ++ e2)]
  /\ size (BlockBuilder.restarts_ b) = 2
  /\ BlockBuilder.buffer_ (BlockBuilder.Finish b)
     = (e0 ++ e1 ++ e2 ++ e3)
       ++ Coding.EncodeFixed32 0
       ++ Coding.EncodeFixed32 (size (e0 ++ e1 ++ e2))
       ++ Coding.EncodeFixed32 2.
Proof.
  intros aa ab ac ad b e0 e1 e2 e3.
  destruct (restart_every_interval_entries 3
              [(aa, [1]); (ab, [2]); (ac, [3]); (ad, [4])]) as (H1 & H2 & H3 & H4).
  - lia.
  - change (BlockView.add_all 3 [(aa, [1]); (ab, [2]); (ac, [3]); (ad, [4])]
                              BlockBuilder.new) with b in H1, H2, H4.
    split_and!.
    + rewrite H1. vm_compute. reflexivity.
    + rewrite H2. vm_compute. reflexivity.
    + rewrite H2. vm_compute. reflexivity.
    + rewrite H4. vm_compute. reflexivity.
Defined.
